(** * GitHub activity metric extractor: the fetch engine of [github-client.ts]
      and the batch scheduler of [index.ts], embedded in Rocq.

    The client is asynchronous TypeScript over the Octokit transport.  It is
    embedded as a state-and-exception monad over

    - the client object's own fields ([rateLimitRemaining], [rateLimitReset],
      [repoBranchCache]);
    - an abstract environment [Env] standing for everything outside the
      program: the remote API, the wall clock and the timer;
    - a journal of the requests sent and the sleeps taken, which is ghost
      state: the program never reads it, the theorems do.

    An [await]ed promise is a monadic action whose outcome is [Return] or
    [Throw]; a [while (true)] paging loop takes fuel and is [Unfinished] when
    the fuel runs out.  Numbers that count things are [nat], timestamps, line
    counts and quota values are [Z].  Progress reporting ([reportProgress],
    [updateRepoStatus] and the like) is a fire-and-forget callback to the
    user interface and is left out.

    Beside the collectors the file embeds the organisation listing
    ([getOrgRepos]), the base URL, the totals and per-user statistics and
    the argument parser of [index.ts], and the CSV field escaping of
    [formatters.ts].

    The file has four parts: the program, with a reference model of the
    remote it talks to; the vocabulary the statements are written in; the
    properties; and concrete scenarios. *)

From Stdlib Require Import ZArith Lia Ascii String.
From stdpp Require Import base option list strings gmap.

Set Implicit Arguments.

(** ** Errors *)

(** A rejection of the transport: a JavaScript [Error] with a [message] and,
    when the server answered, an HTTP [status] property.  Octokit rejects with
    [RequestError], a subclass of [Error]; connection failures are plain
    [Error]s without [status]. *)
Record ErrorObj := mkError {
  message : string;
  status : option Z
}.

(** What a [throw] can carry through the client. *)
Inductive Thrown :=
| PlainError (e : ErrorObj)
    (* an [Error] that is not a [GitHubApiError] *)
| GitHubApiError (repoName operation : string) (originalError : ErrorObj)
    (* the wrapper class; it has the three fields and no [status] property *)
| NotAnError.
    (* a thrown value that is not [instanceof Error] *)

(** [error instanceof Error && "status" in error], then the status value. *)
Definition ownStatus (error : Thrown) : option Z :=
  match error with
  | PlainError e => status e
  | GitHubApiError _ _ _ => None
  | NotAnError => None
  end.

Module Str.

Definition lower_ascii (c : ascii) : ascii :=
  let n := Ascii.nat_of_ascii c in
  if (65 <=? n)%nat && (n <=? 90)%nat then Ascii.ascii_of_nat (n + 32) else c.

(** [String.prototype.toLowerCase], on the ASCII letters. *)
Fixpoint toLowerCase (s : string) : string :=
  match s with
  | EmptyString => EmptyString
  | String c t => String (lower_ascii c) (toLowerCase t)
  end.

(** [hay.includes(needle)] *)
Fixpoint includes (hay needle : string) : bool :=
  String.prefix needle hay ||
  match hay with
  | EmptyString => false
  | String _ t => includes t needle
  end.

End Str.

Definition MAX_RETRIES : nat := 3.
Definition INITIAL_RETRY_DELAY_MS : Z := 1000.

Definition retryableStatus (st : Z) : bool :=
  ((st =? 403) || (st =? 429) || (st =? 502) || (st =? 503) || (st =? 504))%Z.

Definition isRetryableError (error : ErrorObj) : bool :=
  let message := Str.toLowerCase (message error) in
  if Str.includes message "other side closed" ||
     Str.includes message "econnreset" ||
     Str.includes message "socket hang up" ||
     Str.includes message "etimedout" ||
     Str.includes message "enotfound" ||
     Str.includes message "network" ||
     Str.includes message "timeout"
  then true
  else match status error with
       | Some st => retryableStatus st
       | None => false
       end.

(** ** Configuration

    [rangeStart] is [new Date(startDate).getTime()] and [rangeEnd] is
    [new Date(endDate + "T23:59:59").getTime()], both in milliseconds; the
    configuration is validated before the client is built, so both dates
    parse. *)
Record Config := mkConfig {
  organization : string;
  rangeStart : Z;
  rangeEnd : Z;
  maxConcurrentRequests : nat;
  skipLineStats : bool;
  configPageSize : nat
}.

(** [this.config.options.pageSize || 100] *)
Definition pageSize (config : Config) : nat :=
  match configPageSize config with
  | O => 100
  | n => n
  end.

(** ** The transport *)

Record Headers := mkHeaders {
  x_ratelimit_remaining : option Z;
  x_ratelimit_reset : option Z
}.

Record Response (T : Type) := mkResponse {
  data : T;
  headers : Headers
}.

Inductive Reply (T : Type) :=
| Resolved (r : Response T)
| Rejected (e : ErrorObj).
Arguments Rejected {T} e.

Definition rejection {T} (reply : Reply T) : option ErrorObj :=
  match reply with
  | Resolved _ => None
  | Rejected e => Some e
  end.

Record RepoMeta := { default_branch : string }.

Record CommitItem := mkCommitItem {
  sha : string;
  author_login : option string;        (* [commit.author?.login] *)
  commit_author_email : option string  (* [commit.commit.author?.email] *)
}.

Record LineStats := mkLineStats {
  additions : option Z;
  deletions : option Z
}.

Record CommitDetail := mkCommitDetail {
  parents : option (list string);   (* the parents' shas *)
  stats : option LineStats
}.

Record Comparison := { files : option (list LineStats) }.

Record PullItem := { pr_created_at : Z }.

Record ReleaseItem := mkRelease {
  published_at : option Z;
  rel_created_at : Z
}.

Record IssueItem := mkIssue {
  pull_request : bool;
  issue_created_at : Z;
  closed_at : option Z
}.

Record ListCommitsParams := mkListCommits {
  lc_owner : string;
  lc_repo : string;
  lc_sha : string;
  lc_since : option Z;
  lc_until : option Z;
  lc_per_page : nat;
  lc_page : option nat
}.

(** The requests the collectors send, indexed by the type of the payload. *)
Inductive Request : Type -> Type :=
| ReposGet (owner repo : string) : Request RepoMeta
| ReposListCommits (p : ListCommitsParams) : Request (list CommitItem)
| ReposGetCommit (owner repo ref : string) : Request CommitDetail
| ReposCompareCommits (owner repo base head : string) : Request Comparison
| PullsList (owner repo base : string) (per_page page : nat) : Request (list PullItem)
| IssuesListForRepo (owner repo : string) (since : Z) (per_page page : nat)
    : Request (list IssueItem)
| ReposListReleases (owner repo : string) (per_page page : nat)
    : Request (list ReleaseItem).

(** The capabilities the client consumes: an authenticated request that
    resolves or rejects, [Date.now()] and [setTimeout]. *)
Class Octokit (Env : Type) := {
  send : forall T, Request T -> Env -> Reply T * Env;
  date_now : Env -> Z;
  set_timeout : Z -> Env -> Env
}.

(** What the journal records: a request together with the error it was
    rejected with, if it was, and a sleep with its length in milliseconds. *)
Inductive Event :=
| Called {T} (r : Request T) (rejection : option ErrorObj)
| Slept (ms : Z).

(** ** The client state and its monad *)

Record State (Env : Type) := mkState {
  rateLimitRemaining : Z;
  rateLimitReset : Z;
  repoBranchCache : gmap string string;
  env : Env;
  journal : list Event
}.

Inductive Outcome (A : Type) :=
| Return (a : A)
| Throw (error : Thrown)
| Unfinished.
Arguments Throw {A} error.
Arguments Unfinished {A}.

Definition M (Env A : Type) : Type := State Env -> Outcome A * State Env.

Section Monad.
Context {Env : Type}.

Definition ret {A} (a : A) : M Env A := fun s => (Return a, s).

Definition throw {A} (error : Thrown) : M Env A := fun s => (Throw error, s).

Definition unfinished {A} : M Env A := fun s => (Unfinished, s).

Definition bind {A B} (m : M Env A) (f : A -> M Env B) : M Env B :=
  fun s =>
    match m s with
    | (Return a, s') => f a s'
    | (Throw error, s') => (Throw error, s')
    | (Unfinished, s') => (Unfinished, s')
    end.

(** [try { m } catch (error) { handler }] *)
Definition tryCatch {A} (m : M Env A) (handler : Thrown -> M Env A) : M Env A :=
  fun s =>
    match m s with
    | (Throw error, s') => handler error s'
    | r => r
    end.

End Monad.

Declare Scope client_scope.
Delimit Scope client_scope with client.
Notation "x <- m ;; k" := (bind m (fun x => k))
  (at level 100, m at next level, right associativity) : client_scope.
Notation "m ;;; k" := (bind m (fun _ => k))
  (at level 100, right associativity) : client_scope.
Open Scope client_scope.

(** One turn of a [while (true)] loop either goes round again or leaves the
    function with its result ([break] followed by the [return] after the
    loop, or a [return] inside the loop). *)
Inductive Step (St R : Type) :=
| Continue (st : St)
| Finish (r : R).
Arguments Continue {St R} st.
Arguments Finish {St R} r.

Fixpoint whileTrue {Env St R} (fuel : nat) (body : St -> M Env (Step St R)) (st : St)
  : M Env R :=
  match fuel with
  | O => unfinished
  | S fuel' =>
      step <- body st ;;
      match step with
      | Continue st' => whileTrue fuel' body st'
      | Finish r => ret r
      end
  end.

(** ** The client ([class GitHubClient]) *)

Record RepoInfo := mkRepoInfo {
  name : string;
  isArchived : bool
}.

Record RepoStats := mkRepoStats {
  rs_name : string;
  rs_isArchived : bool;
  commits : nat;
  linesAdded : Z;
  linesDeleted : Z;
  totalLines : Z;
  pullRequests : nat;
  contributors : nat;
  contributorsList : list string;
  issuesCreated : nat;
  issuesClosed : nat;
  releases : nat
}.

Record Lines := mkLines {
  added : Z;
  deleted : Z
}.

Record IssueCounts := mkIssueCounts {
  created : nat;
  closed : nat
}.

(** JavaScript truthiness of a string: the empty string is falsy. *)
Definition truthy (s : string) : bool :=
  match s with
  | EmptyString => false
  | String _ _ => true
  end.

(** [Set.prototype.add] on a set that is later read in insertion order. *)
Definition setAdd (x : string) (l : list string) : list string :=
  if bool_decide (x ∈ l) then l else l ++ [x].

(** [createdAt >= start && createdAt <= end] *)
Definition inRange (start finish t : Z) : bool :=
  ((start <=? t) && (t <=? finish))%Z.

(** [INITIAL_RETRY_DELAY_MS * Math.pow(2, attempt - 1)], raised to at least
    60000 when the error has [status === 403]. *)
Definition delayMs (attempt : nat) (error : ErrorObj) : Z :=
  let delayMs := (INITIAL_RETRY_DELAY_MS * 2 ^ (Z.of_nat attempt - 1))%Z in
  match status error with
  | Some st => if (st =? 403)%Z then Z.max delayMs 60000 else delayMs
  | None => delayMs
  end.

(** The [for (const pr of response.data)] loop of [getPullRequestCount]:
    [Finish] is the [return count] inside it, [Continue] its normal end. *)
Fixpoint scanPulls (start finish : Z) (prs : list PullItem) (count : nat)
  : Step nat nat :=
  match prs with
  | [] => Continue count
  | pr :: rest =>
      let createdAt := pr_created_at pr in
      if (createdAt <? start)%Z then Finish count
      else scanPulls start finish rest
             (if inRange start finish createdAt then S count else count)
  end.

(** The [for (const release of response.data)] loop of [getReleaseCount]. *)
Fixpoint scanReleases (start finish : Z) (rels : list ReleaseItem) (count : nat)
  : Step nat nat :=
  match rels with
  | [] => Continue count
  | release :: rest =>
      let publishedAt := default (rel_created_at release) (published_at release) in
      let count := if inRange start finish publishedAt then S count else count in
      if (publishedAt <? start)%Z then Finish count
      else scanReleases start finish rest count
  end.

(** The [for (const issue of response.data)] loop of [getIssueStats]. *)
Fixpoint scanIssues (start finish : Z) (issues : list IssueItem) (acc : IssueCounts)
  : IssueCounts :=
  match issues with
  | [] => acc
  | issue :: rest =>
      if pull_request issue then scanIssues start finish rest acc
      else
        let created :=
          if inRange start finish (issue_created_at issue)
          then S (created acc) else created acc in
        let closed :=
          match closed_at issue with
          | Some closedAt =>
              if inRange start finish closedAt then S (closed acc) else closed acc
          | None => closed acc
          end in
        scanIssues start finish rest (mkIssueCounts created closed)
  end.

(** The [for (const commit of response.data)] loop of [getContributors]. *)
Fixpoint scanAuthors (page : list CommitItem) (contributors : list string)
  : list string :=
  match page with
  | [] => contributors
  | commit :: rest =>
      let author :=
        match author_login commit with
        | Some login => Some login
        | None => commit_author_email commit
        end in
      scanAuthors rest
        match author with
        | Some a => if truthy a then setAdd a contributors else contributors
        | None => contributors
        end
  end.

(** The [for (const file of compareResponse.data.files)] loop. *)
Fixpoint sumFiles (fs : list LineStats) (acc : Lines) : Lines :=
  match fs with
  | [] => acc
  | file :: rest =>
      sumFiles rest
        (mkLines (added acc + default 0 (additions file))
                 (deleted acc + default 0 (deletions file)))%Z
  end.

(** [error] has a status of its own, or wraps an original error with one,
    that is 404, 409 or 422 (the helper inside [getRepoStats]). *)
Definition emptyRepoStatus (st : Z) : bool :=
  ((st =? 404) || (st =? 409) || (st =? 422))%Z.

Definition isEmptyRepoError (error : Thrown) : bool :=
  match error with
  | GitHubApiError _ _ originalError =>
      match status originalError with
      | Some st => emptyRepoStatus st
      | None => false
      end
  | PlainError e =>
      match status e with
      | Some st => emptyRepoStatus st
      | None => false
      end
  | NotAnError => false
  end.

Section Client.
Context {Env : Type} `{!Octokit Env}.
Variable config : Config.

Definition sleep (ms : Z) : M Env unit := fun s =>
  (Return tt,
   mkState (rateLimitRemaining s) (rateLimitReset s) (repoBranchCache s)
           (set_timeout ms (env s)) (journal s ++ [Slept ms])).

(** [await operation()], before the [try] decides what a rejection means. *)
Definition await {T} (operation : Request T) : M Env (Reply T) := fun s =>
  let (reply, env') := send operation (env s) in
  (Return reply,
   mkState (rateLimitRemaining s) (rateLimitReset s) (repoBranchCache s)
           env' (journal s ++ [Called operation (rejection reply)])).

(** The header values are the decimal texts [parseInt] reads. *)
Definition updateRateLimit (h : Headers) : M Env unit := fun s =>
  (Return tt,
   mkState (default (rateLimitRemaining s) (x_ratelimit_remaining h))
           (default (rateLimitReset s) (x_ratelimit_reset h))
           (repoBranchCache s) (env s) (journal s)).

Definition checkRateLimit (repoName : string) : M Env unit := fun s =>
  if (rateLimitRemaining s <? 100)%Z then
    let now := (date_now (env s) / 1000)%Z in
    let waitSeconds := (Z.max 0 (rateLimitReset s - now) + 5)%Z in
    if ((0 <? waitSeconds) && (waitSeconds <? 3600))%Z
    then sleep (waitSeconds * 1000)%Z s
    else ret tt s
  else ret tt s.

(** The [for (let attempt = 1; attempt <= MAX_RETRIES; attempt++)] loop of
    [withRetry], entered at [attempt] with [remaining = MAX_RETRIES + 1 -
    attempt] turns to go; the [O] case is the code after the loop. *)
Fixpoint attemptLoop {T} (remaining attempt : nat) (lastError : option ErrorObj)
    (operation : Request T) (repoName operationName : string)
  : M Env (Response T) :=
  match remaining with
  | O =>
      match lastError with
      | Some e => throw (GitHubApiError repoName operationName e)
      | None => throw NotAnError
      end
  | S remaining' =>
      reply <- await operation ;;
      match reply with
      | Resolved result =>
          updateRateLimit (headers result) ;;;
          ret result
      | Rejected error =>
          if negb (isRetryableError error) || (attempt =? MAX_RETRIES)%nat
          then throw (GitHubApiError repoName operationName error)
          else
            sleep (delayMs attempt error) ;;;
            attemptLoop remaining' (S attempt) (Some error)
                        operation repoName operationName
      end
  end.

Definition withRetry {T} (operation : Request T) (repoName operationName : string)
  : M Env (Response T) :=
  checkRateLimit repoName ;;;
  attemptLoop MAX_RETRIES 1 None operation repoName operationName.

Definition cacheBranch (repoName defaultBranch : string) : M Env unit := fun s =>
  (Return tt,
   mkState (rateLimitRemaining s) (rateLimitReset s)
           (<[repoName := defaultBranch]> (repoBranchCache s))
           (env s) (journal s)).

Definition getDefaultBranch (repoName : string) : M Env string := fun s =>
  let fetch : M Env string :=
    response <- withRetry (ReposGet (organization config) repoName)
                          repoName "fetching default branch" ;;
    updateRateLimit (headers response) ;;;
    let defaultBranch := default_branch (data response) in
    cacheBranch repoName defaultBranch ;;;
    ret defaultBranch in
  match repoBranchCache s !! repoName with
  | Some cached => if truthy cached then ret cached s else fetch s
  | None => fetch s
  end.

(** [branch ?? await this.getDefaultBranch(repoName)] *)
Definition targetBranchOf (repoName : string) (branch : option string)
  : M Env string :=
  match branch with
  | Some b => ret b
  | None => getDefaultBranch repoName
  end.

Definition rangeCommits (repoName targetBranch : string) (page : option nat)
  : Request (list CommitItem) :=
  ReposListCommits
    (mkListCommits (organization config) repoName targetBranch
       (Some (rangeStart config)) (Some (rangeEnd config))
       (pageSize config) page).

(** One turn of the loop of [getCommitCount]. *)
Definition commitCountPage (repoName targetBranch : string) (st : nat * nat)
  : M Env (Step (nat * nat) nat) :=
  let '(count, page) := st in
  tryCatch
    (response <- withRetry (rangeCommits repoName targetBranch (Some page))
                           repoName "fetching commits" ;;
     let count := count + length (data response) in
     if length (data response) <? pageSize config
     then ret (Finish count)
     else ret (Continue (count, S page)))
    (fun error =>
       match ownStatus error with
       | Some st => if (st =? 409)%Z then ret (Finish 0) else throw error
       | None => throw error
       end).

Definition getCommitCount (fuel : nat) (repoName : string) (branch : option string)
  : M Env nat :=
  targetBranch <- targetBranchOf repoName branch ;;
  whileTrue fuel (commitCountPage repoName targetBranch) (0, 1).

Definition zeroLines : Lines := mkLines 0 0.

Definition getLinesOfCode (repoName : string) (branch : option string)
  : M Env Lines :=
  if skipLineStats config then ret zeroLines
  else
    targetBranch <- targetBranchOf repoName branch ;;
    tryCatch
      (endCommitsResponse <-
         withRetry
           (ReposListCommits
              (mkListCommits (organization config) repoName targetBranch
                 None (Some (rangeEnd config)) 1 None))
           repoName "finding end commit" ;;
       match data endCommitsResponse with
       | [] => ret zeroLines
       | endCommit :: _ =>
           let endCommitSha := sha endCommit in
           baseCommitsResponse <-
             withRetry
               (ReposListCommits
                  (mkListCommits (organization config) repoName targetBranch
                     None (Some (rangeStart config - 1)%Z) 1 None))
               repoName "finding base commit" ;;
           let compare (baseSha : string) : M Env Lines :=
             if String.eqb baseSha endCommitSha then ret zeroLines
             else
               compareResponse <-
                 withRetry
                   (ReposCompareCommits (organization config) repoName
                      baseSha endCommitSha)
                   repoName "comparing commits" ;;
               match files (data compareResponse) with
               | Some fs => ret (sumFiles fs zeroLines)
               | None => ret zeroLines
               end in
           match data baseCommitsResponse with
           | baseCommit :: _ => compare (sha baseCommit)
           | [] =>
               firstCommitsResponse <-
                 withRetry (rangeCommits repoName targetBranch None)
                           repoName "finding first commit" ;;
               match last (data firstCommitsResponse) with
               | None => ret zeroLines
               | Some oldestCommit =>
                   commitDetail <-
                     withRetry
                       (ReposGetCommit (organization config) repoName
                          (sha oldestCommit))
                       repoName "getting commit parent" ;;
                   match parents (data commitDetail) with
                   | Some (parent :: _) => compare parent
                   | _ =>
                       ret (mkLines
                              (default 0%Z (stats (data commitDetail) ≫= additions))
                              (default 0%Z (stats (data commitDetail) ≫= deletions)))
                   end
               end
           end
       end)
      (fun error =>
         match ownStatus error with
         | Some st =>
             if ((st =? 409) || (st =? 404))%Z then ret zeroLines else throw error
         | None => throw error
         end).

(** One turn of the loop of [getPullRequestCount]. *)
Definition pullRequestPage (repoName targetBranch : string) (st : nat * nat)
  : M Env (Step (nat * nat) nat) :=
  let '(count, page) := st in
  response <-
    withRetry
      (PullsList (organization config) repoName targetBranch
         (pageSize config) page)
      repoName "fetching pull requests" ;;
  if length (data response) =? 0 then ret (Finish count)
  else
    match scanPulls (rangeStart config) (rangeEnd config)
            (data response) count with
    | Finish count => ret (Finish count)
    | Continue count =>
        if length (data response) <? pageSize config
        then ret (Finish count)
        else ret (Continue (count, S page))
    end.

Definition getPullRequestCount (fuel : nat) (repoName : string)
    (branch : option string) : M Env nat :=
  targetBranch <- targetBranchOf repoName branch ;;
  whileTrue fuel (pullRequestPage repoName targetBranch) (0, 1).

(** One turn of the loop of [getContributors]. *)
Definition contributorsPage (repoName targetBranch : string) (st : list string * nat)
  : M Env (Step (list string * nat) (list string)) :=
  let '(contributors, page) := st in
  tryCatch
    (response <- withRetry (rangeCommits repoName targetBranch (Some page))
                           repoName "fetching contributors" ;;
     if length (data response) =? 0 then ret (Finish contributors)
     else
       let contributors := scanAuthors (data response) contributors in
       if length (data response) <? pageSize config
       then ret (Finish contributors)
       else ret (Continue (contributors, S page)))
    (fun error =>
       match ownStatus error with
       | Some st => if (st =? 409)%Z then ret (Finish []) else throw error
       | None => throw error
       end).

Definition getContributors (fuel : nat) (repoName : string)
    (branch : option string) : M Env (list string) :=
  targetBranch <- targetBranchOf repoName branch ;;
  whileTrue fuel (contributorsPage repoName targetBranch) ([], 1).

(** One turn of the loop of [getIssueStats]. *)
Definition issuesPage (repoName : string) (st : IssueCounts * nat)
  : M Env (Step (IssueCounts * nat) IssueCounts) :=
  let '(acc, page) := st in
  response <-
    withRetry
      (IssuesListForRepo (organization config) repoName
         (rangeStart config) (pageSize config) page)
      repoName "fetching issues" ;;
  if length (data response) =? 0 then ret (Finish acc)
  else
    let acc := scanIssues (rangeStart config) (rangeEnd config)
                 (data response) acc in
    if length (data response) <? pageSize config
    then ret (Finish acc)
    else ret (Continue (acc, S page)).

Definition getIssueStats (fuel : nat) (repoName : string) : M Env IssueCounts :=
  whileTrue fuel (issuesPage repoName) (mkIssueCounts 0 0, 1).

(** One turn of the loop of [getReleaseCount]. *)
Definition releasePage (repoName : string) (st : nat * nat)
  : M Env (Step (nat * nat) nat) :=
  let '(count, page) := st in
  tryCatch
    (response <-
       withRetry
         (ReposListReleases (organization config) repoName
            (pageSize config) page)
         repoName "fetching releases" ;;
     if length (data response) =? 0 then ret (Finish count)
     else
       match scanReleases (rangeStart config) (rangeEnd config)
               (data response) count with
       | Finish count => ret (Finish count)
       | Continue count =>
           if length (data response) <? pageSize config
           then ret (Finish count)
           else ret (Continue (count, S page))
       end)
    (fun _ => ret (Finish 0)).

Definition getReleaseCount (fuel : nat) (repoName : string) : M Env nat :=
  whileTrue fuel (releasePage repoName) (0, 1).

Definition emptyStats (repoInfo : RepoInfo) : RepoStats :=
  mkRepoStats (name repoInfo) (isArchived repoInfo) 0 0 0 0 0 0 [] 0 0 0.

(** The [safe] helper inside [getRepoStats]. *)
Definition safe {T} (fn : M Env T) (defaultValue : T) : M Env T :=
  tryCatch fn
    (fun error => if isEmptyRepoError error then ret defaultValue else throw error).

(** [Promise.all] over the five collectors is run here in the order of the
    array; the collectors share nothing but the quota fields and the
    transport.  The first collector to throw ends the run: in the program
    the others go on in the background and what they find is dropped. *)
Definition getRepoStats (fuel : nat) (repoInfo : RepoInfo) : M Env RepoStats :=
  let repoName := name repoInfo in
  resolved <-
    tryCatch
      (branch <- getDefaultBranch repoName ;; ret (Some branch))
      (fun error => if isEmptyRepoError error then ret None else throw error) ;;
  match resolved with
  | None => ret (emptyStats repoInfo)
  | Some branch =>
      commits <- safe (getCommitCount fuel repoName (Some branch)) 0 ;;
      lines <- safe (getLinesOfCode repoName (Some branch)) zeroLines ;;
      pullRequests <- safe (getPullRequestCount fuel repoName (Some branch)) 0 ;;
      contributorsList <- safe (getContributors fuel repoName (Some branch)) [] ;;
      releases <- safe (getReleaseCount fuel repoName) 0 ;;
      ret (mkRepoStats repoName (isArchived repoInfo)
             commits (added lines) (deleted lines) (added lines - deleted lines)%Z
             pullRequests (length contributorsList) contributorsList
             0 0 releases)
  end.

End Client.

(** ** The batch scheduler ([processRepos] of [index.ts]) *)

(** [l.slice(i, j)] for [0 <= i] and [0 <= j]. *)
Definition slice {A} (i j : nat) (l : list A) : list A := take (j - i) (drop i l).

(** The batch the loop of [processRepos] cuts at position [i]. *)
Definition batchAt (repos : list RepoInfo) (concurrency i : nat) : list RepoInfo :=
  slice i (min (i + concurrency) (length repos)) repos.

Record BatchResult := mkBatchResult {
  index : nat;
  br_stats : RepoStats
}.

Section Scheduler.
Context {Env : Type} `{!Octokit Env}.
Variable config : Config.

(** The order in which the collections of the batch cut at [i] settle: a list
    of positions in that batch.  The program does not choose it; it is how
    the event loop happens to interleave the batch. *)
Variable completion : nat -> list nat.

(** The promises of one batch, run to completion in settle order.  Each one
    stores its [{ index, stats }] in the slot of its own position, which is
    where [Promise.all] reads it; the first rejection rejects the whole. *)
Fixpoint settle (fuel : nat) (batch : list RepoInfo) (batchIndices : list nat)
    (order : list nat) (slots : list (option BatchResult))
  : M Env (list (option BatchResult)) :=
  match order with
  | [] => ret slots
  | batchIdx :: rest =>
      match batch !! batchIdx, batchIndices !! batchIdx with
      | Some repo, Some index =>
          stats <- getRepoStats config fuel repo ;;
          settle fuel batch batchIndices rest
                 (<[batchIdx := Some (mkBatchResult index stats)]> slots)
      | _, _ => settle fuel batch batchIndices rest slots
      end
  end.

(** [await Promise.all(batch.map(...))]: resolves, in the order of the batch,
    once every promise has settled. *)
Definition promiseAll (fuel : nat) (i : nat) (batch : list RepoInfo)
    (batchIndices : list nat) : M Env (list BatchResult) :=
  slots <- settle fuel batch batchIndices (completion i)
                  (replicate (length batch) None) ;;
  match mapM id slots with
  | Some batchResults => ret batchResults
  | None => unfinished
  end.

(** [results[index] = stats] for every element of [batchResults]. *)
Definition store (results : list (option RepoStats)) (batchResults : list BatchResult)
  : list (option RepoStats) :=
  foldl (fun results r => <[index r := Some (br_stats r)]> results)
        results batchResults.

(** The loop [for (let i = 0; i < repos.length; i += concurrency)]. *)
Fixpoint batchLoop (fuel turns : nat) (repos : list RepoInfo) (concurrency i : nat)
    (results : list (option RepoStats)) : M Env (list (option RepoStats)) :=
  match turns with
  | O => unfinished
  | S turns' =>
      if i <? length repos then
        let batch := batchAt repos concurrency i in
        let batchIndices := imap (fun idx _ => i + idx) batch in
        batchResults <- promiseAll fuel i batch batchIndices ;;
        batchLoop fuel turns' repos concurrency (i + concurrency)
                  (store results batchResults)
      else ret results
  end.

(** [results] starts as [new Array(repos.length)], every slot a hole. *)
Definition processRepos (fuel : nat) (repos : list RepoInfo) (concurrency : nat)
  : M Env (list (option RepoStats)) :=
  batchLoop fuel fuel repos concurrency 0 (replicate (length repos) None).

End Scheduler.

(** ** The rest of the client's state *)

Section ClientState.
Context {Env : Type}.

(** [getRateLimitRemaining()] *)
Definition getRateLimitRemaining : M Env Z := fun s =>
  (Return (rateLimitRemaining s), s).

(** [clearBranchCache()], that is [this.repoBranchCache.clear()]. *)
Definition clearBranchCache : M Env unit := fun s =>
  (Return tt,
   mkState (rateLimitRemaining s) (rateLimitReset s) ∅ (env s) (journal s)).

End ClientState.

(** ** The organisation listing ([getOrgRepos])

    The organisation listing is not among the requests of [Request]; the
    call the loop awaits,
    [this.withRetry(() => this.octokit.repos.listForOrg({org, per_page:
    this.pageSize, page, type: "all"}), org, "fetching repositories")],
    is taken as a whole, as the action [listForOrg page].  The filters
    [config.options.includeRepos] and [config.options.excludeRepos] are taken
    beside the configuration. *)

Record OrgRepo := mkOrgRepo {
  or_name : string;            (* [repo.name] *)
  or_archived : option bool    (* [repo.archived], which may be missing *)
}.

Section OrgRepos.
Context {Env : Type}.
Variable config : Config.
Variables includeRepos excludeRepos : list string.
Variable listForOrg : nat -> M Env (Response (list OrgRepo)).

(** The [for (const repo of response.data)] loop; the two [continue]s are
    the first two branches. *)
Fixpoint scanRepos (page : list OrgRepo) (repos : list RepoInfo) : list RepoInfo :=
  match page with
  | [] => repos
  | repo :: rest =>
      let repoName := or_name repo in
      if (0 <? length includeRepos) && negb (bool_decide (repoName ∈ includeRepos))
      then scanRepos rest repos
      else if bool_decide (repoName ∈ excludeRepos)
      then scanRepos rest repos
      else scanRepos rest
             (repos ++ [mkRepoInfo repoName (default false (or_archived repo))])
  end.

(** One turn of the loop of [getOrgRepos]. *)
Definition orgReposPage (st : list RepoInfo * nat)
  : M Env (Step (list RepoInfo * nat) (list RepoInfo)) :=
  let '(repos, page) := st in
  response <- listForOrg page ;;
  if length (data response) =? 0 then ret (Finish repos)
  else
    let repos := scanRepos (data response) repos in
    if length (data response) <? pageSize config
    then ret (Finish repos)
    else ret (Continue (repos, S page)).

Definition getOrgRepos (fuel : nat) : M Env (list RepoInfo) :=
  whileTrue fuel orgReposPage ([], 1).

End OrgRepos.

(** ** The base URL ([getApiBaseUrl]) *)

(** [url.replace(/\/$/, "")]: one slash at the very end is dropped. *)
Fixpoint stripTrailingSlash (url : string) : string :=
  match url with
  | EmptyString => EmptyString
  | String c EmptyString => if Ascii.eqb c "/" then EmptyString else url
  | String c rest => String c (stripTrailingSlash rest)
  end.

Definition GITHUB_STANDARD_API_URL : string := "https://api.github.com".

(** [config.github.isEnterprise] and [config.github.enterpriseUrl] are the
    two parameters. *)
Definition getApiBaseUrl (isEnterprise : bool) (enterpriseUrl : string) : string :=
  if isEnterprise then stripTrailingSlash enterpriseUrl ++ "/api/v3"
  else GITHUB_STANDARD_API_URL.

(** ** Totals and per-user statistics ([calculateTotals] and
       [calculateUserStats] of [index.ts])

    Both take the array [processRepos] returned, in which every slot is
    filled when [processRepos] returns; so the input is a list of records. *)

Record Totals := mkTotals {
  total_commits : nat;
  total_linesAdded : Z;
  total_linesDeleted : Z;
  total_totalLines : Z;
  total_pullRequests : nat;
  total_contributors : nat;
  total_issuesCreated : nat;
  total_issuesClosed : nat;
  total_releases : nat;
  repoCount : nat
}.

Record TotalStats := mkTotalStats {
  ts_repos : list RepoStats;
  ts_totals : Totals
}.

(** [for (const contributor of repo.contributorsList)
       uniqueContributors.add(contributor)] *)
Definition addContributors (uniqueContributors : list string) (repo : RepoStats)
  : list string :=
  foldl (fun unique contributor => setAdd contributor unique)
        uniqueContributors (contributorsList repo).

(** The reducer of [calculateTotals], with the set it updates on the side
    carried along. *)
Definition addRepo (st : Totals * list string) (repo : RepoStats)
  : Totals * list string :=
  let '(acc, uniqueContributors) := st in
  (mkTotals (total_commits acc + commits repo)
            (total_linesAdded acc + linesAdded repo)
            (total_linesDeleted acc + linesDeleted repo)
            (total_totalLines acc + totalLines repo)
            (total_pullRequests acc + pullRequests repo)
            0 0 0
            (total_releases acc + releases repo)
            (repoCount acc + 1),
   addContributors uniqueContributors repo).

Definition calculateTotals (repos : list RepoStats) : TotalStats :=
  let '(totals, uniqueContributors) :=
    foldl addRepo (mkTotals 0 0 0 0 0 0 0 0 0 0, []) repos in
  mkTotalStats repos
    (mkTotals (total_commits totals) (total_linesAdded totals)
              (total_linesDeleted totals) (total_totalLines totals)
              (total_pullRequests totals)
              (length uniqueContributors)
              (total_issuesCreated totals) (total_issuesClosed totals)
              (total_releases totals) (repoCount totals)).

Record UserStats := mkUserStats {
  username : string;
  user_commits : nat;
  user_linesAdded : Z;
  user_linesDeleted : Z;
  user_pullRequests : nat;
  user_repos : list string
}.

(** The [Map] from user names to their records, in insertion order.
    [if (!userMap.has(contributor)) userMap.set(contributor, {...})]: *)
Definition ensureUser (contributor : string) (userMap : list UserStats)
  : list UserStats :=
  if bool_decide (contributor ∈ map username userMap) then userMap
  else userMap ++ [mkUserStats contributor 0 0 0 0 []].

(** [userMap.get(contributor)!.repos.push(repoName)] *)
Fixpoint pushRepo (contributor repoName : string) (userMap : list UserStats)
  : list UserStats :=
  match userMap with
  | [] => []
  | user :: rest =>
      if String.eqb (username user) contributor
      then mkUserStats (username user) (user_commits user) (user_linesAdded user)
             (user_linesDeleted user) (user_pullRequests user)
             (user_repos user ++ [repoName]) :: rest
      else user :: pushRepo contributor repoName rest
  end.

Definition calculateUserStats (repos : list RepoStats) : list UserStats :=
  foldl (fun userMap repo =>
           foldl (fun userMap contributor =>
                    pushRepo contributor (rs_name repo)
                             (ensureUser contributor userMap))
                 userMap (contributorsList repo))
        [] repos.

(** ** Command-line arguments ([parseArgs] of [index.ts]) *)

Module Cli.

Record CliOptions := mkCliOptions {
  configPath : option string;
  startDate : option string;
  endDate : option string;
  format : string;
  outputFile : option string;
  dryRun : bool;
  byUser : bool;
  compare : option (string * string * string * string)
}.

(** What becomes of the process: [process.exit(code)] inside the loop, or
    the options returned. *)
Inductive Parsed :=
| Exit (code : Z)
| Options (options : CliOptions).

Definition validFormats : list string := ["table"; "json"; "csv"; "markdown"].

(** [options.configPath = value] and the like. *)
Definition setConfigPath (value : option string) (options : CliOptions) :=
  mkCliOptions value (startDate options) (endDate options) (format options)
    (outputFile options) (dryRun options) (byUser options) (compare options).

Definition setStartDate (value : option string) (options : CliOptions) :=
  mkCliOptions (configPath options) value (endDate options) (format options)
    (outputFile options) (dryRun options) (byUser options) (compare options).

Definition setEndDate (value : option string) (options : CliOptions) :=
  mkCliOptions (configPath options) (startDate options) value (format options)
    (outputFile options) (dryRun options) (byUser options) (compare options).

Definition setFormat (value : string) (options : CliOptions) :=
  mkCliOptions (configPath options) (startDate options) (endDate options) value
    (outputFile options) (dryRun options) (byUser options) (compare options).

Definition setOutputFile (value : option string) (options : CliOptions) :=
  mkCliOptions (configPath options) (startDate options) (endDate options)
    (format options) value (dryRun options) (byUser options) (compare options).

Definition setDryRun (options : CliOptions) :=
  mkCliOptions (configPath options) (startDate options) (endDate options)
    (format options) (outputFile options) true (byUser options) (compare options).

Definition setByUser (options : CliOptions) :=
  mkCliOptions (configPath options) (startDate options) (endDate options)
    (format options) (outputFile options) (dryRun options) true (compare options).

Definition setCompare (value : string * string * string * string)
    (options : CliOptions) :=
  mkCliOptions (configPath options) (startDate options) (endDate options)
    (format options) (outputFile options) (dryRun options) (byUser options)
    (Some value).

(** The loop [for (let i = 0; i < args.length; i++)] from position [i] on,
    [args] being what is left from there.  [args[++i]] is the next argument,
    or [undefined] when there is none, and then the loop is at its end. *)
Fixpoint parseFrom (options : CliOptions) (args : list string) : Parsed :=
  match args with
  | [] => Options options
  | arg :: rest =>
      if String.eqb arg "--config" then
        match rest with
        | value :: rest' => parseFrom (setConfigPath (Some value) options) rest'
        | [] => Options (setConfigPath None options)
        end
      else if String.eqb arg "--start" then
        match rest with
        | value :: rest' => parseFrom (setStartDate (Some value) options) rest'
        | [] => Options (setStartDate None options)
        end
      else if String.eqb arg "--end" then
        match rest with
        | value :: rest' => parseFrom (setEndDate (Some value) options) rest'
        | [] => Options (setEndDate None options)
        end
      else if String.eqb arg "--format" then
        match rest with
        | format :: rest' =>
            if bool_decide (format ∈ validFormats)
            then parseFrom (setFormat format options) rest'
            else Exit 1
        | [] => Exit 1
        end
      else if String.eqb arg "--output" || String.eqb arg "-o" then
        match rest with
        | value :: rest' => parseFrom (setOutputFile (Some value) options) rest'
        | [] => Options (setOutputFile None options)
        end
      else if String.eqb arg "--dry-run" then parseFrom (setDryRun options) rest
      else if String.eqb arg "--by-user" then parseFrom (setByUser options) rest
      else if String.eqb arg "--compare" then
        match rest with
        | start1 :: end1 :: start2 :: end2 :: rest4 =>
            if truthy start1 && truthy end1 && truthy start2 && truthy end2
            then parseFrom (setCompare (start1, end1, start2, end2) options) rest4
            else Exit 1
        | _ => Exit 1
        end
      else if String.eqb arg "--help" then Exit 0
      else parseFrom options rest
  end.

Definition parseArgs (args : list string) : Parsed :=
  parseFrom (mkCliOptions None None None "table" None false false None) args.

End Cli.

(** ** CSV fields ([escapeCsvField] of [formatters.ts]) *)

Definition dquote : ascii := "034"%char.
Definition newline : ascii := "010"%char.

(** The [field.replace] of [escapeCsvField]: every double quote of the
    field becomes two. *)
Fixpoint doubleQuotes (field : string) : string :=
  match field with
  | EmptyString => EmptyString
  | String c rest =>
      if Ascii.eqb c dquote then String dquote (String dquote (doubleQuotes rest))
      else String c (doubleQuotes rest)
  end.

Definition escapeCsvField (field : string) : string :=
  if Str.includes field "," ||
     Str.includes field (String dquote EmptyString) ||
     Str.includes field (String newline EmptyString)
  then String dquote (doubleQuotes field ++ String dquote EmptyString)
  else field.

(** ** A reference remote

    Statements about repositories ("no commit before the range", "pull
    requests in descending order") speak of what the hosted API holds, which
    the client only consumes, so they need a remote to be stated against.
    [Remote] is such a one: a site of repositories, each with one branch of
    commits, newest first, its pull requests and releases, newest first, and
    a comparison table.  Listings are filtered by the [since]/[until] window
    and cut into pages of [per_page], [page] counting from 1; the [sha] and
    [base] parameters are not looked at.  An unknown repository is a 404, a
    repository without commits a 409 for commit listings, an unknown commit a
    422.  [outage] lets single requests be rejected; every answer carries
    the quota headers, and every request uses up one unit of quota. *)
Module Remote.

Record Commit := mkCommit {
  listed : CommitItem;
  date : Z;
  detail : CommitDetail
}.

Record Repository := mkRepository {
  branch : string;
  history : list Commit;
  pulls : list PullItem;
  releaseList : list ReleaseItem;
  issues : list IssueItem;
  diff : string -> string -> Comparison
}.

Record Site := mkSite {
  repository : string -> option Repository;
  outage : forall T, Request T -> option ErrorObj
}.

Record Clock := mkClock {
  now : Z;
  quotaLeft : Z;
  quotaReset : Z
}.

Definition pageOf {A} (per_page page : nat) (l : list A) : list A :=
  take per_page (drop ((page - 1) * per_page) l).

Definition inWindow (since until : option Z) (c : Commit) : bool :=
  match since with Some t => (t <=? date c)%Z | None => true end &&
  match until with Some t => (date c <=? t)%Z | None => true end.

Definition notFound : ErrorObj := mkError "Not Found" (Some 404%Z).
Definition emptyRepository : ErrorObj :=
  mkError "Git Repository is empty." (Some 409%Z).
Definition noSuchCommit : ErrorObj :=
  mkError "No commit found for SHA" (Some 422%Z).

Definition inRepo {T} (site : Site) (repo : string)
    (k : Repository -> ErrorObj + T) : ErrorObj + T :=
  match repository site repo with
  | Some r => k r
  | None => inl notFound
  end.

Definition payload (site : Site) {T} (req : Request T) : ErrorObj + T :=
  match outage site req with
  | Some e => inl e
  | None =>
      match req in Request T return ErrorObj + T with
      | ReposGet _ repo =>
          inRepo site repo (fun r => inr (Build_RepoMeta (branch r)))
      | ReposListCommits p =>
          inRepo site (lc_repo p) (fun r =>
            match history r with
            | [] => inl emptyRepository
            | _ =>
                inr (map listed
                       (pageOf (lc_per_page p) (default 1 (lc_page p))
                          (List.filter (inWindow (lc_since p) (lc_until p))
                             (history r))))
            end)
      | ReposGetCommit _ repo ref =>
          inRepo site repo (fun r =>
            match List.find (fun c => String.eqb (sha (listed c)) ref) (history r) with
            | Some c => inr (detail c)
            | None => inl noSuchCommit
            end)
      | ReposCompareCommits _ repo base head =>
          inRepo site repo (fun r => inr (diff r base head))
      | PullsList _ repo _ per_page page =>
          inRepo site repo (fun r => inr (pageOf per_page page (pulls r)))
      | IssuesListForRepo _ repo _ per_page page =>
          inRepo site repo (fun r => inr (pageOf per_page page (issues r)))
      | ReposListReleases _ repo per_page page =>
          inRepo site repo (fun r => inr (pageOf per_page page (releaseList r)))
      end
  end.

Definition serve (site : Site) T (req : Request T) (clk : Clock)
  : Reply T * Clock :=
  let left := (quotaLeft clk - 1)%Z in
  (match payload site req with
   | inr d => Resolved (mkResponse d (mkHeaders (Some left) (Some (quotaReset clk))))
   | inl e => Rejected e
   end,
   mkClock (now clk) left (quotaReset clk)).

Definition octokit (site : Site) : Octokit Clock := {|
  send := serve site;
  date_now := now;
  set_timeout := fun ms clk => mkClock (now clk + ms)%Z (quotaLeft clk) (quotaReset clk)
|}.

(** A site where nothing is out of order. *)
Definition healthy (repository : string -> option Repository) : Site :=
  mkSite repository (fun _ _ => None).

(** A client that has just been constructed. *)
Definition fresh (clk : Clock) : State Clock := mkState 5000 0 ∅ clk [].

End Remote.

(** * The vocabulary of the statements *)

(** ** Journals *)

(** The number of requests in a journal. *)
Definition calls (j : list Event) : nat :=
  length (List.filter (fun ev => match ev with Called _ _ => true | Slept _ => false end) j).

(** The requests of a journal, sleeps left out. *)
Definition requests (j : list Event) : list Event :=
  List.filter (fun ev => match ev with Called _ _ => true | Slept _ => false end) j.

(** The rejection a journal entry records, if any. *)
Definition failureOf (ev : Event) : option ErrorObj :=
  match ev with
  | Called _ rej => rej
  | Slept _ => None
  end.

(** The error carries an HTTP status of 404, 409 or 422. *)
Definition emptyHistory (e : ErrorObj) : bool :=
  match status e with
  | Some st => emptyRepoStatus st
  | None => false
  end.

(** No failure, or one that is retryable or says "empty history". *)
Definition mild (ev : Event) : Prop :=
  forall e, failureOf ev = Some e ->
    isRetryableError e = true \/ emptyHistory e = true.

(** No failure, or a retryable one. *)
Definition transient (ev : Event) : Prop :=
  forall e, failureOf ev = Some e -> isRetryableError e = true.

Definition isReleaseCall (ev : Event) : Prop :=
  match ev with
  | Called (ReposListReleases _ _ _ _) _ => True
  | _ => False
  end.

Definition isIssueCall (ev : Event) : Prop :=
  match ev with
  | Called (IssuesListForRepo _ _ _ _ _) _ => True
  | _ => False
  end.

(** Mild, or a release listing whatever became of it. *)
Definition excusable (ev : Event) : Prop := mild ev \/ isReleaseCall ev.

(** [error] is the [GitHubApiError] of this repository around the rejection
    that [last] records. *)
Definition wrapped (repoName : string) (error : Thrown) (last : Event) : Prop :=
  exists operationName e,
    error = GitHubApiError repoName operationName e /\ failureOf last = Some e.

(** [error] is such a wrapper for some repository. *)
Definition wrappedFor (error : Thrown) (last : Event) : Prop :=
  exists repo, wrapped repo error last.

Section StateVocabulary.
Context {Env : Type} `{!Octokit Env}.

(** The state after [operation] has been awaited and the transport has left
    the environment as [env']. *)
Definition afterCall {T} (operation : Request T) (rej : option ErrorObj)
    (env' : Env) (s : State Env) : State Env :=
  mkState (rateLimitRemaining s) (rateLimitReset s) (repoBranchCache s)
          env' (journal s ++ [Called operation rej]).

(** The state after a sleep of [ms] milliseconds. *)
Definition afterSleep (ms : Z) (s : State Env) : State Env :=
  mkState (rateLimitRemaining s) (rateLimitReset s) (repoBranchCache s)
          (set_timeout ms (env s)) (journal s ++ [Slept ms]).

End StateVocabulary.

(** ** What a run leaves in the journal

    [tracks calm fatal m]: whatever the state [m] starts in, the journal
    grows by events [evs] such that
    - every event is [calm] when [m] returns (or is cut short by the fuel);
    - when [m] throws [error], every event but the last is [calm] and the
      last one is related to [error] by [fatal]. *)

Section TrackingVocabulary.
Context {Env : Type}.
Variable calm : Event -> Prop.
Variable fatal : Thrown -> Event -> Prop.

Definition verdict {A} (o : Outcome A) (evs : list Event) : Prop :=
  match o with
  | Throw error =>
      exists pre last, evs = pre ++ [last] /\ Forall calm pre /\ fatal error last
  | _ => Forall calm evs
  end.

Definition tracks {A} (m : M Env A) : Prop :=
  forall s, exists evs,
    journal (snd (m s)) = journal s ++ evs /\ verdict (fst (m s)) evs.

(** What [calm] and [fatal] must grant for a request to be sent through
    [withRetry]. *)
Definition provides (repoName operationName : string) {T} (operation : Request T)
  : Prop :=
  calm (Called operation None) /\
  (forall e, isRetryableError e = true -> calm (Called operation (Some e))) /\
  (forall e, fatal (GitHubApiError repoName operationName e)
                   (Called operation (Some e))).

End TrackingVocabulary.

(** The events do not end with a rejected request. *)
Definition goesOn (evs : list Event) : Prop :=
  forall pre last, evs = pre ++ [last] -> failureOf last = None.

(** [resumes m]: when [m] throws, the error has no status of its own;
    otherwise what [m] added to the journal does not end with a rejected
    request: after every rejection something else was done. *)
Definition resumes {Env A} (m : M Env A) : Prop :=
  forall s, exists evs,
    journal (snd (m s)) = journal s ++ evs /\
    match fst (m s) with
    | Throw error => ownStatus error = None
    | _ => goesOn evs
    end.

(** ** Runs against the reference remote *)

(** The client's transport when the remote is a healthy site. *)
Definition remote_octokit (repository : string -> option Remote.Repository)
  : Octokit Remote.Clock :=
  Remote.octokit (Remote.healthy repository).

(** [yields m Q]: from every state, [m] returns some [a], having sent the
    requests [evs], with [Q a evs]. *)
Definition yields {A} (m : M Remote.Clock A) (Q : A -> list Event -> Prop) : Prop :=
  forall s, exists a s' evs,
    m s = (Return a, s') /\
    requests (journal s') = requests (journal s) ++ evs /\
    Q a evs.

Definition countInRange (start finish : Z) (prs : list PullItem) : nat :=
  length (List.filter (fun pr => inRange start finish (pr_created_at pr)) prs).

Section RemoteVocabulary.
Variable config : Config.
Variable repoName : string.

Definition pullsRequest (targetBranch : string) (page : nat) : Event :=
  Called (PullsList (organization config) repoName targetBranch
            (pageSize config) page) None.

(** The commit is dated inside the range. *)
Definition inside (c : Remote.Commit) : Prop :=
  (rangeStart config <= Remote.date c <= rangeEnd config)%Z.

(** The commits dated inside the range, newest first. *)
Definition commitsInRange (r : Remote.Repository) : list Remote.Commit :=
  List.filter
    (Remote.inWindow (Some (rangeStart config)) (Some (rangeEnd config)))
    (Remote.history r).

(** The request for the head commit and the request for the base commit. *)
Definition headRequest (targetBranch : string) : Request (list CommitItem) :=
  ReposListCommits
    (mkListCommits (organization config) repoName targetBranch
       None (Some (rangeEnd config)) 1 None).

Definition baseRequest (targetBranch : string) : Request (list CommitItem) :=
  ReposListCommits
    (mkListCommits (organization config) repoName targetBranch
       None (Some (rangeStart config - 1)%Z) 1 None).

End RemoteVocabulary.

(** ** The batch scheduler *)

Section SchedulerVocabulary.
Context {Env : Type} `{!Octokit Env}.
Variable config : Config.
Variable fuel : nat.

(** [stats] is what some collection of [repo] returned. *)
Definition collected (repo : RepoInfo) (stats : RepoStats) : Prop :=
  exists s1 s2 : State Env, getRepoStats config fuel repo s1 = (Return stats, s2).

Definition settles (repo : RepoInfo) : Prop :=
  forall s : State Env, exists stats s',
    getRepoStats config fuel repo s = (Return stats, s').

(** The collections of the repositories at the given positions of [repos],
    run one after the other; each result comes with its position.  A
    position outside [repos] is passed over. *)
Fixpoint collectAt (repos : list RepoInfo) (positions : list nat)
  : M Env (list (nat * RepoStats)) :=
  match positions with
  | [] => ret []
  | i :: rest =>
      match repos !! i with
      | Some repo =>
          stats <- getRepoStats config fuel repo ;;
          runs <- collectAt repos rest ;;
          ret ((i, stats) :: runs)
      | None => collectAt repos rest
      end
  end.

End SchedulerVocabulary.

(** The number of batches a list of [n] repositories is cut into. *)
Definition batchCount (n concurrency : nat) : nat :=
  (n + concurrency - 1) / concurrency.

(** The positions of the input at which the collections of batch [j] settle,
    in the order in which they settle. *)
Definition turnOf (completion : nat -> list nat) (concurrency j : nat) : list nat :=
  map (fun b => j * concurrency + b) (completion (j * concurrency)).

(** The same for the batches [batches], one batch after the other. *)
Definition scheduleOf (completion : nat -> list nat) (concurrency : nat)
    (batches : list nat) : list nat :=
  flat_map (turnOf completion concurrency) batches.

(** The positions of an input of [n] repositories in the order in which
    their collections settle. *)
Definition schedule (completion : nat -> list nat) (n concurrency : nat) : list nat :=
  scheduleOf completion concurrency (seq 0 (batchCount n concurrency)).

(** ** Concrete remotes and configurations *)
Module Fixtures.
Import Remote.

Definition clk : Clock := mkClock 1700000000000 5000 1700003600.

(** A repository of two commits: the root adds 10 lines and deletes 2, the
    second commit adds 7 and deletes 1. *)
Definition rootCommit : Commit :=
  mkCommit (mkCommitItem "aaa" (Some "bob") None) 150
           (mkCommitDetail (Some []) (Some (mkLineStats (Some 10%Z) (Some 2%Z)))).

Definition secondCommit : Commit :=
  mkCommit (mkCommitItem "bbb" None (Some "al@example.org")) 160
           (mkCommitDetail (Some ["aaa"]) (Some (mkLineStats (Some 7%Z) (Some 1%Z)))).

(** Pull requests created at 500 > 400 > 300 > 200 > 100, and an older one. *)
Definition alpha : Repository :=
  mkRepository "main" [secondCommit; rootCommit]
    (map Build_PullItem [500; 400; 300; 200; 100; 50]%Z)
    [mkRelease (Some 155%Z) 154%Z] []
    (fun _ _ => Build_Comparison (Some [mkLineStats (Some 7%Z) (Some 1%Z)])).

(** Every name is hosted and holds the same data, except ["ghost"]. *)
Definition hosting (repo : string) : option Repository :=
  if String.eqb repo "ghost" then None else Some alpha.

Definition github : Octokit Clock := octokit (healthy hosting).

(** The same site with the release listing failing with a 500. *)
Definition serverError : ErrorObj := mkError "Internal Server Error" (Some 500%Z).

Definition noReleases : Site :=
  mkSite hosting
    (fun T req =>
       match req with
       | ReposListReleases _ _ _ _ => Some serverError
       | _ => None
       end).

(** A site that answers every request with a 503. *)
Definition unavailable : ErrorObj := mkError "Service Unavailable" (Some 503%Z).

Definition down : Site := mkSite hosting (fun _ _ => Some unavailable).

(** The range covers both commits. *)
Definition covering : Config := mkConfig "org" 100 200 2 false 0.
(** The same range with line statistics switched off. *)
Definition skipping : Config := mkConfig "org" 100 200 2 true 0.
(** The same range with one item per page. *)
Definition onePerPage : Config := mkConfig "org" 100 200 2 false 1.
(** A range after both commits. *)
Definition later : Config := mkConfig "org" 1000 2000 2 false 0.
(** The range [200, 400] of the pull-request scenario, two items per page. *)
Definition pullWindow : Config := mkConfig "org" 200 400 2 false 2.

Definition fetchMeta : Request RepoMeta := ReposGet "org" "alpha".

(** A repository of 101 commits, one more than a page of the default size
    holds.  Commit [k] is dated [100 + k] and has commit [k - 1] as its
    parent; commit 1 is the root, which adds 10 lines and deletes 2.  Any two
    commits differ by 100 added lines. *)
Definition shaOf (k : nat) : string :=
  String (ascii_of_nat (97 + k / 26))
    (String (ascii_of_nat (97 + k mod 26)) EmptyString).

Definition numbered (k : nat) : Commit :=
  mkCommit (mkCommitItem (shaOf k) (Some "bob") None) (100 + Z.of_nat k)
    (mkCommitDetail
       (Some (if k =? 1 then [] else [shaOf (k - 1)]))
       (Some (if k =? 1 then mkLineStats (Some 10%Z) (Some 2%Z)
              else mkLineStats (Some 1%Z) (Some 0%Z)))).

Definition long : Repository :=
  mkRepository "main" (map numbered (rev (seq 1 101))) [] [] []
    (fun _ _ => Build_Comparison (Some [mkLineStats (Some 100%Z) (Some 0%Z)])).

Definition archive (repo : string) : option Repository :=
  if String.eqb repo "long" then Some long else None.

(** A range that covers the 101 commits, with the default page size. *)
Definition wide : Config := mkConfig "org" 100 300 2 false 0.

(** Input [A, B, C, D], two at a time, the second of each pair settling
    before the first. *)
Definition fourRepos : list RepoInfo :=
  [mkRepoInfo "A" false; mkRepoInfo "B" true; mkRepoInfo "C" false; mkRepoInfo "D" false].

Definition lastFirst (i : nat) : list nat :=
  rev (seq 0 (length (batchAt fourRepos 2 i))).

End Fixtures.

(** ** Further vocabulary *)

(** The event is an attempt at [operation], or a sleep of at least one
    second and less than one hour. *)
Definition attemptOf {T} (operation : Request T) (ev : Event) : Prop :=
  match ev with
  | Called _ _ => exists rej, ev = Called operation rej
  | Slept ms => (1000 <= ms < 3600000)%Z
  end.

(** [ensures m Q]: whenever [m] returns, what it returns satisfies [Q]. *)
Definition ensures {Env A} (m : M Env A) (Q : A -> Prop) : Prop :=
  forall s, match fst (m s) with Return a => Q a | _ => True end.

(** A list of identities as a [Set] of strings holds it: no duplicates, and
    no empty string. *)
Definition identities (l : list string) : Prop :=
  NoDup l /\ Forall (fun a => truthy a = true) l.

(** The identity [getContributors] takes from a listed commit:
    [commit.author?.login || commit.commit.author?.email], when it is a
    non-empty string. *)
Definition authorOf (commit : CommitItem) : option string :=
  match author_login commit with
  | Some login => Some login
  | None => commit_author_email commit
  end.

(** The issue is not a pull request and was created inside the range. *)
Definition issueCreatedIn (start finish : Z) (issue : IssueItem) : bool :=
  negb (pull_request issue) && inRange start finish (issue_created_at issue).

(** The issue is not a pull request and was closed inside the range. *)
Definition issueClosedIn (start finish : Z) (issue : IssueItem) : bool :=
  negb (pull_request issue) &&
  match closed_at issue with
  | Some closedAt => inRange start finish closedAt
  | None => false
  end.

(** [fails m error evs]: from every state, [m] throws [error], having sent
    the requests [evs] and left the branch cache alone. *)
Definition fails {A} (m : M Remote.Clock A) (error : Thrown) (evs : list Event)
  : Prop :=
  forall s, exists s',
    m s = (Throw error, s') /\
    requests (journal s') = requests (journal s) ++ evs /\
    repoBranchCache s' = repoBranchCache s.

(** The repository passes the include and exclude filters: it is on the
    include list when that list is not empty, and not on the exclude list. *)
Definition kept (includeRepos excludeRepos : list string) (repo : OrgRepo) : bool :=
  (match includeRepos with
   | [] => true
   | _ => bool_decide (or_name repo ∈ includeRepos)
   end) &&
  negb (bool_decide (or_name repo ∈ excludeRepos)).

(** The entry [getOrgRepos] makes of a listed repository. *)
Definition toRepoInfo (repo : OrgRepo) : RepoInfo :=
  mkRepoInfo (or_name repo) (default false (or_archived repo)).

(** The sum of a list of integers. *)
Definition sumZ (l : list Z) : Z := foldr Z.add 0%Z l.

(** Every contributor entry of every repository, in the order of the
    input. *)
Definition allContributors (repos : list RepoStats) : list string :=
  concat (map contributorsList repos).

(** The names of the repositories that list [user], in the order of the
    input, one for each time the repository lists them. *)
Definition reposOf (user : string) (repos : list RepoStats) : list string :=
  flat_map (fun repo =>
              map (fun _ => rs_name repo)
                  (List.filter (String.eqb user) (contributorsList repo)))
           repos.

(** The distinct entries of a list, in the order of their first
    occurrence. *)
Definition distinct (l : list string) : list string :=
  foldl (fun unique x => setAdd x unique) [] l.

(** The pairs of a contributor and a repository name that the two loops of
    [calculateUserStats] go through, in that order. *)
Definition visits (repos : list RepoStats) : list (string * string) :=
  flat_map (fun repo => map (fun c => (c, rs_name repo)) (contributorsList repo))
           repos.

(** What one turn of the inner loop does to the map. *)
Definition visit (userMap : list UserStats) (v : string * string) : list UserStats :=
  pushRepo (fst v) (snd v) (ensureUser (fst v) userMap).

(** The record of a user after the visits [vs]. *)
Definition userAfter (vs : list (string * string)) (user : string) : UserStats :=
  mkUserStats user 0 0 0 0
    (map snd (List.filter (fun v => String.eqb user (fst v)) vs)).

(** The options are acceptable to the rest of [main]: the format is one of
    the four, and a comparison has four non-empty dates. *)
Definition wellFormed (options : Cli.CliOptions) : Prop :=
  Cli.format options ∈ Cli.validFormats /\
  forall start1 end1 start2 end2,
    Cli.compare options = Some (start1, end1, start2, end2) ->
    start1 <> "" /\ end1 <> "" /\ start2 <> "" /\ end2 <> "".

(** The date [getReleaseCount] goes by: [published_at], or [created_at] for
    a release that has none. *)
Definition effectiveDate (release : ReleaseItem) : Z :=
  default (rel_created_at release) (published_at release).

Definition releasesInRange (start finish : Z) (rels : list ReleaseItem) : nat :=
  length (List.filter (fun release => inRange start finish (effectiveDate release)) rels).

(** The additions and the deletions of a list of files, a missing figure
    counting as 0. *)
Definition fileTotals (fs : list LineStats) : Lines :=
  mkLines (sumZ (map (fun file => default 0%Z (additions file)) fs))
          (sumZ (map (fun file => default 0%Z (deletions file)) fs)).

(** ** Further remotes and inputs *)
Module Samples.
Import Remote Fixtures.

(** A transport that rejects the first request it sees with a 503 and
    answers like [github] from then on; its environment counts the requests. *)
Definition flaky : Octokit nat := {|
  send := fun T (req : Request T) (n : nat) =>
    (match n with
     | O => Rejected unavailable
     | S _ =>
         match payload (healthy hosting) req with
         | inr d => Resolved (mkResponse d (mkHeaders (Some 4000%Z) None))
         | inl e => Rejected e
         end
     end, S n);
  date_now := fun _ => 0%Z;
  set_timeout := fun _ n => n
|}.

Definition started : State nat := mkState 5000 0 ∅ 0 [].

(** A repository with issues and releases: three issues, one of them a pull
    request, and three releases, the second without a publication date. *)
Definition beta : Repository :=
  mkRepository "main" [secondCommit; rootCommit] []
    [mkRelease (Some 190%Z) 180%Z; mkRelease None 120%Z; mkRelease (Some 90%Z) 80%Z]
    [mkIssue false 150 (Some 180%Z); mkIssue true 160 None;
     mkIssue false 50 (Some 150%Z)]
    (fun _ _ => Build_Comparison None).

(** A repository that exists and has no commit yet. *)
Definition hollow : Repository :=
  mkRepository "main" [] (map Build_PullItem [150]%Z) [] []
    (fun _ _ => Build_Comparison None).

Definition hosting2 (repo : string) : option Repository :=
  if String.eqb repo "beta" then Some beta
  else if String.eqb repo "hollow" then Some hollow
  else hosting repo.

(** A range that starts between the two commits of [alpha]. *)
Definition fromSecond : Config := mkConfig "org" 155 200 2 false 0.

(** An organisation of five repositories, listed two to a page. *)
Definition orgListing : list OrgRepo :=
  [mkOrgRepo "a" (Some false); mkOrgRepo "b" (Some true); mkOrgRepo "c" None;
   mkOrgRepo "d" (Some true); mkOrgRepo "e" (Some false)].

Definition listPages (page : nat) : M unit (Response (list OrgRepo)) :=
  fun s => (Return (mkResponse (pageOf 2 page orgListing) (mkHeaders None None)), s).

(** Two records with a contributor in common. *)
Definition statsA : RepoStats :=
  mkRepoStats "A" false 3 10 4 6 2 2 ["ann"; "bob"] 0 0 1.

Definition statsB : RepoStats :=
  mkRepoStats "B" true 5 7 1 6 0 2 ["bob"; "cy"] 0 0 0.

(** What [getRepoStats] returns for [alpha] and [beta] over the range that
    covers both commits. *)
Definition alphaStats : RepoStats :=
  mkRepoStats "alpha" false 2 10 2 8 2 2 ["al@example.org"; "bob"] 0 0 1.

Definition betaStats : RepoStats :=
  mkRepoStats "beta" true 2 10 2 8 0 2 ["al@example.org"; "bob"] 0 0 2.

End Samples.

(** * Properties *)

(** ** Sequencing *)

Section MonadFacts.
Context {Env : Type}.

Lemma bind_return {A B} (m : M Env A) (f : A -> M Env B) s a s' :
  m s = (Return a, s') -> bind m f s = f a s'.
Proof. intros E. unfold bind. now rewrite E. Qed.

Lemma bind_throw {A B} (m : M Env A) (f : A -> M Env B) s error s' :
  m s = (Throw error, s') -> bind m f s = (Throw error, s').
Proof. intros E. unfold bind. now rewrite E. Qed.

Lemma bind_unfinished {A B} (m : M Env A) (f : A -> M Env B) s s' :
  m s = (Unfinished, s') -> bind m f s = (Unfinished, s').
Proof. intros E. unfold bind. now rewrite E. Qed.

Lemma tryCatch_return {A} (m : M Env A) handler s a s' :
  m s = (Return a, s') -> tryCatch m handler s = (Return a, s').
Proof. intros E. unfold tryCatch. now rewrite E. Qed.

Lemma tryCatch_throw {A} (m : M Env A) handler s error s' :
  m s = (Throw error, s') -> tryCatch m handler s = handler error s'.
Proof. intros E. unfold tryCatch. now rewrite E. Qed.

Lemma tryCatch_unfinished {A} (m : M Env A) handler s s' :
  m s = (Unfinished, s') -> tryCatch m handler s = (Unfinished, s').
Proof. intros E. unfold tryCatch. now rewrite E. Qed.

End MonadFacts.

(** ** Throttling, retrying and backing off *)

Section RetryFacts.
Context {Env : Type} `{!Octokit Env}.

Lemma await_rejected {T} (operation : Request T) s error env' :
  send operation (env s) = (Rejected error, env') ->
  await operation s = (Return (Rejected error), afterCall operation (Some error) env' s).
Proof. intros E. unfold await. now rewrite E. Qed.

Lemma await_resolved {T} (operation : Request T) s r env' :
  send operation (env s) = (Resolved r, env') ->
  await operation s = (Return (Resolved r), afterCall operation None env' s).
Proof. intros E. unfold await. now rewrite E. Qed.

(** A retryable rejection before the last attempt: sleep, then go round. *)
Lemma attemptLoop_retry {T} (operation : Request T) repoName operationName
    remaining attempt lastError s error env' :
  send operation (env s) = (Rejected error, env') ->
  isRetryableError error = true ->
  attempt <> MAX_RETRIES ->
  attemptLoop (S remaining) attempt lastError operation repoName operationName s =
  attemptLoop remaining (S attempt) (Some error) operation repoName operationName
    (afterSleep (delayMs attempt error) (afterCall operation (Some error) env' s)).
Proof.
  intros E R N. cbn [attemptLoop].
  rewrite (bind_return _ _ _ (await_rejected _ _ E)).
  rewrite R. apply Nat.eqb_neq in N. rewrite N. reflexivity.
Qed.

(** A rejection that is not retryable, or the last attempt: wrap and throw. *)
Lemma attemptLoop_throw {T} (operation : Request T) repoName operationName
    remaining attempt lastError s error env' :
  send operation (env s) = (Rejected error, env') ->
  isRetryableError error = false \/ attempt = MAX_RETRIES ->
  attemptLoop (S remaining) attempt lastError operation repoName operationName s =
  (Throw (GitHubApiError repoName operationName error),
   afterCall operation (Some error) env' s).
Proof.
  intros E C. cbn [attemptLoop].
  rewrite (bind_return _ _ _ (await_rejected _ _ E)).
  destruct C as [C | C].
  - rewrite C. reflexivity.
  - apply Nat.eqb_eq in C. rewrite C, orb_true_r. reflexivity.
Qed.

Lemma attemptLoop_resolved {T} (operation : Request T) repoName operationName
    remaining attempt lastError s r env' :
  send operation (env s) = (Resolved r, env') ->
  attemptLoop (S remaining) attempt lastError operation repoName operationName s =
  (Return r,
   mkState (default (rateLimitRemaining s) (x_ratelimit_remaining (headers r)))
           (default (rateLimitReset s) (x_ratelimit_reset (headers r)))
           (repoBranchCache s) env' (journal s ++ [Called operation None])).
Proof.
  intros E. cbn [attemptLoop].
  rewrite (bind_return _ _ _ (await_resolved _ _ E)). reflexivity.
Qed.

Lemma checkRateLimit_returns repoName (s : State Env) :
  fst (checkRateLimit repoName s) = Return tt.
Proof.
  unfold checkRateLimit.
  destruct (_ <? 100)%Z; [|reflexivity].
  destruct (_ && _); reflexivity.
Qed.

Lemma withRetry_unfold {T} (operation : Request T) repoName operationName s :
  withRetry operation repoName operationName s =
  attemptLoop 3 1 None operation repoName operationName
              (snd (checkRateLimit repoName s)).
Proof.
  unfold withRetry, bind.
  pose proof (checkRateLimit_returns repoName s) as E.
  destruct (checkRateLimit repoName s) as [o s']. simpl in *. now subst.
Qed.

(** C9. The throttle check acts exactly when fewer than 100 requests remain:
    the wait it computes is [max(0, reset - now) + 5] seconds, [now] being the
    clock in whole seconds; the client sleeps that long when the wait is below
    3600 seconds and goes on without sleeping when it is 3600 or more.  With
    50 requests left and a reset 10 seconds ahead the sleep is 15 seconds. *)
Theorem checkRateLimit_throttle (repoName : string) :
  (forall s : State Env,
     let now := (date_now (env s) / 1000)%Z in
     let wait := (Z.max 0 (rateLimitReset s - now) + 5)%Z in
     checkRateLimit repoName s =
       if decide (rateLimitRemaining s < 100 /\ wait < 3600)%Z
       then (Return tt, afterSleep (wait * 1000) s)
       else (Return tt, s)) /\
  (forall cache e j,
     checkRateLimit repoName (mkState 50 (date_now e / 1000 + 10) cache e j) =
       (Return tt, mkState 50 (date_now e / 1000 + 10)%Z cache
                           (set_timeout 15000 e) (j ++ [Slept 15000]))).
Proof.
  split.
  - intros s now wait. unfold checkRateLimit. fold now. fold wait.
    destruct (Z.ltb_spec (rateLimitRemaining s) 100) as [L | L].
    + assert (0 < wait)%Z as P by (unfold wait; lia).
      apply Z.ltb_lt in P. rewrite P. cbn [andb].
      destruct (Z.ltb_spec wait 3600) as [W | W].
      * rewrite decide_True by auto. reflexivity.
      * rewrite decide_False by lia. reflexivity.
    + rewrite decide_False by lia. reflexivity.
  - intros cache e j. unfold checkRateLimit. cbn [rateLimitRemaining rateLimitReset env].
    replace (Z.max 0 (date_now e / 1000 + 10 - date_now e / 1000) + 5)%Z
      with 15%Z by lia.
    reflexivity.
Qed.

(** C6. On a retryable rejection at attempt [a], when it is not the last
    attempt, [withRetry]'s loop sleeps [1000 * 2^(a-1)] milliseconds, or the
    larger of that and 60000 when the rejection has status 403, and goes on
    to attempt [a + 1]. *)
Theorem retry_backoff {T} (operation : Request T) repoName operationName
    remaining a lastError s error env' :
  send operation (env s) = (Rejected error, env') ->
  isRetryableError error = true ->
  (1 <= a)%nat -> a <> MAX_RETRIES ->
  let backoff := (1000 * 2 ^ (Z.of_nat a - 1))%Z in
  let delay :=
    if decide (status error = Some 403%Z) then Z.max backoff 60000 else backoff in
  attemptLoop (S remaining) a lastError operation repoName operationName s =
  attemptLoop remaining (S a) (Some error) operation repoName operationName
    (afterSleep delay (afterCall operation (Some error) env' s)).
Proof.
  intros E R _ N backoff delay.
  rewrite (attemptLoop_retry _ _ _ _ _ _ E R N).
  replace (delayMs a error) with delay; [reflexivity|].
  unfold delay, backoff, delayMs, INITIAL_RETRY_DELAY_MS.
  destruct (status error) as [st|].
  - destruct (Z.eqb_spec st 403) as [->|D].
    + rewrite decide_True by reflexivity. reflexivity.
    + rewrite decide_False by congruence. reflexivity.
  - rewrite decide_False by discriminate. reflexivity.
Qed.

(** C5. An operation that is rejected with a retryable error every time is
    attempted three times, with the two backoff sleeps in between, and the
    third rejection is thrown wrapped with the repository and the operation
    name; a rejection that is not retryable is thrown wrapped after the first
    attempt, with no sleep and no second attempt. *)
Theorem withRetry_gives_up {T} (operation : Request T) repoName operationName
    (s : State Env) :
  let s0 := snd (checkRateLimit repoName s) in
  let run := withRetry operation repoName operationName s in
  ((forall e : Env, exists error,
       fst (send operation e) = Rejected error /\ isRetryableError error = true) ->
   exists e1 e2 e3,
     fst run = Throw (GitHubApiError repoName operationName e3) /\
     isRetryableError e3 = true /\
     journal (snd run) =
       journal s0 ++ [Called operation (Some e1); Slept (delayMs 1 e1);
                      Called operation (Some e2); Slept (delayMs 2 e2);
                      Called operation (Some e3)] /\
     calls (journal (snd run)) = calls (journal s0) + 3) /\
  (forall error,
     fst (send operation (env s0)) = Rejected error ->
     isRetryableError error = false ->
     fst run = Throw (GitHubApiError repoName operationName error) /\
     journal (snd run) = journal s0 ++ [Called operation (Some error)] /\
     calls (journal (snd run)) = calls (journal s0) + 1).
Proof.
  intros s0 run. unfold run. rewrite withRetry_unfold. fold s0. split.
  - intros Always.
    destruct (Always (env s0)) as (e1 & E1 & R1).
    destruct (send operation (env s0)) as [r1 env1] eqn:S1. simpl in E1. subst r1.
    rewrite (attemptLoop_retry _ _ _ _ _ _ S1 R1) by (unfold MAX_RETRIES; lia).
    set (s1 := afterSleep _ _).
    destruct (Always (env s1)) as (e2 & E2 & R2).
    destruct (send operation (env s1)) as [r2 env2] eqn:S2. simpl in E2. subst r2.
    rewrite (attemptLoop_retry _ _ _ _ _ _ S2 R2) by (unfold MAX_RETRIES; lia).
    set (s2 := afterSleep _ _).
    destruct (Always (env s2)) as (e3 & E3 & R3).
    destruct (send operation (env s2)) as [r3 env3] eqn:S3. simpl in E3. subst r3.
    rewrite (attemptLoop_throw _ _ _ _ _ _ S3) by (right; reflexivity).
    exists e1, e2, e3. cbn [fst snd]. split; [reflexivity|]. split; [assumption|].
    assert (journal (afterCall operation (Some e3) env3 s2) =
            journal s0 ++ [Called operation (Some e1); Slept (delayMs 1 e1);
                           Called operation (Some e2); Slept (delayMs 2 e2);
                           Called operation (Some e3)]) as J.
    { unfold s2, s1, afterCall, afterSleep. cbn [journal].
      rewrite <- !app_assoc. reflexivity. }
    split; [exact J|].
    rewrite J. unfold calls. rewrite List.filter_app, length_app. reflexivity.
  - intros error E F.
    destruct (send operation (env s0)) as [r1 env1] eqn:S1. simpl in E. subst r1.
    rewrite (attemptLoop_throw _ _ _ _ _ _ S1) by (left; exact F).
    cbn [fst snd]. split; [reflexivity|]. split; [reflexivity|].
    unfold afterCall, calls. cbn [journal].
    rewrite List.filter_app, length_app. reflexivity.
Qed.

End RetryFacts.

(** ** The journal of a run *)

Section Tracking.
Context {Env : Type} `{!Octokit Env}.
Variable calm : Event -> Prop.
Variable fatal : Thrown -> Event -> Prop.

Local Abbreviation verdict := (@verdict calm fatal _).
Local Abbreviation tracks := (@tracks Env calm fatal _).
Local Abbreviation provides := (provides calm fatal).

Lemma verdict_prepend {A} (o : Outcome A) evs1 evs2 :
  Forall calm evs1 -> verdict o evs2 -> verdict o (evs1 ++ evs2).
Proof.
  intros C V. destruct o as [a|error|]; simpl in *.
  - apply Forall_app; auto.
  - destruct V as (pre & last & -> & P & F).
    exists (evs1 ++ pre), last. rewrite app_assoc.
    split; [reflexivity|]. split; [apply Forall_app; auto|assumption].
  - apply Forall_app; auto.
Qed.

Lemma tracks_silent {A} (m : M Env A) :
  (forall s, journal (snd (m s)) = journal s /\
             match fst (m s) with Throw _ => False | _ => True end) ->
  tracks m.
Proof.
  intros H s. exists []. destruct (H s) as [J O]. rewrite J, app_nil_r.
  split; [reflexivity|].
  destruct (fst (m s)); simpl; [constructor|contradiction|constructor].
Qed.

Lemma tracks_ret {A} (a : A) : tracks (ret a).
Proof. apply tracks_silent. intros s. simpl. auto. Qed.

Lemma tracks_unfinished {A} : tracks (@unfinished Env A).
Proof. apply tracks_silent. intros s. simpl. auto. Qed.

Lemma tracks_updateRateLimit h : tracks (updateRateLimit h).
Proof. apply tracks_silent. intros s. simpl. auto. Qed.

Lemma tracks_cacheBranch repoName b : tracks (cacheBranch repoName b).
Proof. apply tracks_silent. intros s. simpl. auto. Qed.

Lemma tracks_bind {A B} (m : M Env A) (f : A -> M Env B) :
  tracks m -> (forall a, tracks (f a)) -> tracks (bind m f).
Proof.
  intros Hm Hf s. destruct (Hm s) as (evs1 & J1 & V1).
  unfold bind. destruct (m s) as [[a|error|] s1]; cbn [fst snd] in *.
  - destruct (Hf a s1) as (evs2 & J2 & V2).
    exists (evs1 ++ evs2). rewrite J2, J1, <- app_assoc.
    split; [reflexivity|]. apply verdict_prepend; assumption.
  - exists evs1. auto.
  - exists evs1. auto.
Qed.

(** A handler that, on every error the body can throw, either rethrows it or
    returns a value when the event that caused the error is [calm]. *)
Lemma tracks_tryCatch {A} (m : M Env A) (handler : Thrown -> M Env A) :
  tracks m ->
  (forall error last, fatal error last ->
     handler error = throw error \/
     ((exists v, handler error = ret v) /\ calm last)) ->
  tracks (tryCatch m handler).
Proof.
  intros Hm Hh s. destruct (Hm s) as (evs & J & V).
  unfold tryCatch. destruct (m s) as [[a|error|] s1]; cbn [fst snd] in *.
  - exists evs. auto.
  - destruct V as (pre & last & -> & P & F).
    destruct (Hh error last F) as [-> | [[v ->] C]]; simpl.
    + exists (pre ++ [last]). split; [assumption|]. exists pre, last. auto.
    + exists (pre ++ [last]). split; [assumption|].
      apply Forall_app. split; [assumption|]. constructor; [assumption|constructor].
  - exists evs. auto.
Qed.

Lemma tracks_whileTrue {St R} fuel (body : St -> M Env (Step St R)) st :
  (forall st, tracks (body st)) -> tracks (whileTrue fuel body st).
Proof.
  intros Hb. revert st. induction fuel as [|fuel IH]; intros st; cbn [whileTrue].
  - apply tracks_unfinished.
  - apply tracks_bind; [apply Hb|].
    intros [st'|r]; [apply IH|apply tracks_ret].
Qed.

Hypothesis calm_sleep : forall ms, calm (Slept ms).

Lemma tracks_sleep ms : tracks (sleep ms).
Proof.
  intros s. exists [Slept ms]. simpl. split; [reflexivity|].
  constructor; [apply calm_sleep|constructor].
Qed.

Lemma tracks_checkRateLimit repoName : tracks (checkRateLimit repoName).
Proof.
  intros s. unfold checkRateLimit.
  destruct (_ <? 100)%Z; [|apply tracks_ret].
  destruct (_ && _); [apply tracks_sleep|apply tracks_ret].
Qed.

Lemma tracks_attemptLoop {T} (operation : Request T) repoName operationName
    remaining attempt lastError :
  provides repoName operationName operation ->
  remaining + attempt = S MAX_RETRIES -> 1 <= remaining ->
  tracks (attemptLoop remaining attempt lastError operation repoName operationName).
Proof.
  intros (C0 & Cr & F).
  revert attempt lastError.
  induction remaining as [|remaining IH]; intros attempt lastError Sum Pos; [lia|].
  intros s.
  destruct (send operation (env s)) as [[r|error] env'] eqn:E.
  - erewrite attemptLoop_resolved by exact E. cbn [fst snd journal].
    exists [Called operation None]. split; [reflexivity|].
    constructor; [assumption|constructor].
  - destruct (isRetryableError error) eqn:R;
      [destruct (Nat.eq_dec attempt MAX_RETRIES) as [Last|More]|].
    + erewrite attemptLoop_throw; [|exact E|right; exact Last].
      cbn [fst snd]. exists [Called operation (Some error)].
      split; [reflexivity|].
      exists [], (Called operation (Some error)). simpl. auto.
    + erewrite attemptLoop_retry; [|exact E|exact R|exact More].
      assert (remaining + S attempt = S MAX_RETRIES) as Sum' by lia.
      assert (1 <= remaining) as Pos' by (unfold MAX_RETRIES in *; lia).
      destruct (IH (S attempt) (Some error) Sum' Pos'
                   (afterSleep (delayMs attempt error)
                      (afterCall operation (Some error) env' s)))
        as (evs & J & V).
      exists ([Called operation (Some error); Slept (delayMs attempt error)] ++ evs).
      split.
      * rewrite J. cbn [journal afterSleep afterCall].
        rewrite <- !app_assoc. reflexivity.
      * apply verdict_prepend; [|exact V].
        constructor; [apply Cr; assumption|].
        constructor; [apply calm_sleep|constructor].
    + erewrite attemptLoop_throw; [|exact E|left; exact R].
      cbn [fst snd]. exists [Called operation (Some error)].
      split; [reflexivity|].
      exists [], (Called operation (Some error)). simpl. auto.
Qed.

Lemma tracks_withRetry {T} (operation : Request T) repoName operationName :
  provides repoName operationName operation ->
  tracks (withRetry operation repoName operationName).
Proof.
  intros A. unfold withRetry.
  apply tracks_bind; [apply tracks_checkRateLimit|].
  intros _. apply tracks_attemptLoop; [assumption|reflexivity|unfold MAX_RETRIES; lia].
Qed.

End Tracking.

Lemma tracks_weaken {Env} (calm calm' : Event -> Prop)
    (fatal fatal' : Thrown -> Event -> Prop) {A} (m : M Env A) :
  (forall ev, calm ev -> calm' ev) ->
  (forall error ev, fatal error ev -> fatal' error ev) ->
  tracks calm fatal m -> tracks calm' fatal' m.
Proof.
  intros Hc Hf Hm s. destruct (Hm s) as (evs & J & V).
  exists evs. split; [assumption|].
  destruct (fst (m s)); simpl in *.
  - eapply Forall_impl; eauto.
  - destruct V as (pre & last & -> & P & F).
    exists pre, last. split; [reflexivity|]. split; [eapply Forall_impl; eauto|auto].
  - eapply Forall_impl; eauto.
Qed.

(** The handler may swap [fatal] for another relation when it rethrows. *)
Lemma tracks_tryCatch_into {Env} (calm : Event -> Prop)
    (fatal fatal' : Thrown -> Event -> Prop) {A}
    (m : M Env A) (handler : Thrown -> M Env A) :
  tracks calm fatal m ->
  (forall error last, fatal error last ->
     (handler error = throw error /\ fatal' error last) \/
     ((exists v, handler error = ret v) /\ calm last)) ->
  tracks calm fatal' (tryCatch m handler).
Proof.
  intros Hm Hh s. destruct (Hm s) as (evs & J & V).
  unfold tryCatch. destruct (m s) as [[a|error|] s1]; cbn [fst snd] in *.
  - exists evs. auto.
  - destruct V as (pre & last & -> & P & F).
    destruct (Hh error last F) as [[-> F'] | [[v ->] C]]; simpl.
    + exists (pre ++ [last]). split; [assumption|]. exists pre, last. auto.
    + exists (pre ++ [last]). split; [assumption|].
      apply Forall_app. split; [assumption|]. constructor; [assumption|constructor].
  - exists evs. auto.
Qed.

Section CollectorTracking.
Context {Env : Type} `{!Octokit Env}.
Variable config : Config.
Variable repoName : string.
Variable calm : Event -> Prop.
Variable fatal : Thrown -> Event -> Prop.

(** The requests [calm] and [fatal] make provision for. *)
Variable uses : forall T, Request T -> Prop.

Hypothesis calm_sleep : forall ms, calm (Slept ms).
Hypothesis provide :
  forall operationName T (operation : Request T),
    uses operation -> provides calm fatal repoName operationName operation.

(** The [catch] blocks that look for a status of 409 or 404 on the error
    itself: either the error has no status of its own, or the event that
    caused it is calm anyway. *)
Hypothesis caught :
  forall error last, fatal error last -> ownStatus error = None \/ calm last.

(** [safe] may turn an empty-repository error into the default value. *)
Hypothesis excused :
  forall error last, fatal error last -> isEmptyRepoError error = true -> calm last.

Ltac track :=
  repeat first
    [ apply tracks_ret
    | apply tracks_updateRateLimit
    | apply tracks_cacheBranch
    | apply tracks_withRetry; [exact calm_sleep | apply provide; solve [auto]]
    | match goal with
      | |- tracks _ _ (bind _ _) => apply tracks_bind; [|intros ?]
      | |- tracks _ _ (match ?x with _ => _ end) => destruct x
      end ].

Lemma statusHandler_ok {A} (codes : Z -> bool) (v : A) error last :
  fatal error last ->
  let handler := fun error : Thrown =>
    match ownStatus error with
    | Some st => if codes st then ret v else throw error
    | None => @throw Env A error
    end in
  handler error = throw error \/ ((exists v, handler error = ret v) /\ calm last).
Proof.
  intros F handler. unfold handler. destruct (caught F) as [-> | C]; [auto|].
  destruct (ownStatus error) as [st|]; [|auto].
  destruct (codes st); [right|left]; eauto.
Qed.

Lemma getDefaultBranch_tracks :
  (forall owner repo, uses (ReposGet owner repo)) ->
  tracks calm fatal (getDefaultBranch config repoName).
Proof.
  intros U s. unfold getDefaultBranch.
  assert (tracks calm fatal
            (response <- withRetry (ReposGet (organization config) repoName)
                                   repoName "fetching default branch" ;;
             updateRateLimit (headers response) ;;;
             cacheBranch repoName (default_branch (data response)) ;;;
             ret (default_branch (data response)))) as Fetch by track.
  destruct (repoBranchCache s !! repoName) as [cached|]; [|apply Fetch].
  destruct (truthy cached); [apply tracks_ret|apply Fetch].
Qed.

Lemma targetBranchOf_tracks branch :
  (forall owner repo, uses (ReposGet owner repo)) ->
  tracks calm fatal (targetBranchOf config repoName branch).
Proof.
  intros U. destruct branch; [apply tracks_ret|apply getDefaultBranch_tracks, U].
Qed.

Lemma getCommitCount_tracks fuel branch :
  (forall owner repo, uses (ReposGet owner repo)) ->
  (forall p, uses (ReposListCommits p)) ->
  tracks calm fatal (getCommitCount config fuel repoName branch).
Proof.
  intros U1 U2. unfold getCommitCount.
  apply tracks_bind; [apply targetBranchOf_tracks, U1|]. intros targetBranch.
  apply tracks_whileTrue. intros [count page]. cbn [commitCountPage].
  apply tracks_tryCatch.
  - unfold rangeCommits. track.
  - intros error last F.
    apply (statusHandler_ok (fun st => (st =? 409)%Z) (Finish 0) F).
Qed.

Lemma getContributors_tracks fuel branch :
  (forall owner repo, uses (ReposGet owner repo)) ->
  (forall p, uses (ReposListCommits p)) ->
  tracks calm fatal (getContributors config fuel repoName branch).
Proof.
  intros U1 U2. unfold getContributors.
  apply tracks_bind; [apply targetBranchOf_tracks, U1|]. intros targetBranch.
  apply tracks_whileTrue. intros [acc page]. cbn [contributorsPage].
  apply tracks_tryCatch.
  - unfold rangeCommits. track.
  - intros error last F.
    apply (statusHandler_ok (fun st => (st =? 409)%Z) (Finish []) F).
Qed.

Lemma getPullRequestCount_tracks fuel branch :
  (forall owner repo, uses (ReposGet owner repo)) ->
  (forall owner repo base per_page page,
     uses (PullsList owner repo base per_page page)) ->
  tracks calm fatal (getPullRequestCount config fuel repoName branch).
Proof.
  intros U1 U2. unfold getPullRequestCount.
  apply tracks_bind; [apply targetBranchOf_tracks, U1|]. intros targetBranch.
  apply tracks_whileTrue. intros [count page]. cbn [pullRequestPage]. track.
Qed.

Lemma getLinesOfCode_tracks branch :
  (forall owner repo, uses (ReposGet owner repo)) ->
  (forall p, uses (ReposListCommits p)) ->
  (forall owner repo ref, uses (ReposGetCommit owner repo ref)) ->
  (forall owner repo base head, uses (ReposCompareCommits owner repo base head)) ->
  tracks calm fatal (getLinesOfCode config repoName branch).
Proof.
  intros U1 U2 U3 U4. unfold getLinesOfCode.
  destruct (skipLineStats config); [apply tracks_ret|].
  apply tracks_bind; [apply targetBranchOf_tracks, U1|]. intros targetBranch.
  apply tracks_tryCatch.
  - unfold rangeCommits. cbv zeta. track.
  - intros error last F.
    apply (statusHandler_ok (fun st => (st =? 409)%Z || (st =? 404)%Z) zeroLines F).
Qed.

Lemma getIssueStats_tracks fuel :
  (forall owner repo since per_page page,
     uses (IssuesListForRepo owner repo since per_page page)) ->
  tracks calm fatal (getIssueStats config fuel repoName).
Proof.
  intros U. unfold getIssueStats.
  apply tracks_whileTrue. intros [acc page]. cbn [issuesPage]. track.
Qed.

(** [getReleaseCount] catches everything, so it never throws; for its run to
    be tracked every release listing must be calm, rejected or not. *)
Lemma getReleaseCount_tracks fuel :
  (forall owner repo per_page page rej,
     calm (Called (ReposListReleases owner repo per_page page) rej)) ->
  tracks calm fatal (getReleaseCount config fuel repoName).
Proof.
  intros C. unfold getReleaseCount.
  apply tracks_weaken with (calm := calm) (fatal := fun _ _ => False);
    [auto|contradiction|].
  apply tracks_whileTrue. intros [count page]. cbn [releasePage].
  apply tracks_tryCatch_into with (fatal := fun _ last => calm last).
  - apply tracks_bind; [|intros response; track].
    apply tracks_withRetry; [exact calm_sleep|].
    repeat split; intros; apply C.
  - intros error last L. right. eauto.
Qed.

Lemma safe_tracks {T} (fn : M Env T) (defaultValue : T) :
  tracks calm fatal fn -> tracks calm fatal (safe fn defaultValue).
Proof.
  intros H. unfold safe. apply tracks_tryCatch; [assumption|].
  intros error last F.
  destruct (isEmptyRepoError error) eqn:E; [right|left; reflexivity].
  split; [eauto|]. eapply excused; eauto.
Qed.

Lemma getRepoStats_tracks fuel isArchived :
  (forall owner repo, uses (ReposGet owner repo)) ->
  (forall p, uses (ReposListCommits p)) ->
  (forall owner repo ref, uses (ReposGetCommit owner repo ref)) ->
  (forall owner repo base head, uses (ReposCompareCommits owner repo base head)) ->
  (forall owner repo base per_page page,
     uses (PullsList owner repo base per_page page)) ->
  (forall owner repo per_page page rej,
     calm (Called (ReposListReleases owner repo per_page page) rej)) ->
  tracks calm fatal (getRepoStats config fuel (mkRepoInfo repoName isArchived)).
Proof.
  intros U1 U2 U3 U4 U5 C. unfold getRepoStats. cbn [name].
  apply tracks_bind.
  - apply tracks_tryCatch.
    + apply tracks_bind; [apply getDefaultBranch_tracks, U1|]. intros b. apply tracks_ret.
    + intros error last F.
      destruct (isEmptyRepoError error) eqn:E; [right|left; reflexivity].
      split; [eauto|]. eapply excused; eauto.
  - intros [branch|]; [|apply tracks_ret].
    apply tracks_bind; [apply safe_tracks, getCommitCount_tracks; auto|]. intros ?.
    apply tracks_bind; [apply safe_tracks, getLinesOfCode_tracks; auto|]. intros ?.
    apply tracks_bind; [apply safe_tracks, getPullRequestCount_tracks; auto|]. intros ?.
    apply tracks_bind; [apply safe_tracks, getContributors_tracks; auto|]. intros ?.
    apply tracks_bind; [apply safe_tracks, getReleaseCount_tracks; auto|]. intros ?.
    apply tracks_ret.
Qed.

End CollectorTracking.

(** ** What a run does after a rejection *)

Lemma goesOn_nil : goesOn [].
Proof. intros pre last E. destruct pre; discriminate. Qed.

Lemma goesOn_snoc evs ev : failureOf ev = None -> goesOn (evs ++ [ev]).
Proof. intros F pre last E. apply app_inj_tail in E as [_ <-]. exact F. Qed.

Lemma goesOn_app evs1 evs2 : goesOn evs1 -> goesOn evs2 -> goesOn (evs1 ++ evs2).
Proof.
  intros G1 G2. destruct evs2 as [|x l _] using rev_ind.
  - rewrite app_nil_r. exact G1.
  - rewrite app_assoc. intros pre last E. apply app_inj_tail in E as [_ <-].
    apply (G2 l x eq_refl).
Qed.

Section Resuming.
Context {Env : Type} `{!Octokit Env}.

Local Abbreviation resumes := (@resumes Env _).

Lemma resumes_silent {A} (m : M Env A) :
  (forall s, journal (snd (m s)) = journal s /\
             match fst (m s) with Throw _ => False | _ => True end) ->
  resumes m.
Proof.
  intros H s. exists []. destruct (H s) as [J O]. rewrite J, app_nil_r.
  split; [reflexivity|].
  destruct (fst (m s)); [apply goesOn_nil|contradiction|apply goesOn_nil].
Qed.

Lemma resumes_ret {A} (a : A) : resumes (ret a).
Proof. apply resumes_silent. intros s. simpl. auto. Qed.

Lemma resumes_updateRateLimit h : resumes (updateRateLimit h).
Proof. apply resumes_silent. intros s. simpl. auto. Qed.

Lemma resumes_cacheBranch repoName b : resumes (cacheBranch repoName b).
Proof. apply resumes_silent. intros s. simpl. auto. Qed.

Lemma resumes_bind {A B} (m : M Env A) (f : A -> M Env B) :
  resumes m -> (forall a, resumes (f a)) -> resumes (bind m f).
Proof.
  intros Hm Hf s. destruct (Hm s) as (evs1 & J1 & V1).
  unfold bind. destruct (m s) as [[a|error|] s1]; cbn [fst snd] in *.
  - destruct (Hf a s1) as (evs2 & J2 & V2).
    exists (evs1 ++ evs2). rewrite J2, J1, <- app_assoc.
    split; [reflexivity|].
    destruct (fst (f a s1)); [apply goesOn_app|exact V2|apply goesOn_app]; assumption.
  - exists evs1. auto.
  - exists evs1. auto.
Qed.

(** The [catch] blocks that test the error's own status rethrow whatever a
    resuming body throws. *)
Lemma resumes_statusHandler {A} (m : M Env A) (codes : Z -> bool) (v : A) :
  resumes m ->
  resumes (tryCatch m (fun error =>
             match ownStatus error with
             | Some st => if codes st then ret v else throw error
             | None => throw error
             end)).
Proof.
  intros Hm s. destruct (Hm s) as (evs & J & V).
  unfold tryCatch. destruct (m s) as [[a|error|] s1]; cbn [fst snd] in *.
  - exists evs. auto.
  - rewrite V. exists evs. auto.
  - exists evs. auto.
Qed.

Lemma resumes_sleep ms : resumes (sleep ms).
Proof.
  intros s. exists [Slept ms]. simpl. split; [reflexivity|].
  apply (goesOn_snoc []). reflexivity.
Qed.

Lemma resumes_checkRateLimit repoName : resumes (checkRateLimit repoName).
Proof.
  intros s. unfold checkRateLimit.
  destruct (_ <? 100)%Z; [|apply resumes_ret].
  destruct (_ && _); [apply resumes_sleep|apply resumes_ret].
Qed.

Lemma resumes_attemptLoop {T} (operation : Request T) repoName operationName
    remaining :
  forall attempt lastError,
    resumes (attemptLoop remaining attempt lastError operation repoName operationName).
Proof.
  induction remaining as [|remaining IH]; intros attempt lastError s.
  - exists []. rewrite app_nil_r. cbn [attemptLoop].
    destruct lastError; split; reflexivity.
  - destruct (send operation (env s)) as [[r|error] env'] eqn:E.
    + erewrite attemptLoop_resolved by exact E. cbn [fst snd journal].
      exists [Called operation None]. split; [reflexivity|].
      apply (goesOn_snoc []). reflexivity.
    + destruct (isRetryableError error) eqn:R;
        [destruct (Nat.eq_dec attempt MAX_RETRIES) as [Last|More]|].
      * erewrite attemptLoop_throw; [|exact E|right; exact Last].
        exists [Called operation (Some error)]. split; reflexivity.
      * erewrite attemptLoop_retry; [|exact E|exact R|exact More].
        destruct (IH (S attempt) (Some error)
                     (afterSleep (delayMs attempt error)
                        (afterCall operation (Some error) env' s)))
          as (evs & J & V).
        exists ([Called operation (Some error); Slept (delayMs attempt error)] ++ evs).
        split.
        -- rewrite J. cbn [journal afterSleep afterCall].
           rewrite <- !app_assoc. reflexivity.
        -- assert (goesOn [Called operation (Some error);
                           Slept (delayMs attempt error)]) as G
             by (apply (goesOn_snoc [_]); reflexivity).
           destruct (fst _); [apply goesOn_app|exact V|apply goesOn_app]; assumption.
      * erewrite attemptLoop_throw; [|exact E|left; exact R].
        exists [Called operation (Some error)]. split; reflexivity.
Qed.

Lemma resumes_withRetry {T} (operation : Request T) repoName operationName :
  resumes (withRetry operation repoName operationName).
Proof.
  unfold withRetry. apply resumes_bind; [apply resumes_checkRateLimit|].
  intros _. apply resumes_attemptLoop.
Qed.

Variable config : Config.
Variable repoName : string.

Ltac resume :=
  repeat first
    [ apply resumes_ret
    | apply resumes_updateRateLimit
    | apply resumes_cacheBranch
    | apply resumes_withRetry
    | match goal with
      | |- resumes (bind _ _) => apply resumes_bind; [|intros ?]
      | |- resumes (match ?x with _ => _ end) => destruct x
      end ].

Lemma getDefaultBranch_resumes : resumes (getDefaultBranch config repoName).
Proof.
  intros s. unfold getDefaultBranch.
  assert (resumes
            (response <- withRetry (ReposGet (organization config) repoName)
                                   repoName "fetching default branch" ;;
             updateRateLimit (headers response) ;;;
             cacheBranch repoName (default_branch (data response)) ;;;
             ret (default_branch (data response)))) as Fetch by resume.
  destruct (repoBranchCache s !! repoName) as [cached|]; [|apply Fetch].
  destruct (truthy cached); [apply resumes_ret|apply Fetch].
Qed.

(** The line-delta resolver goes on after every rejection, unless it
    throws. *)
Lemma getLinesOfCode_resumes branch :
  resumes (getLinesOfCode config repoName branch).
Proof.
  unfold getLinesOfCode.
  destruct (skipLineStats config); [apply resumes_ret|].
  apply resumes_bind.
  { destruct branch; [apply resumes_ret|apply getDefaultBranch_resumes]. }
  intros targetBranch.
  apply (resumes_statusHandler (fun st => (st =? 409)%Z || (st =? 404)%Z) zeroLines).
  unfold rangeCommits. cbv zeta. resume.
Qed.

End Resuming.

(** ** Which failures a collection survives *)

Section Survival.
Context {Env : Type} `{!Octokit Env}.
Variable config : Config.
Variable repoName : string.

Lemma mild_provides operationName T (operation : Request T) :
  provides mild (wrapped repoName) repoName operationName operation.
Proof.
  repeat split.
  - intros e [=].
  - intros e R e' [= <-]. auto.
  - intros e. exists operationName, e. auto.
Qed.

Lemma excusable_provides operationName T (operation : Request T) :
  provides excusable (wrapped repoName) repoName operationName operation.
Proof.
  repeat split.
  - left. intros e [=].
  - intros e R. left. intros e' [= <-]. auto.
  - intros e. exists operationName, e. auto.
Qed.

Lemma wrapped_ownStatus error last :
  wrapped repoName error last -> ownStatus error = None.
Proof. intros (operationName & e & -> & _). reflexivity. Qed.

Lemma wrapped_excused error last :
  wrapped repoName error last -> isEmptyRepoError error = true -> mild last.
Proof.
  intros (operationName & e & -> & L) E e' L'. rewrite L in L'. injection L' as <-.
  right. exact E.
Qed.

Lemma transient_provides operationName T (operation : Request T) :
  provides transient (wrapped repoName) repoName operationName operation.
Proof.
  repeat split.
  - intros e [=].
  - intros e R e' [= <-]. exact R.
  - intros e. exists operationName, e. auto.
Qed.

Lemma emptyHistory_statuses e :
  emptyHistory e = true <->
  status e = Some 404%Z \/ status e = Some 409%Z \/ status e = Some 422%Z.
Proof.
  unfold emptyHistory, emptyRepoStatus. destruct (status e) as [st|].
  - rewrite !orb_true_iff, !Z.eqb_eq. split.
    + intros [[->| ->]| ->]; auto.
    + intros [[= ->]|[[= ->]|[= ->]]]; auto.
  - split; [discriminate|]. intros [[=]|[[=]|[=]]].
Qed.

(** C2. Whatever the transport does:
    - a request of the line-delta resolver that is rejected for good (the
      error is not retryable, or nothing is sent after it: it was the third
      attempt) makes the resolver throw the wrapper of that rejection; when
      the rejection has status 404, 409 or 422, the resolver as
      [getRepoStats] runs it, inside [safe], yields [{added: 0, deleted: 0}];
    - whenever the resolver throws, for whatever reason a step gave up, it
      throws the wrapper of the rejection of its last request, and when that
      rejection has status 404, 409 or 422 the guarded resolver yields
      [{added: 0, deleted: 0}];
    - the guarded resolver never throws an error of status 404, 409 or 422:
      what it throws is the wrapper of the rejection of the last request,
      whose status is another one. *)
Theorem lines_empty_history (branch : option string) (s : State Env) :
  let run := getLinesOfCode config repoName branch s in
  let guarded := safe (getLinesOfCode config repoName branch) zeroLines s in
  exists evs,
    journal (snd run) = journal s ++ evs /\
    snd guarded = snd run /\
    (forall ev e,
       ev ∈ evs -> failureOf ev = Some e ->
       isRetryableError e = false \/ last evs = Some ev ->
       (exists operationName,
          fst run = Throw (GitHubApiError repoName operationName e)) /\
       (status e = Some 404%Z \/ status e = Some 409%Z \/ status e = Some 422%Z ->
        fst guarded = Return zeroLines)) /\
    (forall error,
       fst run = Throw error ->
       exists operationName e pre last,
         error = GitHubApiError repoName operationName e /\
         evs = pre ++ [last] /\
         failureOf last = Some e /\
         (status e = Some 404%Z \/ status e = Some 409%Z \/ status e = Some 422%Z ->
          fst guarded = Return zeroLines)) /\
    (forall error,
       fst guarded = Throw error ->
       exists operationName e pre last,
         error = GitHubApiError repoName operationName e /\
         evs = pre ++ [last] /\
         failureOf last = Some e /\
         status e <> Some 404%Z /\ status e <> Some 409%Z /\ status e <> Some 422%Z).
Proof.
  intros run guarded.
  assert (tracks transient (wrapped repoName)
            (getLinesOfCode config repoName branch)) as Tr.
  { apply getLinesOfCode_tracks with (uses := fun _ _ => True); auto.
    - intros ms e [=].
    - intros. apply transient_provides.
    - intros error0 last W. left. eapply wrapped_ownStatus; eauto. }
  destruct (Tr s) as (evs & J & V). fold run in J, V.
  assert (match fst run with Throw _ => True | _ => goesOn evs end) as Goes.
  { destruct (getLinesOfCode_resumes config repoName branch s) as (evs' & J' & G).
    fold run in J', G. rewrite J in J'. apply app_inv_head in J' as <-.
    destruct (fst run); auto. }
  exists evs. split; [exact J|].
  assert (forall l ev e, goesOn l -> last l = Some ev -> failureOf ev = Some e ->
                         False) as Ended.
  { intros l ev e G La L. apply last_Some in La as [pre ->].
    rewrite (G pre ev eq_refl) in L. discriminate. }
  assert (forall l ev e, Forall transient l -> ev ∈ l ->
            failureOf ev = Some e -> isRetryableError e = false -> False) as Calm.
  { intros l ev e F In L R. rewrite Forall_forall in F.
    specialize (F ev In e L). congruence. }
  subst guarded. unfold safe.
  destruct run as [[lines|error|] s'] eqn:Run; cbn [fst snd] in *.
  - rewrite (tryCatch_return _ _ _ Run). cbn [fst snd].
    split; [reflexivity|]. split; [|split; discriminate].
    intros ev e In L [R|La];
      [destruct (Calm _ ev e V In L R)|destruct (Ended _ ev e Goes La L)].
  - destruct V as (pre & last & -> & F & operationName & e0 & -> & L0).
    rewrite (tryCatch_throw _ _ _ Run).
    assert (isEmptyRepoError (GitHubApiError repoName operationName e0) =
            emptyHistory e0) as IE by reflexivity.
    split; [destruct (isEmptyRepoError _); reflexivity|]. split.
    + intros ev e In L Final.
      assert (ev = last) as ->.
      { destruct Final as [R|La].
        - apply elem_of_app in In as [In|In];
            [destruct (Calm _ ev e F In L R)|].
          apply list_elem_of_singleton in In. exact In.
        - rewrite last_snoc in La. congruence. }
      rewrite L0 in L. injection L as <-.
      split; [exists operationName; reflexivity|].
      intros St. apply emptyHistory_statuses in St.
      rewrite IE, St. reflexivity.
    + split.
      { intros error [= <-]. exists operationName, e0, pre, last.
        repeat split; try assumption.
        intros St. apply emptyHistory_statuses in St.
        rewrite IE, St. reflexivity. }
      intros error Th. rewrite IE in Th.
      destruct (emptyHistory e0) eqn:EH; [discriminate|].
      cbn [fst throw] in Th. injection Th as <-.
      exists operationName, e0, pre, last.
      repeat split; try assumption;
        intros St; (assert (emptyHistory e0 = true) as EH'
                      by (apply emptyHistory_statuses; auto)); congruence.
  - rewrite (tryCatch_unfinished _ _ _ Run). cbn [fst snd].
    split; [reflexivity|]. split; [|split; discriminate].
    intros ev e In L [R|La];
      [destruct (Calm _ ev e V In L R)|destruct (Ended _ ev e Goes La L)].
Qed.

Lemma getRepoStats_survives (fuel : nat) (isArchived : bool) :
  tracks excusable (wrapped repoName)
    (getRepoStats config fuel (mkRepoInfo repoName isArchived)).
Proof.
  apply getRepoStats_tracks with (uses := fun _ _ => True); auto.
  - intros ms. left. intros e [=].
  - intros. apply excusable_provides.
  - intros error last W. left. eapply wrapped_ownStatus; eauto.
  - intros error last W E. left. eapply wrapped_excused; eauto.
  - intros. right. exact I.
Qed.

End Survival.

Section RunSurvival.
Context {Env : Type} `{!Octokit Env}.
Variable config : Config.
Variable completion : nat -> list nat.
Variable fuel : nat.

Lemma collection_survives repo :
  tracks excusable wrappedFor (getRepoStats config fuel repo).
Proof.
  destruct repo as [repoName isArchived].
  apply tracks_weaken with (calm := excusable) (fatal := wrapped repoName).
  - auto.
  - intros error last W. exists repoName. exact W.
  - apply getRepoStats_survives.
Qed.

Lemma settle_survives batch batchIndices order :
  forall slots,
    tracks excusable wrappedFor (settle config fuel batch batchIndices order slots).
Proof.
  induction order as [|b rest IH]; intros slots; cbn [settle].
  - apply tracks_ret.
  - destruct (batch !! b); [|apply IH].
    destruct (batchIndices !! b); [|apply IH].
    apply tracks_bind; [apply collection_survives|]. intros stats. apply IH.
Qed.

Lemma batchLoop_survives repos concurrency turns :
  forall i results,
    tracks excusable wrappedFor
      (batchLoop config completion fuel turns repos concurrency i results).
Proof.
  induction turns as [|turns IH]; intros i results; cbn [batchLoop].
  - apply tracks_unfinished.
  - destruct (i <? length repos); [|apply tracks_ret].
    apply tracks_bind; [|intros batchResults; apply IH].
    unfold promiseAll. apply tracks_bind; [apply settle_survives|].
    intros slots. destruct (mapM id slots); [apply tracks_ret|apply tracks_unfinished].
Qed.

Lemma processRepos_survives repos concurrency :
  tracks excusable wrappedFor (processRepos config completion fuel repos concurrency).
Proof. apply batchLoop_survives. Qed.

End RunSurvival.

Section SurvivalClaims.
Context {Env : Type} `{!Octokit Env}.
Variable config : Config.
Variable repoName : string.

(** C3, as amended.  Commit count, line delta, pull-request count and
    contributors, each inside [safe] as [getRepoStats] runs them: when one
    returns, every request of its that failed did so with a retryable or an
    empty-history error; when one throws, what it throws is the
    [GitHubApiError] naming this repository and the operation around the
    rejection of its last request.  For the whole of [getRepoStats], and for
    the whole run of [processRepos], the same holds except that a failed
    release listing does not count: a run that returns has seen no other
    kind of failure, a run that throws throws the wrapped rejection. *)
Theorem fatal_errors_propagate (fuel : nat) (branch : string) (isArchived : bool) :
  tracks mild (wrapped repoName)
    (safe (getCommitCount config fuel repoName (Some branch)) 0) /\
  tracks mild (wrapped repoName)
    (safe (getLinesOfCode config repoName (Some branch)) zeroLines) /\
  tracks mild (wrapped repoName)
    (safe (getPullRequestCount config fuel repoName (Some branch)) 0) /\
  tracks mild (wrapped repoName)
    (safe (getContributors config fuel repoName (Some branch)) []) /\
  tracks excusable (wrapped repoName)
    (getRepoStats config fuel (mkRepoInfo repoName isArchived)) /\
  (forall completion repos concurrency,
     tracks excusable (fun error last => exists repo, wrapped repo error last)
       (processRepos config completion fuel repos concurrency)).
Proof.
  assert (forall ms, mild (Slept ms)) as Sl by (intros ms e [=]).
  assert (forall error last,
            wrapped repoName error last -> ownStatus error = None \/ mild last) as Ca
    by (intros error last W; left; eapply wrapped_ownStatus; eauto).
  assert (forall operationName T (operation : Request T), True ->
            provides mild (wrapped repoName) repoName operationName operation) as Pr
    by (intros; apply mild_provides).
  repeat split.
  - apply safe_tracks; [apply wrapped_excused|].
    apply getCommitCount_tracks with (uses := fun _ _ => True); auto.
  - apply safe_tracks; [apply wrapped_excused|].
    apply getLinesOfCode_tracks with (uses := fun _ _ => True); auto.
  - apply safe_tracks; [apply wrapped_excused|].
    apply getPullRequestCount_tracks with (uses := fun _ _ => True); auto.
  - apply safe_tracks; [apply wrapped_excused|].
    apply getContributors_tracks with (uses := fun _ _ => True); auto.
  - apply getRepoStats_survives.
  - intros completion repos concurrency. apply processRepos_survives.
Qed.

Lemma getRepoStats_issues fuel repoInfo (s : State Env) :
  match fst (getRepoStats config fuel repoInfo s) with
  | Return stats => issuesCreated stats = 0 /\ issuesClosed stats = 0
  | _ => True
  end.
Proof.
  unfold getRepoStats, bind.
  repeat match goal with
         | |- context [match ?m ?st with _ => _ end] =>
             lazymatch type of (m st) with
             | (Outcome _ * State _)%type => destruct (m st) as [[?|?|] ?]
             end
         | |- context [match ?x with Some _ => _ | None => _ end] => destruct x
         end; simpl; auto.
Qed.

(** C10. Whatever [getRepoStats] returns has [issuesCreated = 0] and
    [issuesClosed = 0], and no run of it, however it ends, sends an issue
    listing: every event it adds to the journal is something else.
    [getIssueStats] is defined above and is not among the collectors. *)
Theorem getRepoStats_no_issues (fuel : nat) (isArchived : bool) (s : State Env) :
  let run := getRepoStats config fuel (mkRepoInfo repoName isArchived) s in
  match fst run with
  | Return stats => issuesCreated stats = 0 /\ issuesClosed stats = 0
  | _ => True
  end /\
  exists evs,
    journal (snd run) = journal s ++ evs /\ Forall (fun ev => ~ isIssueCall ev) evs.
Proof.
  intros run. split; [apply getRepoStats_issues|].
  pose (calm := fun ev => ~ isIssueCall ev).
  assert (tracks calm (fun _ last => calm last)
            (getRepoStats config fuel (mkRepoInfo repoName isArchived))) as Tr.
  { apply getRepoStats_tracks
      with (uses := fun T (r : Request T) => forall rej, calm (Called r rej));
      unfold calm; simpl; auto.
    intros operationName T operation U. unfold provides. simpl.
    repeat split; intros; intro Hc; exact (U None Hc). }
  destruct (Tr s) as (evs & J & V). exists evs. split; [exact J|].
  fold run in V. destruct (fst run); simpl in V; auto.
  destruct V as (pre & last & -> & P & L).
  apply Forall_app. split; [exact P|]. constructor; [exact L|constructor].
Qed.

End SurvivalClaims.

(** ** Runs against the reference remote *)

Lemma requests_app j1 j2 : requests (j1 ++ j2) = requests j1 ++ requests j2.
Proof. apply List.filter_app. Qed.

Section RemoteRuns.
Variable repository : string -> option Remote.Repository.

Local Abbreviation site := (Remote.healthy repository).
Local Hint Extern 0 (Octokit _) =>
  exact (remote_octokit repository) : typeclass_instances.
Lemma yields_ret {A} (a : A) (Q : A -> list Event -> Prop) :
  Q a [] -> yields (ret a) Q.
Proof.
  intros H s. exists a, s, []. rewrite app_nil_r. auto.
Qed.

Lemma yields_bind {A B} (m : M Remote.Clock A) (f : A -> M Remote.Clock B)
    (Q1 : A -> list Event -> Prop) (Q2 : B -> list Event -> Prop) :
  yields m Q1 ->
  (forall a evs1, Q1 a evs1 -> yields (f a) (fun b evs2 => Q2 b (evs1 ++ evs2))) ->
  yields (bind m f) Q2.
Proof.
  intros Hm Hf s. destruct (Hm s) as (a & s1 & evs1 & E1 & J1 & P1).
  destruct (Hf a evs1 P1 s1) as (b & s2 & evs2 & E2 & J2 & P2).
  exists b, s2, (evs1 ++ evs2).
  rewrite (bind_return _ _ _ E1). split; [exact E2|].
  rewrite J2, J1, <- app_assoc. auto.
Qed.

Lemma yields_conseq {A} (m : M Remote.Clock A) (Q Q' : A -> list Event -> Prop) :
  yields m Q -> (forall a evs, Q a evs -> Q' a evs) -> yields m Q'.
Proof.
  intros Hm HQ s. destruct (Hm s) as (a & s1 & evs & E & J & P).
  exists a, s1, evs. auto.
Qed.

Lemma yields_tryCatch {A} (m : M Remote.Clock A) handler Q :
  yields m Q -> yields (tryCatch m handler) Q.
Proof.
  intros Hm s. destruct (Hm s) as (a & s1 & evs & E & J & P).
  exists a, s1, evs. rewrite (tryCatch_return _ _ _ E). auto.
Qed.

Lemma checkRateLimit_requests repoName (s : State Remote.Clock) :
  requests (journal (snd (checkRateLimit repoName s))) = requests (journal s).
Proof.
  unfold checkRateLimit.
  destruct (_ <? 100)%Z; [|reflexivity].
  destruct (_ && _); [|reflexivity].
  cbn [sleep snd journal]. rewrite requests_app. cbn. apply app_nil_r.
Qed.

(** A request the site answers is answered at the first attempt. *)
Lemma yields_withRetry {T} (operation : Request T) repoName operationName d :
  Remote.payload site operation = inr d ->
  yields (withRetry operation repoName operationName)
         (fun r evs => data r = d /\ evs = [Called operation None]).
Proof.
  intros P s. rewrite withRetry_unfold.
  set (s0 := snd (checkRateLimit repoName s)).
  assert (exists h clk, send operation (env s0) = (Resolved (mkResponse d h), clk))
    as (h & clk & E).
  { cbn [send remote_octokit Remote.octokit]. unfold Remote.serve. rewrite P. eauto. }
  erewrite attemptLoop_resolved by exact E.
  eexists _, _, _. split; [reflexivity|].
  cbn [journal data]. rewrite requests_app. unfold s0.
  rewrite checkRateLimit_requests. auto.
Qed.


Variable config : Config.
Variable repoName : string.
Variable r : Remote.Repository.
Hypothesis hosted : repository repoName = Some r.

Local Abbreviation pullsRequest := (pullsRequest config repoName).
Local Abbreviation inside := (inside config).
Local Abbreviation commitsInRange := (commitsInRange config).
Local Abbreviation headRequest := (headRequest config repoName).
Local Abbreviation baseRequest := (baseRequest config repoName).

Lemma pageSize_pos : 1 <= pageSize config.
Proof. unfold pageSize. destruct (configPageSize config); lia. Qed.

Lemma next_page {A} (l : list A) page P :
  1 <= page -> drop (((S page) - 1) * P) l = drop P (drop ((page - 1) * P) l).
Proof.
  intros H. rewrite drop_drop. f_equal. nia.
Qed.

Lemma yields_getDefaultBranch :
  yields (getDefaultBranch config repoName) (fun _ _ => True).
Proof.
  intros s. unfold getDefaultBranch.
  assert (yields
            (response <- withRetry (ReposGet (organization config) repoName)
                                   repoName "fetching default branch" ;;
             updateRateLimit (headers response) ;;;
             cacheBranch repoName (default_branch (data response)) ;;;
             ret (default_branch (data response)))
            (fun _ _ => True)) as Fetch.
  { eapply yields_bind.
    - apply yields_withRetry. unfold Remote.payload, Remote.inRepo. cbn.
      rewrite hosted. reflexivity.
    - intros response evs1 _ s1. eexists _, _, []. split; [reflexivity|].
      cbn [journal]. rewrite app_nil_r. auto. }
  destruct (repoBranchCache s !! repoName) as [cached|]; [|apply Fetch].
  destruct (truthy cached); [|apply Fetch].
  apply yields_ret. exact I.
Qed.

(** *** Pull requests *)

Lemma scanPulls_app start finish pre l count :
  Forall (fun pr => (start <= pr_created_at pr)%Z) pre ->
  scanPulls start finish (pre ++ l) count =
  scanPulls start finish l (count + countInRange start finish pre).
Proof.
  intros F. revert count. induction F as [|pr pre G F IH]; intros count.
  - unfold countInRange. simpl. f_equal. lia.
  - cbn [app scanPulls].
    destruct (Z.ltb_spec (pr_created_at pr) start) as [L|_]; [lia|].
    rewrite IH. f_equal. unfold countInRange. cbn [List.filter].
    destruct (inRange start finish (pr_created_at pr)); cbn [length]; lia.
Qed.

Lemma pullRequestPage_yields targetBranch count page :
  let pg := Remote.pageOf (pageSize config) page (Remote.pulls r) in
  yields (pullRequestPage config repoName targetBranch (count, page))
    (fun step evs =>
       evs = [pullsRequest targetBranch page] /\
       step =
         (if length pg =? 0 then Finish count
          else match scanPulls (rangeStart config) (rangeEnd config) pg count with
               | Finish count => Finish count
               | Continue count =>
                   if length pg <? pageSize config then Finish count
                   else Continue (count, S page)
               end)).
Proof.
  intros pg. cbn [pullRequestPage].
  eapply yields_bind.
  - apply yields_withRetry with (d := pg).
    unfold Remote.payload, Remote.inRepo. cbn. rewrite hosted. reflexivity.
  - intros response evs1 [D ->]. rewrite D.
    destruct (length pg =? 0); [apply yields_ret; auto|].
    destruct (scanPulls _ _ pg count); [|apply yields_ret; auto].
    destruct (length pg <? pageSize config); apply yields_ret; auto.
Qed.

(** Early stop: the listing is [pre ++ x :: rest] from the current page on,
    nothing in [pre] is before the start and [x] is.  The loop returns the
    count of [pre] and asks for no page after the one [x] is on. *)
Lemma pulls_early_stop targetBranch x rest fuel :
  (pr_created_at x < rangeStart config)%Z ->
  forall pre count page,
    1 <= page ->
    drop ((page - 1) * pageSize config) (Remote.pulls r) = pre ++ x :: rest ->
    Forall (fun pr => (rangeStart config <= pr_created_at pr)%Z) pre ->
    length pre / pageSize config < fuel ->
    yields (whileTrue fuel (pullRequestPage config repoName targetBranch) (count, page))
      (fun result evs =>
         result = count + countInRange (rangeStart config) (rangeEnd config) pre /\
         evs = map (pullsRequest targetBranch)
                   (seq page (S (length pre / pageSize config)))).
Proof.
  intros Old. pose proof pageSize_pos as Pos.
  induction fuel as [|fuel IH]; intros pre count page Pg D F Fuel; [lia|].
  cbn [whileTrue]. eapply yields_bind; [apply pullRequestPage_yields|].
  intros step evs1 [-> ->]. unfold Remote.pageOf. rewrite D.
  destruct (Nat.lt_ge_cases (length pre) (pageSize config)) as [Short|Full].
  - (* [x] is on this page *)
    rewrite take_app_ge by lia.
    replace (pageSize config - length pre) with (S (pageSize config - length pre - 1)) by lia.
    cbn [take]. rewrite length_app. cbn [length].
    replace (length pre + S _ =? 0) with false by (symmetry; apply Nat.eqb_neq; lia).
    rewrite scanPulls_app by assumption. cbn [scanPulls].
    apply Z.ltb_lt in Old. rewrite Old.
    rewrite Nat.div_small by assumption.
    apply yields_ret. auto.
  - (* a full page of [pre] *)
    rewrite take_app_le by lia.
    assert (length (take (pageSize config) pre) = pageSize config) as Len
      by (rewrite length_take; lia).
    rewrite Len.
    replace (pageSize config =? 0) with false by (symmetry; apply Nat.eqb_neq; lia).
    rewrite <- (app_nil_r (take (pageSize config) pre)).
    rewrite scanPulls_app by (apply Forall_take; assumption).
    cbn [scanPulls]. rewrite Nat.ltb_irrefl.
    assert (length pre / pageSize config =
            S (length (drop (pageSize config) pre) / pageSize config)) as Div.
    { rewrite length_drop.
      replace (length pre) with ((length pre - pageSize config) + 1 * pageSize config)
        at 1 by lia.
      rewrite Nat.div_add by lia. lia. }
    eapply yields_conseq.
    + apply (IH (drop (pageSize config) pre)).
      * lia.
      * rewrite next_page by assumption. rewrite D.
        rewrite drop_app_le by lia. reflexivity.
      * apply Forall_drop. assumption.
      * lia.
    + cbn beta. intros result evs2 [-> ->]. split.
      * unfold countInRange.
        rewrite <- (take_drop (pageSize config) pre) at 3.
        rewrite List.filter_app, length_app. lia.
      * rewrite Div. reflexivity.
Qed.

(** Whatever the listing, the loop comes to an end once the fuel exceeds
    what is left of it. *)
Lemma pulls_finish targetBranch fuel :
  forall count page,
    1 <= page ->
    length (drop ((page - 1) * pageSize config) (Remote.pulls r)) < fuel ->
    yields (whileTrue fuel (pullRequestPage config repoName targetBranch) (count, page))
           (fun _ _ => True).
Proof.
  pose proof pageSize_pos as Pos.
  induction fuel as [|fuel IH]; intros count page Pg Fuel; [lia|].
  cbn [whileTrue]. eapply yields_bind; [apply pullRequestPage_yields|].
  intros step evs1 [-> ->]. unfold Remote.pageOf.
  set (left := drop ((page - 1) * pageSize config) (Remote.pulls r)) in *.
  destruct (length (take (pageSize config) left) =? 0); [apply yields_ret; exact I|].
  destruct (scanPulls _ _ _ count) as [count'|]; [|apply yields_ret; exact I].
  destruct (Nat.ltb_spec (length (take (pageSize config) left)) (pageSize config))
    as [Short|Full]; [apply yields_ret; exact I|].
  eapply yields_conseq; [apply IH|auto]; [lia|].
  rewrite next_page by assumption. fold left.
  rewrite length_take in Full. rewrite length_drop. lia.
Qed.


(** C7. The remote lists pull requests created at [T5 > T4 > T3 > T2 > T1],
    newest first, followed by whatever older ones there are ([rest], which may
    be empty), and the range is [[T2, T4]].  Whatever the page size,
    [getPullRequestCount] returns 3, and the pages it asks for are pages 1 to
    [4 / pageSize + 1], the last being the page the item at [T1] is on: once
    that item is seen no further page is requested. *)
Theorem pull_requests_early_stop (T1 T2 T3 T4 T5 : Z) (rest : list PullItem)
    (targetBranch : string) (fuel : nat) :
  (T1 < T2 < T3)%Z -> (T3 < T4 < T5)%Z ->
  rangeStart config = T2 -> rangeEnd config = T4 ->
  Remote.pulls r = map Build_PullItem [T5; T4; T3; T2; T1] ++ rest ->
  4 / pageSize config < fuel ->
  forall s, exists s',
    getPullRequestCount config fuel repoName (Some targetBranch) s = (Return 3, s') /\
    requests (journal s') =
      requests (journal s) ++
      map (pullsRequest targetBranch) (seq 1 (S (4 / pageSize config))).
Proof.
  intros O1 O2 St En L Fuel s.
  unfold getPullRequestCount. cbn [targetBranchOf].
  rewrite (bind_return (ret targetBranch) _ s (a:=targetBranch) (s':=s) eq_refl).
  set (pre := map Build_PullItem [T5; T4; T3; T2]).
  assert (yields
            (whileTrue fuel (pullRequestPage config repoName targetBranch) (0, 1))
            (fun result evs =>
               result = 0 + countInRange (rangeStart config) (rangeEnd config) pre /\
               evs = map (pullsRequest targetBranch)
                         (seq 1 (S (length pre / pageSize config))))) as Y.
  { apply pulls_early_stop with (x := Build_PullItem T1) (rest := rest).
    - cbn. lia.
    - lia.
    - rewrite L. reflexivity.
    - rewrite St. repeat constructor; cbn; lia.
    - exact Fuel. }
  destruct (Y s) as (result & s' & evs & Run & J & -> & ->).
  exists s'. rewrite Run, J. split; [|reflexivity].
  do 2 f_equal. unfold countInRange, inRange, pre. rewrite St, En. cbn.
  repeat match goal with
         | |- context [(?a <=? ?b)%Z] => destruct (Z.leb_spec a b); try lia
         end.
  reflexivity.
Qed.

(** *** Releases *)

Lemma releasePage_yields count page :
  let pg := Remote.pageOf (pageSize config) page (Remote.releaseList r) in
  yields (releasePage config repoName (count, page))
    (fun step _ =>
       step =
         (if length pg =? 0 then Finish count
          else match scanReleases (rangeStart config) (rangeEnd config) pg count with
               | Finish count => Finish count
               | Continue count =>
                   if length pg <? pageSize config then Finish count
                   else Continue (count, S page)
               end)).
Proof.
  intros pg. cbn [releasePage]. apply yields_tryCatch.
  eapply yields_bind.
  - apply yields_withRetry with (d := pg).
    unfold Remote.payload, Remote.inRepo. cbn. rewrite hosted. reflexivity.
  - intros response evs1 [D ->]. rewrite D.
    destruct (length pg =? 0); [apply yields_ret; auto|].
    destruct (scanReleases _ _ pg count); [|apply yields_ret; auto].
    destruct (length pg <? pageSize config); apply yields_ret; auto.
Qed.

Lemma releases_finish fuel :
  forall count page,
    1 <= page ->
    length (drop ((page - 1) * pageSize config) (Remote.releaseList r)) < fuel ->
    yields (whileTrue fuel (releasePage config repoName) (count, page))
           (fun _ _ => True).
Proof.
  pose proof pageSize_pos as Pos.
  induction fuel as [|fuel IH]; intros count page Pg Fuel; [lia|].
  cbn [whileTrue]. eapply yields_bind; [apply releasePage_yields|].
  intros step evs1 ->. unfold Remote.pageOf.
  set (left := drop ((page - 1) * pageSize config) (Remote.releaseList r)) in *.
  destruct (length (take (pageSize config) left) =? 0); [apply yields_ret; exact I|].
  destruct (scanReleases _ _ _ count) as [count'|]; [|apply yields_ret; exact I].
  destruct (Nat.ltb_spec (length (take (pageSize config) left)) (pageSize config))
    as [Short|Full]; [apply yields_ret; exact I|].
  eapply yields_conseq; [apply IH|auto]; [lia|].
  rewrite next_page by assumption. fold left.
  rewrite length_take in Full. rewrite length_drop. lia.
Qed.

(** *** Commits *)

Lemma filter_all {A} (f : A -> bool) l :
  Forall (fun x => f x = true) l -> List.filter f l = l.
Proof.
  induction 1 as [|x l H _ IH]; [reflexivity|].
  cbn. rewrite H, IH. reflexivity.
Qed.

Lemma filter_none {A} (f : A -> bool) l :
  Forall (fun x => f x = false) l -> List.filter f l = [].
Proof.
  induction 1 as [|x l H _ IH]; [reflexivity|].
  cbn. rewrite H, IH. reflexivity.
Qed.

Lemma filter_same {A} (f g : A -> bool) l :
  Forall (fun x => f x = g x) l -> List.filter f l = List.filter g l.
Proof.
  induction 1 as [|x l H _ IH]; [reflexivity|].
  cbn. rewrite H, IH. reflexivity.
Qed.

(** What the site answers to a commit listing of a repository with commits. *)
Lemma listing_payload p :
  lc_repo p = repoName ->
  Remote.history r <> [] ->
  Remote.payload site (ReposListCommits p) =
    inr (map Remote.listed
           (Remote.pageOf (lc_per_page p) (default 1 (lc_page p))
              (List.filter (Remote.inWindow (lc_since p) (lc_until p))
                 (Remote.history r)))).
Proof.
  intros R N. unfold Remote.payload, Remote.inRepo. cbn.
  rewrite R, hosted. destruct (Remote.history r); [contradiction|reflexivity].
Qed.

Lemma outside_window c :
  ~ inside c ->
  Remote.inWindow (Some (rangeStart config)) (Some (rangeEnd config)) c = false.
Proof.
  unfold inside, Remote.inWindow. intros N.
  destruct (Z.leb_spec (rangeStart config) (Remote.date c)); [|reflexivity].
  destruct (Z.leb_spec (Remote.date c) (rangeEnd config)); [lia|reflexivity].
Qed.

Lemma inside_window c :
  inside c ->
  Remote.inWindow (Some (rangeStart config)) (Some (rangeEnd config)) c = true.
Proof.
  unfold inside, Remote.inWindow. intros [L U].
  apply Z.leb_le in L, U. rewrite L, U. reflexivity.
Qed.

Lemma yields_given {A} (branch : string) (k : string -> M Remote.Clock A) Q :
  yields (k branch) Q ->
  yields (targetBranch <- targetBranchOf config repoName (Some branch) ;; k targetBranch) Q.
Proof.
  intros H. eapply yields_bind.
  - apply yields_ret with (Q := fun b evs => b = branch /\ evs = []). auto.
  - intros b evs [-> ->]. exact H.
Qed.

Section Idle.
(** A repository with commits, none of them inside the range. *)
Hypothesis some_commit : Remote.history r <> [].
Hypothesis none_inside : Forall (fun c => ~ inside c) (Remote.history r).
Hypothesis ordered : (rangeStart config <= rangeEnd config)%Z.

Lemma idle_listing targetBranch page :
  Remote.payload site (rangeCommits config repoName targetBranch page) = inr [].
Proof.
  unfold rangeCommits. rewrite listing_payload by (auto || reflexivity).
  cbn [lc_since lc_until]. rewrite filter_none.
  - unfold Remote.pageOf. rewrite drop_nil, take_nil. reflexivity.
  - eapply Forall_impl; [exact none_inside|]. apply outside_window.
Qed.

Lemma commits_idle targetBranch fuel :
  1 <= fuel ->
  yields (getCommitCount config fuel repoName (Some targetBranch))
         (fun count _ => count = 0).
Proof.
  intros Fuel. destruct fuel as [|fuel]; [lia|].
  unfold getCommitCount. apply yields_given. cbn [whileTrue commitCountPage].
  apply yields_bind with (Q1 := fun step _ => step = Finish 0).
  - apply yields_tryCatch. eapply yields_bind.
    + apply yields_withRetry. apply idle_listing.
    + intros response evs [D ->]. rewrite D. cbn [length Nat.add].
      pose proof pageSize_pos as Pos.
      destruct (Nat.ltb_spec 0 (pageSize config)); [|lia].
      apply yields_ret. reflexivity.
  - intros step evs ->. apply yields_ret. reflexivity.
Qed.

Lemma contributors_idle targetBranch fuel :
  1 <= fuel ->
  yields (getContributors config fuel repoName (Some targetBranch))
         (fun contributorsList _ => contributorsList = []).
Proof.
  intros Fuel. destruct fuel as [|fuel]; [lia|].
  unfold getContributors. apply yields_given. cbn [whileTrue contributorsPage].
  apply yields_bind with (Q1 := fun step _ => step = Finish []).
  - apply yields_tryCatch. eapply yields_bind.
    + apply yields_withRetry. apply idle_listing.
    + intros response evs [D ->]. rewrite D. cbn [length Nat.eqb].
      apply yields_ret. reflexivity.
  - intros step evs ->. apply yields_ret. reflexivity.
Qed.

(** With nothing inside the range, the commits up to the end of the range
    are the commits before its start, so head and base are the same commit
    (or there is neither). *)
Lemma before_start_is_up_to_end :
  List.filter (Remote.inWindow None (Some (rangeStart config - 1)%Z))
    (Remote.history r) =
  List.filter (Remote.inWindow None (Some (rangeEnd config)))
    (Remote.history r).
Proof.
  apply filter_same. eapply Forall_impl; [exact none_inside|].
  intros c N. unfold Remote.inWindow, inside in *. cbn [andb].
  destruct (Z.leb_spec (Remote.date c) (rangeStart config - 1)),
           (Z.leb_spec (Remote.date c) (rangeEnd config)); try reflexivity; lia.
Qed.

Lemma base_is_head targetBranch :
  Remote.payload site (baseRequest targetBranch) =
  Remote.payload site (headRequest targetBranch).
Proof.
  unfold baseRequest, headRequest.
  rewrite !listing_payload by (auto || reflexivity).
  cbn [lc_since lc_until lc_per_page lc_page].
  rewrite before_start_is_up_to_end. reflexivity.
Qed.

Lemma lines_idle targetBranch :
  yields (getLinesOfCode config repoName (Some targetBranch))
         (fun lines _ => lines = zeroLines).
Proof.
  unfold getLinesOfCode.
  destruct (skipLineStats config); [apply yields_ret; reflexivity|].
  apply yields_given. apply yields_tryCatch.
  pose proof before_start_is_up_to_end as Same.
  eapply yields_bind.
  { apply yields_withRetry. apply listing_payload; [reflexivity|assumption]. }
  intros endCommitsResponse evs1 [D1 ->]. rewrite D1. cbn [lc_since lc_until lc_per_page lc_page].
  destruct (map Remote.listed _) as [|endCommit others] eqn:Head;
    [apply yields_ret; reflexivity|].
  eapply yields_bind.
  { apply yields_withRetry. apply listing_payload; [reflexivity|assumption]. }
  intros baseCommitsResponse evs2 [D2 ->]. rewrite D2.
  cbn [lc_since lc_until lc_per_page lc_page].
  cbn [lc_since lc_until lc_per_page lc_page] in Head.
  rewrite Same, Head. cbv zeta. rewrite String.eqb_refl.
  apply yields_ret. reflexivity.
Qed.

Lemma idle_collection (fuel : nat) (archived : bool) :
  length (Remote.pulls r) < fuel -> length (Remote.releaseList r) < fuel ->
  yields (getRepoStats config fuel (mkRepoInfo repoName archived))
    (fun stats _ =>
       linesAdded stats = 0%Z /\ linesDeleted stats = 0%Z /\
       commits stats = 0 /\ contributors stats = 0).
Proof.
  intros FuelP FuelR.
  unfold getRepoStats. cbn [name isArchived].
  apply yields_bind with (Q1 := fun resolved _ => exists b, resolved = Some b).
  { apply yields_tryCatch. eapply yields_bind; [apply yields_getDefaultBranch|].
    intros b evs _. apply yields_ret. eauto. }
  intros resolved evs0 [branch ->].
  eapply yields_bind; [apply yields_tryCatch, commits_idle; lia|].
  intros n evs1 ->.
  eapply yields_bind; [apply yields_tryCatch, lines_idle|].
  intros lines evs2 ->.
  eapply yields_bind.
  { apply yields_tryCatch. unfold getPullRequestCount. apply yields_given.
    apply pulls_finish; [lia|]. cbn. rewrite drop_0. exact FuelP. }
  intros pullRequests evs3 _.
  eapply yields_bind; [apply yields_tryCatch, contributors_idle; lia|].
  intros contributorsList evs4 ->.
  eapply yields_bind.
  { apply yields_tryCatch. unfold getReleaseCount.
    apply releases_finish; [lia|]. cbn. rewrite drop_0. exact FuelR. }
  intros releases evs5 _.
  apply yields_ret. cbn. auto.
Qed.

(** C4. A repository with at least one commit and none inside the range:
    the remote's answer to the base request is its answer to the head request
    (the same commit, or none when every commit is after the range), and
    [getRepoStats] returns a record with zero lines added, zero lines
    deleted, zero commits and zero contributors. *)
Theorem idle_repository (fuel : nat) (isArchived : bool) :
  length (Remote.pulls r) < fuel -> length (Remote.releaseList r) < fuel ->
  (forall targetBranch,
     Remote.payload site (baseRequest targetBranch) =
     Remote.payload site (headRequest targetBranch)) /\
  forall s, exists stats s',
    getRepoStats config fuel (mkRepoInfo repoName isArchived) s = (Return stats, s') /\
    linesAdded stats = 0%Z /\ linesDeleted stats = 0%Z /\
    commits stats = 0 /\ contributors stats = 0.
Proof.
  intros FuelP FuelR. split; [exact base_is_head|]. intros s.
  destruct (idle_collection isArchived FuelP FuelR s) as (stats & s' & evs & Run & _ & P).
  exists stats, s'. auto.
Qed.

End Idle.


Lemma last_map {A B} (f : A -> B) l x :
  last l = Some x -> last (map f l) = Some (f x).
Proof.
  induction l as [|a [|b l] IH]; cbn; intros E; [discriminate|congruence|].
  apply IH. exact E.
Qed.

Lemma find_by_sha (l : list Remote.Commit) c :
  NoDup (map (fun c => sha (Remote.listed c)) l) ->
  c ∈ l ->
  List.find (fun c' => String.eqb (sha (Remote.listed c')) (sha (Remote.listed c))) l
  = Some c.
Proof.
  induction l as [|a l IH]; cbn; intros N I; [inversion I|].
  apply NoDup_cons in N as [Fresh N].
  destruct (String.eqb_spec (sha (Remote.listed a)) (sha (Remote.listed c))) as [E|D].
  - apply elem_of_cons in I as [->|I]; [reflexivity|].
    exfalso. apply Fresh. rewrite E. apply list_elem_of_In, in_map_iff.
    exists c. split; [reflexivity|]. apply list_elem_of_In. exact I.
  - apply elem_of_cons in I as [->|I]; [congruence|]. apply IH; assumption.
Qed.

Section RootCommit.
(** Line statistics are on; no commit of the repository is before the start
    of the range; the commits inside the range fit on one page and the
    oldest of them, [root], has no parent.  Shas identify commits. *)
Hypothesis lines_on : skipLineStats config = false.
Hypothesis none_before :
  Forall (fun c => (rangeStart config <= Remote.date c)%Z) (Remote.history r).
Hypothesis one_page : length (commitsInRange r) <= pageSize config.
Variable root : Remote.Commit.
Hypothesis oldest : last (commitsInRange r) = Some root.
Hypothesis parentless :
  parents (Remote.detail root) = None \/ parents (Remote.detail root) = Some [].
Hypothesis unique : NoDup (map (fun c => sha (Remote.listed c)) (Remote.history r)).

Lemma up_to_end_is_in_range :
  List.filter (Remote.inWindow None (Some (rangeEnd config))) (Remote.history r) =
  commitsInRange r.
Proof.
  apply filter_same. eapply Forall_impl; [exact none_before|].
  intros c L. unfold Remote.inWindow. apply Z.leb_le in L. rewrite L. reflexivity.
Qed.

(** The root-commit fallback where it is reached.  With line statistics
    enabled, for a repository with no commit before the start of the range,
    whose commits inside the range fit on one page and whose oldest commit
    inside the range has no parent, [getLinesOfCode] returns that commit's own
    recorded additions and deletions (a missing figure counting as 0). *)
Theorem root_commit_fallback (targetBranch : string) :
  forall s, exists s',
    getLinesOfCode config repoName (Some targetBranch) s =
      (Return (mkLines (default 0%Z (stats (Remote.detail root) ≫= additions))
                       (default 0%Z (stats (Remote.detail root) ≫= deletions))),
       s').
Proof.
  assert (root ∈ Remote.history r) as Known.
  { apply last_Some_elem_of in oldest. apply list_elem_of_In in oldest.
    apply List.filter_In in oldest as [I _]. apply list_elem_of_In. exact I. }
  assert (Remote.history r <> []) as Some_commit
    by (intros E; rewrite E in Known; inversion Known).
  assert (yields (getLinesOfCode config repoName (Some targetBranch))
            (fun lines _ =>
               lines =
               mkLines (default 0%Z (stats (Remote.detail root) ≫= additions))
                       (default 0%Z (stats (Remote.detail root) ≫= deletions)))) as Y.
  { unfold getLinesOfCode. rewrite lines_on.
    apply yields_given. apply yields_tryCatch.
    (* the head: the newest commit inside the range *)
    eapply yields_bind.
    { apply yields_withRetry. apply listing_payload; [reflexivity|assumption]. }
    intros endCommitsResponse evs1 [D1 ->]. rewrite D1. clear D1.
    cbn [lc_since lc_until lc_per_page lc_page].
    rewrite up_to_end_is_in_range.
    destruct (commitsInRange r) as [|newest older] eqn:H; [discriminate|].
    cbn [default Remote.pageOf Nat.sub Nat.mul drop take map].
    (* the base: no commit is before the start *)
    eapply yields_bind.
    { apply yields_withRetry. apply listing_payload; [reflexivity|assumption]. }
    intros baseCommitsResponse evs2 [D2 ->]. rewrite D2. clear D2.
    cbn [lc_since lc_until lc_per_page lc_page].
    rewrite filter_none.
    2:{ eapply Forall_impl; [exact none_before|]. intros c L. cbn beta in L.
        unfold Remote.inWindow. cbn. apply Z.leb_gt. lia. }
    cbn [Remote.pageOf default Nat.sub Nat.mul drop take map]. cbv zeta.
    (* the listing of the range fits on its first page, [root] last *)
    eapply yields_bind.
    { apply yields_withRetry. unfold rangeCommits.
      apply listing_payload; [reflexivity|assumption]. }
    intros firstCommitsResponse evs3 [D3 ->]. rewrite D3. clear D3.
    cbn [lc_since lc_until lc_per_page lc_page default].
    change (List.filter _ (Remote.history r)) with (commitsInRange r). rewrite H.
    unfold Remote.pageOf. cbn [Nat.sub Nat.mul]. rewrite drop_0.
    rewrite take_ge by exact one_page.
    rewrite (last_map Remote.listed _ oldest).
    (* its detail *)
    eapply yields_bind.
    { apply yields_withRetry with (d := Remote.detail root).
      unfold Remote.payload, Remote.inRepo. cbn. rewrite hosted.
      rewrite find_by_sha; [reflexivity|exact unique|exact Known]. }
    intros commitDetail evs4 [D4 ->]. rewrite D4. clear D4.
    destruct parentless as [-> | ->]; apply yields_ret; reflexivity. }
  intros s. destruct (Y s) as (lines & s' & evs & Run & _ & ->).
  exists s'. exact Run.
Qed.

End RootCommit.

End RemoteRuns.

(** ** The batch scheduler *)

Lemma batchAt_take_drop repos concurrency i :
  batchAt repos concurrency i = take concurrency (drop i repos).
Proof.
  unfold batchAt, slice.
  destruct (Nat.le_gt_cases i (length repos)) as [In|Out].
  - destruct (Nat.le_gt_cases (i + concurrency) (length repos)) as [Full|Short].
    + rewrite Nat.min_l by lia. f_equal. lia.
    + rewrite Nat.min_r by lia.
      rewrite !take_ge; [reflexivity|rewrite length_drop; lia..].
  - rewrite drop_ge by lia. rewrite !take_nil. reflexivity.
Qed.

Lemma batchAt_length repos concurrency i :
  length (batchAt repos concurrency i) <= concurrency.
Proof. rewrite batchAt_take_drop, length_take. lia. Qed.

Lemma batchAt_lookup repos concurrency i j :
  j < concurrency -> batchAt repos concurrency i !! j = repos !! (i + j).
Proof.
  intros H. rewrite batchAt_take_drop, lookup_take_lt by exact H.
  apply lookup_drop.
Qed.

(** The first [k] batches, one after the other, are the first
    [k * concurrency] repositories. *)
Lemma batches_concat repos concurrency k :
  concat (map (fun j => batchAt repos concurrency (j * concurrency)) (seq 0 k)) =
  take (k * concurrency) repos.
Proof.
  induction k as [|k IH]; [reflexivity|].
  rewrite seq_S, map_app, concat_app, IH. cbn [map concat Nat.add].
  rewrite app_nil_r, batchAt_take_drop.
  replace (S k * concurrency) with (k * concurrency + concurrency) by lia.
  rewrite <- take_take_drop. reflexivity.
Qed.

Lemma store_snoc results brs br :
  store results (brs ++ [br]) = <[index br := Some (br_stats br)]> (store results brs).
Proof. unfold store. rewrite foldl_app. reflexivity. Qed.

Lemma store_spec i brs :
  forall results,
    (forall j br, brs !! j = Some br -> index br = i + j) ->
    i + length brs <= length results ->
    length (store results brs) = length results /\
    (forall k, k < i -> store results brs !! k = results !! k) /\
    (forall j br, brs !! j = Some br ->
       store results brs !! (i + j) = Some (Some (br_stats br))).
Proof.
  induction brs as [|br brs IH] using rev_ind; intros results Ix Len.
  - cbn. repeat split; auto. intros j br E. rewrite lookup_nil in E. discriminate.
  - rewrite length_app in Len. cbn in Len.
    destruct (IH results) as (L & Low & At).
    { intros j br' E. apply Ix. rewrite lookup_app_l; [exact E|].
      eapply lookup_lt_Some; eauto. }
    { lia. }
    assert (index br = i + length brs) as Last.
    { apply Ix. rewrite lookup_app_r by lia. rewrite Nat.sub_diag. reflexivity. }
    rewrite store_snoc, Last. split; [|split].
    + rewrite length_insert. exact L.
    + intros k K. rewrite list_lookup_insert_ne by lia. apply Low, K.
    + intros j br' E.
      destruct (Nat.lt_ge_cases j (length brs)) as [Old|New].
      * rewrite lookup_app_l in E by exact Old.
        rewrite list_lookup_insert_ne by lia. apply At, E.
      * apply lookup_lt_Some in E as Bound. rewrite length_app in Bound. cbn in Bound.
        assert (j = length brs) as -> by lia.
        rewrite lookup_app_r, Nat.sub_diag in E by lia. injection E as <-.
        apply list_lookup_insert_eq. lia.
Qed.

Section SchedulerFacts.
Context {Env : Type} `{!Octokit Env}.
Variable config : Config.
Variable completion : nat -> list nat.
Variable fuel : nat.

Local Abbreviation collected := (collected config fuel).
Local Abbreviation settles := (settles config fuel).

Lemma getRepoStats_identity repoInfo (s : State Env) :
  match fst (getRepoStats config fuel repoInfo s) with
  | Return stats =>
      rs_name stats = name repoInfo /\ rs_isArchived stats = isArchived repoInfo
  | _ => True
  end.
Proof.
  unfold getRepoStats, bind.
  repeat match goal with
         | |- context [match ?m ?st with _ => _ end] =>
             lazymatch type of (m st) with
             | (Outcome _ * State _)%type => destruct (m st) as [[?|?|] ?]
             end
         | |- context [match ?x with Some _ => _ | None => _ end] => destruct x
         end; simpl; auto.
Qed.

Lemma collected_identity repo stats :
  collected repo stats ->
  rs_name stats = name repo /\ rs_isArchived stats = isArchived repo.
Proof.
  intros (s1 & s2 & Run). pose proof (getRepoStats_identity repo s1) as H.
  rewrite Run in H. exact H.
Qed.

(** *** Collections run one after the other *)

Lemma collectAt_cons repos i rest repo (s : State Env) stats s1 runs s2 :
  repos !! i = Some repo ->
  getRepoStats config fuel repo s = (Return stats, s1) ->
  collectAt config fuel repos rest s1 = (Return runs, s2) ->
  collectAt config fuel repos (i :: rest) s = (Return ((i, stats) :: runs), s2).
Proof.
  intros R G C. cbn [collectAt]. rewrite R.
  rewrite (bind_return _ _ _ G), (bind_return _ _ _ C). reflexivity.
Qed.

Lemma collectAt_inv repos i rest (s : State Env) runs s2 :
  collectAt config fuel repos (i :: rest) s = (Return runs, s2) ->
  match repos !! i with
  | Some repo =>
      exists stats s1 runs',
        getRepoStats config fuel repo s = (Return stats, s1) /\
        collectAt config fuel repos rest s1 = (Return runs', s2) /\
        runs = (i, stats) :: runs'
  | None => collectAt config fuel repos rest s = (Return runs, s2)
  end.
Proof.
  cbn [collectAt]. destruct (repos !! i) as [repo|]; [|auto].
  destruct (getRepoStats config fuel repo s) as [[stats|error|] s1] eqn:G.
  - rewrite (bind_return _ _ _ G).
    destruct (collectAt config fuel repos rest s1) as [[runs'|error|] s1'] eqn:C.
    + rewrite (bind_return _ _ _ C). intros [= <- <-]. eauto 7.
    + rewrite (bind_throw _ _ _ C). discriminate.
    + rewrite (bind_unfinished _ _ _ C). discriminate.
  - rewrite (bind_throw _ _ _ G). discriminate.
  - rewrite (bind_unfinished _ _ _ G). discriminate.
Qed.

Lemma collectAt_app repos l1 l2 :
  forall (s : State Env) runs1 s1 runs2 s2,
    collectAt config fuel repos l1 s = (Return runs1, s1) ->
    collectAt config fuel repos l2 s1 = (Return runs2, s2) ->
    collectAt config fuel repos (l1 ++ l2) s = (Return (runs1 ++ runs2), s2).
Proof.
  induction l1 as [|i l1 IH]; intros s runs1 s1 runs2 s2 E1 E2.
  - injection E1 as <- <-. exact E2.
  - apply collectAt_inv in E1. cbn [app].
    destruct (repos !! i) as [repo|] eqn:R.
    + destruct E1 as (stats & s0 & runs' & G & C & ->).
      cbn [app]. eapply collectAt_cons; eauto.
    + cbn [collectAt]. rewrite R. eapply IH; eauto.
Qed.

Lemma collectAt_collected repos positions :
  forall (s : State Env) runs s',
    collectAt config fuel repos positions s = (Return runs, s') ->
    forall i stats, (i, stats) ∈ runs ->
      exists repo, repos !! i = Some repo /\ collected repo stats.
Proof.
  induction positions as [|p rest IH]; intros s runs s' E i stats In.
  - injection E as <- _. inversion In.
  - apply collectAt_inv in E. destruct (repos !! p) as [repo|] eqn:R.
    + destruct E as (stats' & s0 & runs' & G & C & ->).
      apply elem_of_cons in In as [[= -> ->]|In].
      * exists repo. split; [exact R|]. exists s, s0. exact G.
      * eapply IH; eauto.
    + eapply IH; eauto.
Qed.

(** *** One batch *)

(** The promises of a batch, settling in any order without repetition, run
    the collections of the batch's repositories in that order, and each
    result lands in the slot of its own position. *)
Lemma settle_runs repos i batch order :
  (forall b, b < length batch -> batch !! b = repos !! (i + b)) ->
  Forall settles batch ->
  NoDup order ->
  Forall (fun b => b < length batch) order ->
  forall slots (s : State Env),
    length slots = length batch ->
    exists runs slots' s',
      collectAt config fuel repos (map (fun b => i + b) order) s = (Return runs, s') /\
      settle config fuel batch (imap (fun idx _ => i + idx) batch) order slots s =
        (Return slots', s') /\
      map fst runs = map (fun b => i + b) order /\
      length slots' = length batch /\
      (forall b, b ∉ order -> slots' !! b = slots !! b) /\
      (forall b stats, (i + b, stats) ∈ runs ->
         slots' !! b = Some (Some (mkBatchResult (i + b) stats))).
Proof.
  intros Same Ret. induction order as [|b rest IH]; intros ND Bound slots s Len.
  - exists [], slots, s. cbn. repeat split; auto. intros b stats In. inversion In.
  - apply NoDup_cons in ND as [Fresh ND]. apply Forall_cons in Bound as [Bb Bound].
    destruct (lookup_lt_is_Some_2 batch b Bb) as [repo B].
    assert (settles repo) as R by (eapply Forall_lookup_1; eauto).
    destruct (R s) as (stats & s1 & Run).
    destruct (IH ND Bound (<[b := Some (mkBatchResult (i + b) stats)]> slots) s1)
      as (runs & slots' & s' & C & E & Fst & L & Out & At).
    { rewrite length_insert. exact Len. }
    exists ((i + b, stats) :: runs), slots', s'. split; [|split].
    + cbn [map]. eapply collectAt_cons; eauto. rewrite <- (Same b Bb). exact B.
    + cbn [settle]. rewrite list_lookup_imap, B. cbn [fmap option_fmap option_map].
      rewrite (bind_return _ _ _ Run). exact E.
    + split; [cbn [map fst]; f_equal; exact Fst|]. split; [exact L|]. split.
      * intros b' N. apply not_elem_of_cons in N as [Ne N]. rewrite (Out b' N).
        apply list_lookup_insert_ne. congruence.
      * intros b' stats' In. apply elem_of_cons in In as [Eq|In].
        -- injection Eq as Eb <-. assert (b' = b) as -> by lia.
           rewrite (Out b Fresh). apply list_lookup_insert_eq. lia.
        -- apply At, In.
Qed.

Lemma promiseAll_runs repos concurrency i :
  Forall settles repos ->
  completion i ≡ₚ seq 0 (length (batchAt repos concurrency i)) ->
  forall s : State Env, exists runs brs s',
    collectAt config fuel repos (map (fun b => i + b) (completion i)) s =
      (Return runs, s') /\
    promiseAll config completion fuel i (batchAt repos concurrency i)
      (imap (fun idx _ => i + idx) (batchAt repos concurrency i)) s =
      (Return brs, s') /\
    map fst runs = map (fun b => i + b) (completion i) /\
    length brs = length (batchAt repos concurrency i) /\
    (forall j br, brs !! j = Some br -> index br = i + j) /\
    (forall b stats, (i + b, stats) ∈ runs ->
       brs !! b = Some (mkBatchResult (i + b) stats)).
Proof.
  intros Ret Perm s.
  pose proof (batchAt_length repos concurrency i) as Short.
  set (batch := batchAt repos concurrency i) in *.
  assert (Forall settles batch) as RetB.
  { unfold batch. rewrite batchAt_take_drop. apply Forall_take, Forall_drop, Ret. }
  assert (NoDup (completion i)) as ND by (rewrite Perm; apply NoDup_seq).
  assert (Forall (fun b => b < length batch) (completion i)) as Bound.
  { rewrite Perm. apply Forall_forall. intros b In. apply elem_of_seq in In. lia. }
  assert (forall b, b < length batch -> batch !! b = repos !! (i + b)) as Same.
  { intros b Bb. unfold batch. apply batchAt_lookup. lia. }
  destruct (settle_runs repos i Same RetB ND Bound
              (replicate (length batch) (@None BatchResult)) s
              (length_replicate _ _))
    as (runs & slots & s' & C & E & Fst & L & _ & At).
  unfold promiseAll. rewrite (bind_return _ _ _ E).
  assert (forall b, b < length batch -> exists stats, (i + b, stats) ∈ runs) as Ran.
  { intros b Bb. assert (i + b ∈ map fst runs) as In.
    { rewrite Fst. apply list_elem_of_fmap. exists b. split; [reflexivity|].
      rewrite Perm. apply elem_of_seq. lia. }
    apply list_elem_of_fmap in In as ([p stats] & Eq & In). cbn in Eq. subst p.
    exists stats. exact In. }
  destruct (mapM_is_Some_2 id slots) as [brs M].
  { apply Forall_lookup. intros j x H.
    assert (j < length batch) as Bj by (rewrite <- L; eapply lookup_lt_Some; eauto).
    destruct (Ran j Bj) as (stats & In). rewrite (At _ _ In) in H.
    injection H as <-. eexists. reflexivity. }
  rewrite M. exists runs, brs, s'. apply mapM_Some in M.
  assert (length brs = length batch) as LenB.
  { rewrite <- L. symmetry. eapply Forall2_length; eauto. }
  assert (forall b stats, (i + b, stats) ∈ runs ->
            brs !! b = Some (mkBatchResult (i + b) stats)) as AtB.
  { intros b stats In.
    destruct (Forall2_lookup_l _ _ _ _ _ M (At _ _ In)) as (br & Hbr & Id).
    cbn in Id. injection Id as <-. exact Hbr. }
  split; [exact C|]. split; [reflexivity|]. split; [exact Fst|].
  split; [exact LenB|]. split; [|exact AtB].
  intros j br Hbr.
  assert (j < length batch) as Bj by (rewrite <- LenB; eapply lookup_lt_Some; eauto).
  destruct (Ran j Bj) as (stats & In). rewrite (AtB _ _ In) in Hbr.
  injection Hbr as <-. reflexivity.
Qed.

(** *** The loop *)

Section Loop.
Variable repos : list RepoInfo.
Variable concurrency : nat.
Hypothesis positive : 0 < concurrency.
Hypothesis all_settle : Forall settles repos.
Hypothesis any_order :
  forall i, completion i ≡ₚ seq 0 (length (batchAt repos concurrency i)).

Local Abbreviation batchTotal := (batchCount (length repos) concurrency).

(** The loop cuts a batch at [j * concurrency] exactly for the [j] below the
    number of batches. *)
Lemma batchCount_spec j :
  j * concurrency < length repos <-> j < batchCount (length repos) concurrency.
Proof.
  unfold batchCount. split; intros H.
  - apply Nat.div_le_lower_bound; [lia|]. nia.
  - destruct (Nat.lt_ge_cases (j * concurrency) (length repos)) as [Lt|Ge];
      [exact Lt|exfalso].
    assert ((length repos + concurrency - 1) / concurrency < S j);
      [apply Nat.Div0.div_lt_upper_bound; nia|lia].
Qed.

Lemma batchAt_size i :
  length (batchAt repos concurrency i) = min concurrency (length repos - i).
Proof. rewrite batchAt_take_drop, length_take, length_drop. reflexivity. Qed.

Lemma turnOf_positions j :
  turnOf completion concurrency j ≡ₚ
  seq (j * concurrency) (min concurrency (length repos - j * concurrency)).
Proof.
  unfold turnOf. rewrite <- batchAt_size.
  transitivity (map (fun b => j * concurrency + b)
                    (seq 0 (length (batchAt repos concurrency (j * concurrency))))).
  - apply Permutation_map, any_order.
  - pose proof (fmap_add_seq (j * concurrency) 0
                  (length (batchAt repos concurrency (j * concurrency)))) as E.
    rewrite Nat.add_0_r in E. rewrite <- E. reflexivity.
Qed.

Lemma scheduleOf_covers m :
  scheduleOf completion concurrency (seq 0 m) ≡ₚ
  seq 0 (min (m * concurrency) (length repos)).
Proof.
  induction m as [|m IH]; [reflexivity|].
  unfold scheduleOf in *. rewrite seq_S, flat_map_app, IH. cbn [flat_map Nat.add].
  rewrite app_nil_r, turnOf_positions.
  destruct (Nat.le_gt_cases (m * concurrency) (length repos)) as [In|Out].
  - rewrite (Nat.min_l (m * concurrency)) by exact In.
    rewrite <- seq_app.
    replace (m * concurrency + min concurrency (length repos - m * concurrency))
      with (min (S m * concurrency) (length repos)) by lia.
    reflexivity.
  - replace (min concurrency (length repos - m * concurrency)) with 0 by lia.
    replace (min (S m * concurrency) (length repos))
      with (min (m * concurrency) (length repos)) by lia.
    cbn [seq]. rewrite app_nil_r. reflexivity.
Qed.

(** From batch [j] on, the loop runs the collections at the positions of the
    schedule, in that order and nothing else, and stores each result at its
    position; what the earlier batches stored is left alone. *)
Lemma batchLoop_runs turns :
  forall j results (s : State Env),
    j <= batchTotal ->
    batchTotal - j < turns ->
    length results = length repos ->
    exists runs results' s',
      collectAt config fuel repos
        (scheduleOf completion concurrency (seq j (batchTotal - j))) s =
        (Return runs, s') /\
      batchLoop config completion fuel turns repos concurrency (j * concurrency)
        results s = (Return results', s') /\
      map fst runs = scheduleOf completion concurrency (seq j (batchTotal - j)) /\
      length results' = length repos /\
      (forall p, p < j * concurrency -> results' !! p = results !! p) /\
      (forall p stats, (p, stats) ∈ runs -> results' !! p = Some (Some stats)).
Proof.
  induction turns as [|turns IH]; intros j results s Jk Turns Len; [lia|].
  cbn [batchLoop].
  destruct (Nat.ltb_spec (j * concurrency) (length repos)) as [In|Out].
  - apply batchCount_spec in In as Jlt.
    replace (batchTotal - j) with (S (batchTotal - S j)) by lia.
    unfold scheduleOf. cbn [seq flat_map]. fold (scheduleOf completion concurrency).
    destruct (@promiseAll_runs repos concurrency (j * concurrency)
                all_settle (any_order _) s)
      as (runs1 & brs & s1 & C1 & P & Fst1 & LenB & Ix & AtB).
    rewrite (bind_return _ _ _ P).
    rewrite batchAt_size in LenB.
    destruct (store_spec (j * concurrency) brs results Ix) as (LenS & Low & At);
      [lia|].
    destruct (IH (S j) (store results brs) s1)
      as (runs2 & results' & s' & C2 & L & Fst2 & Len' & Low' & At');
      [lia|lia|congruence|].
    replace (S j * concurrency) with (j * concurrency + concurrency) in L, Low'
      by lia.
    exists (runs1 ++ runs2), results', s'.
    split; [eapply collectAt_app; eauto|]. split; [exact L|].
    split; [rewrite map_app, Fst1, Fst2; reflexivity|]. split; [exact Len'|]. split.
    + intros p Hp. rewrite Low' by lia. apply Low, Hp.
    + intros p stats In'. apply elem_of_app in In' as [In1|In2]; [|apply At', In2].
      assert (p ∈ map fst runs1) as Pos.
      { apply list_elem_of_fmap. exists (p, stats). split; [reflexivity|exact In1]. }
      rewrite Fst1 in Pos. apply list_elem_of_fmap in Pos as (b & -> & Inb).
      rewrite (any_order (j * concurrency)), batchAt_size in Inb.
      apply elem_of_seq in Inb.
      rewrite Low' by lia.
      apply (At b (mkBatchResult (j * concurrency + b) stats)), AtB, In1.
  - assert (j = batchTotal) as ->.
    { destruct (Nat.lt_ge_cases j batchTotal) as [Lt|Ge]; [|lia].
      apply batchCount_spec in Lt. lia. }
    rewrite Nat.sub_diag. exists [], results, s. cbn.
    repeat split; auto. intros p stats In. inversion In.
Qed.

End Loop.

(** C8. For a concurrency limit of at least 1, whatever the order in which
    the collections of a batch settle.

    The loop cuts the input into [batchCount] batches, batch [j] being the
    repositories from position [j * concurrency] on, at least one and at most
    [concurrency] of them; the batches, one after the other, are the input
    list.  The positions taken in the order in which the collections settle
    (batch after batch, inside a batch in completion order) are a
    rearrangement of [0 .. length repos - 1]: every repository is collected,
    and only once.

    When every collection returns, [processRepos] does what running these
    collections one after the other does: it ends in the same state, so it
    has sent the same requests in the same order and nothing more.  It
    returns an array as long as the input, and the statistics that the
    collection of position [i] returned are in slot [i], whatever the place
    of that collection in the completion order; they carry the name and the
    archived flag of the repository at position [i]. *)
Theorem processRepos_order (repos : list RepoInfo) (concurrency : nat) :
  0 < concurrency ->
  length repos < fuel ->
  Forall settles repos ->
  (forall i, completion i ≡ₚ seq 0 (length (batchAt repos concurrency i))) ->
  concat (map (fun j => batchAt repos concurrency (j * concurrency))
              (seq 0 (batchCount (length repos) concurrency))) = repos /\
  (forall j, j < batchCount (length repos) concurrency ->
     batchAt repos concurrency (j * concurrency) =
       take concurrency (drop (j * concurrency) repos) /\
     1 <= length (batchAt repos concurrency (j * concurrency)) <= concurrency) /\
  (forall j, j * concurrency < length repos <->
             j < batchCount (length repos) concurrency) /\
  schedule completion (length repos) concurrency ≡ₚ seq 0 (length repos) /\
  forall s : State Env, exists runs results s',
    collectAt config fuel repos (schedule completion (length repos) concurrency) s =
      (Return runs, s') /\
    processRepos config completion fuel repos concurrency s = (Return results, s') /\
    map fst runs = schedule completion (length repos) concurrency /\
    length results = length repos /\
    (forall i stats, (i, stats) ∈ runs -> results !! i = Some (Some stats)) /\
    forall i repo, repos !! i = Some repo ->
      exists stats,
        (i, stats) ∈ runs /\
        results !! i = Some (Some stats) /\
        collected repo stats /\
        rs_name stats = name repo /\ rs_isArchived stats = isArchived repo.
Proof.
  intros Pos Fuel Ret Perm.
  pose proof (batchCount_spec repos Pos) as Count.
  assert (length repos <= batchCount (length repos) concurrency * concurrency)
    as Enough.
  { destruct (Nat.le_gt_cases (length repos)
                (batchCount (length repos) concurrency * concurrency)) as [Le|Gt];
      [exact Le|].
    apply Count in Gt. lia. }
  assert (batchCount (length repos) concurrency <= length repos) as Few.
  { destruct (Nat.le_gt_cases (batchCount (length repos) concurrency)
                (length repos)) as [Le|Gt]; [exact Le|].
    apply Count in Gt. nia. }
  assert (schedule completion (length repos) concurrency ≡ₚ seq 0 (length repos))
    as Cover.
  { unfold schedule. rewrite (@scheduleOf_covers repos concurrency Pos Perm).
    rewrite Nat.min_r by exact Enough. reflexivity. }
  split; [|split; [|split; [|split]]].
  - rewrite batches_concat. apply take_ge. exact Enough.
  - intros j J. split; [apply batchAt_take_drop|].
    apply Count in J. rewrite batchAt_size. lia.
  - exact Count.
  - exact Cover.
  - intros s. unfold processRepos.
    destruct (@batchLoop_runs repos concurrency Pos Ret Perm fuel 0
                (replicate (length repos) None) s)
      as (runs & results & s' & C & Run & Fst & Len & _ & At).
    { lia. }
    { lia. }
    { apply length_replicate. }
    rewrite Nat.sub_0_r in C, Fst. fold (schedule completion (length repos) concurrency) in C, Fst.
    exists runs, results, s'. split; [exact C|]. split; [exact Run|].
    split; [exact Fst|]. split; [exact Len|]. split; [exact At|].
    intros i repo R.
    assert (i ∈ map fst runs) as In.
    { rewrite Fst, Cover. apply elem_of_seq. apply lookup_lt_Some in R. lia. }
    apply list_elem_of_fmap in In as ([p stats] & Eq & In). cbn in Eq. subst p.
    destruct (collectAt_collected _ _ _ C In) as (repo' & R' & Col).
    rewrite R in R'. injection R' as <-.
    exists stats. split; [exact In|]. split; [apply At, In|]. split; [exact Col|].
    apply collected_identity, Col.
Qed.

(** With a concurrency limit of 0 every batch is empty and the loop never
    advances: no amount of fuel brings [processRepos] to an end. *)
Lemma processRepos_stalls (repos : list RepoInfo) (s : State Env) :
  repos <> [] ->
  fst (processRepos config completion fuel repos 0 s) = Unfinished.
Proof.
  intros N. unfold processRepos.
  generalize (replicate (length repos) (@None RepoStats)) as results.
  generalize fuel at 2 as turns.
  induction turns as [|turns IH]; intros results; [reflexivity|].
  cbn [batchLoop].
  destruct (Nat.ltb_spec 0 (length repos)) as [_|E];
    [|destruct repos; [contradiction|cbn in E; lia]].
  assert (batchAt repos 0 0 = []) as -> by (rewrite batchAt_take_drop; reflexivity).
  assert (forall order slots,
            settle config fuel (@nil RepoInfo)
                   (imap (fun idx _ => 0 + idx) (@nil RepoInfo)) order slots s =
            (Return slots, s)) as Idle.
  { induction order as [|b order IHo]; intros slots; [reflexivity|].
    cbn [settle]. rewrite lookup_nil. apply IHo. }
  assert (promiseAll config completion fuel 0 (@nil RepoInfo)
                     (imap (fun idx _ => 0 + idx) (@nil RepoInfo)) s =
          (Return [], s)) as Batch.
  { unfold promiseAll. rewrite (bind_return _ _ _ (Idle _ _)). reflexivity. }
  rewrite (bind_return _ _ _ Batch). cbn [store foldl Nat.add]. apply IH.
Qed.

End SchedulerFacts.

(** ** What one retried operation costs and changes *)

Lemma calls_app j1 j2 : calls (j1 ++ j2) = calls j1 + calls j2.
Proof. unfold calls. rewrite List.filter_app, length_app. reflexivity. Qed.

Lemma delayMs_bounds attempt error :
  1 <= attempt <= 2 -> (1000 <= delayMs attempt error <= 60000)%Z.
Proof.
  intros B. assert (attempt = 1 \/ attempt = 2) as [-> | ->] by lia;
    unfold delayMs, INITIAL_RETRY_DELAY_MS;
    destruct (status error) as [st|]; try destruct (st =? 403)%Z;
    change (2 ^ (Z.of_nat 1 - 1))%Z with 1%Z;
    change (2 ^ (Z.of_nat 2 - 1))%Z with 2%Z; lia.
Qed.

Section RetryBounds.
Context {Env : Type} `{!Octokit Env}.

Lemma checkRateLimit_effect repoName (s : State Env) :
  snd (checkRateLimit repoName s) = s \/
  exists ms, (5000 <= ms < 3600000)%Z /\
             snd (checkRateLimit repoName s) = afterSleep ms s.
Proof.
  unfold checkRateLimit. cbv zeta.
  destruct (_ <? 100)%Z; [|left; reflexivity].
  set (wait := (Z.max 0 (rateLimitReset s - date_now (env s) / 1000) + 5)%Z).
  destruct (Z.ltb_spec 0 wait); cbn [andb]; [|left; reflexivity].
  destruct (Z.ltb_spec wait 3600); [|left; reflexivity].
  right. exists (wait * 1000)%Z. split; [unfold wait; lia|reflexivity].
Qed.

(** The loop of [withRetry] entered at any attempt: what it adds to the
    journal and what it does to the client's fields. *)
Lemma attemptLoop_effects {T} (operation : Request T) repoName operationName remaining :
  forall attempt lastError (s : State Env),
    remaining + attempt = 4 -> 1 <= attempt <= 3 ->
    let run := attemptLoop remaining attempt lastError operation
                 repoName operationName s in
    exists evs,
      journal (snd run) = journal s ++ evs /\
      1 <= calls evs <= remaining /\
      Forall (attemptOf operation) evs /\
      repoBranchCache (snd run) = repoBranchCache s /\
      match fst run with
      | Return r =>
          rateLimitRemaining (snd run) =
            default (rateLimitRemaining s) (x_ratelimit_remaining (headers r)) /\
          rateLimitReset (snd run) =
            default (rateLimitReset s) (x_ratelimit_reset (headers r))
      | Throw error =>
          rateLimitRemaining (snd run) = rateLimitRemaining s /\
          rateLimitReset (snd run) = rateLimitReset s
      | Unfinished => False
      end.
Proof.
  induction remaining as [|remaining IH]; intros attempt lastError s Sum Pos; [lia|].
  cbv zeta.
  destruct (send operation (env s)) as [[r|error] env'] eqn:E.
  - erewrite attemptLoop_resolved by exact E. cbn [fst snd journal repoBranchCache
      rateLimitRemaining rateLimitReset].
    exists [Called operation None]. repeat split; try reflexivity; try (cbn; lia).
    constructor; [cbn; eauto|constructor].
  - assert (forall s', s' = afterCall operation (Some error) env' s ->
              exists evs,
                journal s' = journal s ++ evs /\ 1 <= calls evs <= S remaining /\
                Forall (attemptOf operation) evs /\
                repoBranchCache s' = repoBranchCache s /\
                rateLimitRemaining s' = rateLimitRemaining s /\
                rateLimitReset s' = rateLimitReset s) as Thrown.
    { intros s' ->. exists [Called operation (Some error)].
      repeat split; try reflexivity; try (cbn; lia).
      constructor; [cbn; eauto|constructor]. }
    destruct (isRetryableError error) eqn:R;
      [destruct (Nat.eq_dec attempt MAX_RETRIES) as [Last|More]|].
    + erewrite attemptLoop_throw; [|exact E|right; exact Last].
      cbn [fst snd]. destruct (Thrown _ eq_refl) as (evs & ? & ? & ? & ? & ? & ?).
      exists evs. auto 10.
    + erewrite attemptLoop_retry; [|exact E|exact R|exact More].
      unfold MAX_RETRIES in More.
      destruct (IH (S attempt) (Some error)
                   (afterSleep (delayMs attempt error)
                      (afterCall operation (Some error) env' s)))
        as (evs & J & C & A & B & O); [lia|lia|].
      exists ([Called operation (Some error); Slept (delayMs attempt error)] ++ evs).
      split; [|split; [|split; [|split]]].
      * rewrite J. cbn [journal afterSleep afterCall].
        rewrite <- !app_assoc. reflexivity.
      * rewrite calls_app. cbn. lia.
      * apply Forall_app. split; [|exact A].
        constructor; [cbn; eauto|]. constructor; [|constructor].
        cbn. pose proof (@delayMs_bounds attempt error). lia.
      * rewrite B. reflexivity.
      * exact O.
    + erewrite attemptLoop_throw; [|exact E|left; exact R].
      cbn [fst snd]. destruct (Thrown _ eq_refl) as (evs & ? & ? & ? & ? & ? & ?).
      exists evs. auto 10.
Qed.

Lemma withRetry_effects {T} (operation : Request T) repoName operationName
    (s : State Env) :
  let run := withRetry operation repoName operationName s in
  exists evs,
    journal (snd run) = journal s ++ evs /\
    1 <= calls evs <= 3 /\
    Forall (attemptOf operation) evs /\
    repoBranchCache (snd run) = repoBranchCache s /\
    match fst run with
    | Return r =>
        rateLimitRemaining (snd run) =
          default (rateLimitRemaining s) (x_ratelimit_remaining (headers r)) /\
        rateLimitReset (snd run) =
          default (rateLimitReset s) (x_ratelimit_reset (headers r))
    | Throw error =>
        rateLimitRemaining (snd run) = rateLimitRemaining s /\
        rateLimitReset (snd run) = rateLimitReset s
    | Unfinished => False
    end.
Proof.
  cbv zeta. rewrite withRetry_unfold.
  set (s0 := snd (checkRateLimit repoName s)).
  destruct (@attemptLoop_effects _ operation repoName operationName 3
              1 None s0) as (evs & J & C & A & B & O); [reflexivity|lia|].
  assert (exists pre,
            journal s0 = journal s ++ pre /\ calls pre = 0 /\
            Forall (attemptOf operation) pre /\
            repoBranchCache s0 = repoBranchCache s /\
            rateLimitRemaining s0 = rateLimitRemaining s /\
            rateLimitReset s0 = rateLimitReset s) as (pre & J0 & C0 & A0 & B0 & Q0 & R0).
  { destruct (checkRateLimit_effect repoName s) as [Same | (ms & Bd & Woke)];
      fold s0 in Same || fold s0 in Woke.
    - exists []. rewrite Same, app_nil_r. repeat split; auto.
    - exists [Slept ms]. rewrite Woke. repeat split; auto.
      constructor; [cbn; lia|constructor]. }
  exists (pre ++ evs). rewrite calls_app, app_assoc, <- J0, C0, <- B0, <- Q0, <- R0.
  split; [exact J|]. split; [exact C|].
  split; [apply Forall_app; auto|]. split; [exact B|exact O].
Qed.

(** X1. Whatever the transport does, one call of [withRetry] comes to an
    end having sent its request at least once and at most three times and
    nothing else, and no single sleep of it is shorter than a second or as
    long as an hour. *)
Theorem withRetry_attempts {T} (operation : Request T) repoName operationName
    (s : State Env) :
  let run := withRetry operation repoName operationName s in
  fst run <> Unfinished /\
  exists evs,
    journal (snd run) = journal s ++ evs /\
    1 <= calls evs <= 3 /\
    Forall (attemptOf operation) evs.
Proof.
  cbv zeta.
  destruct (withRetry_effects operation repoName operationName s)
    as (evs & J & C & A & _ & O).
  split; [intros U; rewrite U in O; exact O|].
  exists evs. auto.
Qed.

(** X2. [withRetry] never touches the branch cache.  The quota fields move
    only when it returns, and then to the header values of the response it
    returns (a missing header leaving the field as it was), which is what
    [getRateLimitRemaining] reports afterwards; when it throws, they are
    what they were, whatever the rejected responses said. *)
Theorem withRetry_quota {T} (operation : Request T) repoName operationName
    (s : State Env) :
  let run := withRetry operation repoName operationName s in
  repoBranchCache (snd run) = repoBranchCache s /\
  match fst run with
  | Return r =>
      fst (getRateLimitRemaining (snd run)) =
        Return (default (rateLimitRemaining s) (x_ratelimit_remaining (headers r))) /\
      rateLimitReset (snd run) =
        default (rateLimitReset s) (x_ratelimit_reset (headers r))
  | _ =>
      fst (getRateLimitRemaining (snd run)) = Return (rateLimitRemaining s) /\
      rateLimitReset (snd run) = rateLimitReset s
  end.
Proof.
  cbv zeta.
  destruct (withRetry_effects operation repoName operationName s)
    as (evs & _ & _ & _ & B & O).
  split; [exact B|]. unfold getRateLimitRemaining. cbn [fst].
  destruct (fst (withRetry operation repoName operationName s));
    [|destruct O as [-> ->]; auto|contradiction].
  destruct O as [-> ->]. auto.
Qed.

(** X3. A retryable rejection followed by a success is invisible to the
    caller: [withRetry] returns the response of the first attempt that
    resolves, after one backoff sleep per failed attempt. *)
Theorem withRetry_recovers {T} (operation : Request T) repoName operationName
    (s : State Env) error1 env1 :
  let s0 := snd (checkRateLimit repoName s) in
  let s1 := afterSleep (delayMs 1 error1)
              (afterCall operation (Some error1) env1 s0) in
  let run := withRetry operation repoName operationName s in
  send operation (env s0) = (Rejected error1, env1) ->
  isRetryableError error1 = true ->
  (forall r env2,
     send operation (env s1) = (Resolved r, env2) ->
     fst run = Return r /\
     journal (snd run) =
       journal s0 ++ [Called operation (Some error1); Slept (delayMs 1 error1);
                      Called operation None]) /\
  (forall error2 env2 r env3,
     send operation (env s1) = (Rejected error2, env2) ->
     isRetryableError error2 = true ->
     send operation
          (env (afterSleep (delayMs 2 error2)
                  (afterCall operation (Some error2) env2 s1))) =
       (Resolved r, env3) ->
     fst run = Return r /\
     journal (snd run) =
       journal s0 ++ [Called operation (Some error1); Slept (delayMs 1 error1);
                      Called operation (Some error2); Slept (delayMs 2 error2);
                      Called operation None]).
Proof.
  intros s0 s1 run E1 R1. unfold run. rewrite withRetry_unfold. fold s0.
  erewrite attemptLoop_retry; [|exact E1|exact R1|unfold MAX_RETRIES; lia].
  fold s1. split.
  - intros r env2 E2. erewrite attemptLoop_resolved by exact E2.
    cbn [fst snd journal]. split; [reflexivity|].
    unfold s1. cbn [journal afterSleep afterCall]. rewrite <- !app_assoc. reflexivity.
  - intros error2 env2 r env3 E2 R2 E3.
    erewrite attemptLoop_retry; [|exact E2|exact R2|unfold MAX_RETRIES; lia].
    erewrite attemptLoop_resolved by exact E3.
    cbn [fst snd journal]. split; [reflexivity|].
    unfold s1. cbn [journal afterSleep afterCall]. rewrite <- !app_assoc. reflexivity.
Qed.

End RetryBounds.

(** ** The collectors' own [catch] blocks *)

Section StatusHandlers.
Context {Env : Type} `{!Octokit Env}.
Variable config : Config.
Variable repoName : string.

(** X4. The [catch] blocks of [getCommitCount], [getContributors] and
    [getLinesOfCode] that look for a status of 409 (or 404) on the error
    never turn a failure into a result: what reaches them is the wrapper,
    which has no status of its own.  When one of these functions returns,
    every rejection it met was retryable (and retried); when it throws, it
    throws the wrapped rejection of its last request. *)
Theorem status_handlers_never_fire (fuel : nat) (branch : option string) :
  tracks transient (wrapped repoName) (getCommitCount config fuel repoName branch) /\
  tracks transient (wrapped repoName) (getContributors config fuel repoName branch) /\
  tracks transient (wrapped repoName) (getLinesOfCode config repoName branch).
Proof.
  assert (forall ms, transient (Slept ms)) as Sl by (intros ms e [=]).
  assert (forall error last,
            wrapped repoName error last ->
            ownStatus error = None \/ transient last) as Ca
    by (intros error last W; left; eapply wrapped_ownStatus; eauto).
  assert (forall operationName T (operation : Request T), True ->
            provides transient (wrapped repoName) repoName operationName operation)
    as Pr by (intros; apply transient_provides).
  repeat split.
  - apply getCommitCount_tracks with (uses := fun _ _ => True); auto.
  - apply getContributors_tracks with (uses := fun _ _ => True); auto.
  - apply getLinesOfCode_tracks with (uses := fun _ _ => True); auto.
Qed.

(** X5. [getReleaseCount] never throws.  When the listing of any page
    fails, whatever the error, the result is 0: the releases counted on the
    pages before are dropped. *)
Theorem getReleaseCount_never_throws (fuel : nat) :
  (forall (s : State Env) error,
     fst (getReleaseCount config fuel repoName s) <> Throw error) /\
  (forall count page (s : State Env) error s',
     withRetry (ReposListReleases (organization config) repoName
                  (pageSize config) page)
               repoName "fetching releases" s = (Throw error, s') ->
     releasePage config repoName (count, page) s = (Return (Finish 0), s') /\
     forall fuel', whileTrue (S fuel') (releasePage config repoName) (count, page) s =
                   (Return 0, s')).
Proof.
  split.
  - intros s error Run.
    assert (tracks (fun _ => True) (fun _ _ => False)
              (getReleaseCount config fuel repoName)) as Tr
      by (apply getReleaseCount_tracks; auto).
    destruct (Tr s) as (evs & _ & V). rewrite Run in V.
    destruct V as (_ & _ & _ & _ & []).
  - intros count page s error s' Run.
    assert (releasePage config repoName (count, page) s = (Return (Finish 0), s')) as P.
    { cbn [releasePage]. erewrite tryCatch_throw; [reflexivity|].
      erewrite bind_throw; [reflexivity|exact Run]. }
    split; [exact P|]. intros fuel'. cbn [whileTrue].
    erewrite bind_return by exact P. reflexivity.
Qed.

End StatusHandlers.

(** ** The branch cache *)

Section BranchCache.
Context {Env : Type} `{!Octokit Env}.
Variable config : Config.
Variable repoName : string.

Lemma getDefaultBranch_hit (s : State Env) b :
  repoBranchCache s !! repoName = Some b -> truthy b = true ->
  getDefaultBranch config repoName s = (Return b, s).
Proof. intros C Tr. unfold getDefaultBranch. rewrite C, Tr. reflexivity. Qed.

(** What a lookup that goes to the remote does. *)
Lemma getDefaultBranch_miss (s : State Env) :
  (forall b, repoBranchCache s !! repoName = Some b -> truthy b = false) ->
  let run := getDefaultBranch config repoName s in
  (exists evs, journal (snd run) = journal s ++ evs /\ 1 <= calls evs <= 3) /\
  match fst run with
  | Return b => repoBranchCache (snd run) = <[repoName := b]> (repoBranchCache s)
  | _ => repoBranchCache (snd run) = repoBranchCache s
  end.
Proof.
  intros Miss. cbv zeta.
  assert (getDefaultBranch config repoName s =
          (response <- withRetry (ReposGet (organization config) repoName)
                                 repoName "fetching default branch" ;;
           updateRateLimit (headers response) ;;;
           cacheBranch repoName (default_branch (data response)) ;;;
           ret (default_branch (data response))) s) as ->.
  { unfold getDefaultBranch.
    destruct (repoBranchCache s !! repoName) as [b|] eqn:C; [|reflexivity].
    rewrite (Miss b eq_refl). reflexivity. }
  destruct (withRetry_effects (ReposGet (organization config) repoName)
              repoName "fetching default branch" s) as (evs & J & C & _ & B & _).
  destruct (withRetry (ReposGet (organization config) repoName) repoName
              "fetching default branch" s) as [[response|error|] s1] eqn:W;
    cbn [fst snd] in *.
  - rewrite (bind_return _ _ _ W).
    unfold bind, updateRateLimit, cacheBranch, ret.
    cbn [fst snd journal repoBranchCache].
    split; [exists evs; split; [exact J|exact C]|]. rewrite B. reflexivity.
  - rewrite (bind_throw _ _ _ W). cbn [fst snd].
    split; [exists evs; split; [exact J|exact C]|]. exact B.
  - rewrite (bind_unfinished _ _ _ W). cbn [fst snd].
    split; [exists evs; split; [exact J|exact C]|]. exact B.
Qed.

(** X6. A successful lookup of the default branch leaves the branch in the
    cache under the repository's name, and a lookup that fails leaves the
    cache as it was.  After a successful lookup of a non-empty branch name
    the next lookup returns the same name without touching the remote or
    the state. *)
Theorem getDefaultBranch_memoizes (s : State Env) :
  let run := getDefaultBranch config repoName s in
  match fst run with
  | Return b =>
      repoBranchCache (snd run) = <[repoName := b]> (repoBranchCache s) /\
      (truthy b = true ->
       getDefaultBranch config repoName (snd run) = (Return b, snd run))
  | _ => repoBranchCache (snd run) = repoBranchCache s
  end.
Proof.
  cbv zeta.
  destruct (repoBranchCache s !! repoName) as [cached|] eqn:C;
    [destruct (truthy cached) eqn:Tr|].
  - rewrite (getDefaultBranch_hit _ C Tr). cbn [fst snd].
    split; [symmetry; apply insert_id; exact C|].
    intros _. apply getDefaultBranch_hit; assumption.
  - destruct (getDefaultBranch_miss s) as [_ M].
    { intros b E. congruence. }
    destruct (fst (getDefaultBranch config repoName s)) as [b| |]; auto.
    split; [exact M|]. intros T. apply getDefaultBranch_hit; [|exact T].
    rewrite M. apply lookup_insert_eq.
  - destruct (getDefaultBranch_miss s) as [_ M].
    { intros b E. congruence. }
    destruct (fst (getDefaultBranch config repoName s)) as [b| |]; auto.
    split; [exact M|]. intros T. apply getDefaultBranch_hit; [|exact T].
    rewrite M. apply lookup_insert_eq.
Qed.

(** X7. After [clearBranchCache] the next lookup of a default branch goes
    to the remote, whatever was cached before: it sends between one and three
    requests.  An empty branch name in the cache has the same effect as no
    entry. *)
Theorem clearBranchCache_refetches (s : State Env) :
  (let run := (clearBranchCache ;;; getDefaultBranch config repoName) s in
   exists evs, journal (snd run) = journal s ++ evs /\ 1 <= calls evs <= 3) /\
  (repoBranchCache s !! repoName = Some "" ->
   let run := getDefaultBranch config repoName s in
   exists evs, journal (snd run) = journal s ++ evs /\ 1 <= calls evs <= 3).
Proof.
  split.
  - cbv zeta. unfold bind at 1. cbn [clearBranchCache].
    set (s0 := mkState _ _ _ _ _).
    destruct (getDefaultBranch_miss s0) as [Sent _].
    { intros b E. unfold s0 in E. cbn in E. rewrite lookup_empty in E. discriminate. }
    exact Sent.
  - intros C. destruct (getDefaultBranch_miss s) as [Sent _]; [|exact Sent].
    intros b E. rewrite C in E. injection E as <-. reflexivity.
Qed.

End BranchCache.

(** ** What the collectors return *)

Section Ensures.
Context {Env : Type}.

Lemma ensures_ret {A} (a : A) (Q : A -> Prop) : Q a -> ensures (@ret Env A a) Q.
Proof. intros H s. exact H. Qed.

Lemma ensures_throw {A} error (Q : A -> Prop) : ensures (@throw Env A error) Q.
Proof. intros s. exact I. Qed.

Lemma ensures_unfinished {A} (Q : A -> Prop) : ensures (@unfinished Env A) Q.
Proof. intros s. exact I. Qed.

Lemma ensures_bind {A B} (m : M Env A) (f : A -> M Env B) (Q1 : A -> Prop)
    (Q2 : B -> Prop) :
  ensures m Q1 -> (forall a, Q1 a -> ensures (f a) Q2) -> ensures (bind m f) Q2.
Proof.
  intros Hm Hf s. specialize (Hm s). unfold bind.
  destruct (m s) as [[a|error|] s1]; cbn [fst] in *; auto.
  apply Hf. exact Hm.
Qed.

Lemma ensures_any {A} (m : M Env A) : ensures m (fun _ => True).
Proof. intros s. destruct (fst (m s)); exact I. Qed.

Lemma ensures_tryCatch {A} (m : M Env A) handler (Q : A -> Prop) :
  ensures m Q -> (forall error, ensures (handler error) Q) ->
  ensures (tryCatch m handler) Q.
Proof.
  intros Hm Hh s. specialize (Hm s). unfold tryCatch.
  destruct (m s) as [[a|error|] s1]; cbn [fst] in *; auto.
  apply Hh.
Qed.

Lemma ensures_whileTrue {St R} (Inv : St -> Prop) (Q : R -> Prop) fuel
    (body : St -> M Env (Step St R)) :
  (forall st, Inv st ->
     ensures (body st)
       (fun step => match step with Continue st' => Inv st' | Finish r => Q r end)) ->
  forall st, Inv st -> ensures (whileTrue fuel body st) Q.
Proof.
  intros Hb. induction fuel as [|fuel IH]; intros st I0; cbn [whileTrue].
  - apply ensures_unfinished.
  - eapply ensures_bind; [apply Hb, I0|].
    intros [st'|r] H; [apply IH, H|apply ensures_ret, H].
Qed.

End Ensures.

Lemma setAdd_identities a l :
  truthy a = true -> identities l -> identities (setAdd a l).
Proof.
  intros Tr [N F]. unfold setAdd. case_bool_decide as In; [split; assumption|].
  split.
  - apply NoDup_app. split; [exact N|]. split; [|apply NoDup_singleton].
    intros x Hx Hx'. apply list_elem_of_singleton in Hx'. subst. contradiction.
  - apply Forall_app. split; [exact F|]. constructor; [exact Tr|constructor].
Qed.

Lemma scanAuthors_identities page :
  forall l, identities l -> identities (scanAuthors page l).
Proof.
  induction page as [|commit rest IH]; intros l H; cbn [scanAuthors]; [exact H|].
  apply IH.
  destruct (author_login commit) as [login|];
    [|destruct (commit_author_email commit) as [email|]]; try exact H.
  - destruct (truthy login) eqn:Tr; [apply setAdd_identities; assumption|exact H].
  - destruct (truthy email) eqn:Tr; [apply setAdd_identities; assumption|exact H].
Qed.

Section Returned.
Context {Env : Type} `{!Octokit Env}.
Variable config : Config.

Lemma getContributors_identities (fuel : nat) repoName (branch : option string) :
  ensures (getContributors config fuel repoName branch) identities.
Proof.
  assert (identities []) as Nil by (split; constructor).
  unfold getContributors.
  eapply ensures_bind; [apply ensures_any|]. intros targetBranch _.
  apply ensures_whileTrue with (Inv := fun st => identities (fst st)); [|exact Nil].
  intros [contributors page] Inv. cbn [fst] in Inv. cbn [contributorsPage].
  apply ensures_tryCatch.
  - eapply ensures_bind; [apply ensures_any|]. intros response _.
    destruct (length (data response) =? 0); [apply ensures_ret, Inv|].
    destruct (length (data response) <? pageSize config);
      apply ensures_ret; cbn [fst]; apply scanAuthors_identities, Inv.
  - intros error. destruct (ownStatus error) as [st|]; [|apply ensures_throw].
    destruct (st =? 409)%Z; [apply ensures_ret, Nil|apply ensures_throw].
Qed.

(** X8. Whatever the transport answers, the list [getContributors] returns
    has no duplicate and no empty identity: each author is counted once,
    however many commits and pages name them. *)
Theorem getContributors_distinct (fuel : nat) repoName (branch : option string)
    (s : State Env) :
  match fst (getContributors config fuel repoName branch s) with
  | Return contributorsList =>
      NoDup contributorsList /\ ("" ∉ contributorsList)
  | _ => True
  end.
Proof.
  pose proof (getContributors_identities fuel repoName branch s) as H.
  destruct (fst _) as [l| |]; auto.
  destruct H as [N F]. split; [exact N|].
  intros In. rewrite Forall_forall in F. specialize (F _ In). discriminate.
Qed.

Lemma getRepoStats_ensures (fuel : nat) (repoInfo : RepoInfo) :
  ensures (getRepoStats config fuel repoInfo)
    (fun stats =>
       totalLines stats = (linesAdded stats - linesDeleted stats)%Z /\
       contributors stats = length (contributorsList stats) /\
       identities (contributorsList stats) /\
       (skipLineStats config = true ->
        linesAdded stats = 0%Z /\ linesDeleted stats = 0%Z /\ totalLines stats = 0%Z)).
Proof.
  assert (identities []) as Nil by (split; constructor).
  unfold getRepoStats.
  eapply ensures_bind; [apply ensures_any|]. intros [branch|] _.
  2:{ apply ensures_ret. cbn. repeat split; auto; apply Nil. }
  eapply ensures_bind; [apply ensures_any|]. intros n _.
  apply ensures_bind
    with (Q1 := fun lines => skipLineStats config = true -> lines = zeroLines).
  { unfold safe, getLinesOfCode. destruct (skipLineStats config).
    - apply ensures_tryCatch; [apply ensures_ret; auto|].
      intros error. destruct (isEmptyRepoError error);
        [apply ensures_ret; auto|apply ensures_throw].
    - intros s. destruct (fst _); auto; discriminate. }
  intros lines Skip.
  eapply ensures_bind; [apply ensures_any|]. intros prs _.
  apply ensures_bind with (Q1 := identities).
  { unfold safe. apply ensures_tryCatch; [apply getContributors_identities|].
    intros error. destruct (isEmptyRepoError error);
      [apply ensures_ret, Nil|apply ensures_throw]. }
  intros authors Ids.
  eapply ensures_bind; [apply ensures_any|]. intros count _.
  apply ensures_ret. cbn [totalLines linesAdded linesDeleted contributors
                           contributorsList].
  split; [reflexivity|]. split; [reflexivity|]. split; [exact Ids|].
  intros S. rewrite (Skip S). auto.
Qed.

(** X9. Whatever the transport answers, a record [getRepoStats] returns is
    consistent: [totalLines] is [linesAdded - linesDeleted], [contributors]
    is the length of [contributorsList], which has no duplicate and no empty
    entry; and with [skipLineStats] set the three line figures are 0. *)
Theorem getRepoStats_consistent (fuel : nat) (repoInfo : RepoInfo) (s : State Env) :
  match fst (getRepoStats config fuel repoInfo s) with
  | Return stats =>
      totalLines stats = (linesAdded stats - linesDeleted stats)%Z /\
      contributors stats = length (contributorsList stats) /\
      NoDup (contributorsList stats) /\ ("" ∉ contributorsList stats) /\
      (skipLineStats config = true ->
       linesAdded stats = 0%Z /\ linesDeleted stats = 0%Z /\ totalLines stats = 0%Z)
  | _ => True
  end.
Proof.
  pose proof (getRepoStats_ensures fuel repoInfo s) as H.
  destruct (fst _) as [stats| |]; auto.
  destruct H as (T & C & [N F] & S).
  split; [exact T|]. split; [exact C|]. split; [exact N|]. split; [|exact S].
  intros In. rewrite Forall_forall in F. specialize (F _ In). discriminate.
Qed.

End Returned.

(** ** The collectors against the reference remote *)

Lemma scanAuthors_app p1 p2 acc :
  scanAuthors (p1 ++ p2) acc = scanAuthors p2 (scanAuthors p1 acc).
Proof.
  revert acc. induction p1 as [|c p1 IH]; intros acc; [reflexivity|].
  cbn [app scanAuthors]. apply IH.
Qed.

Lemma scanIssues_app start finish p1 p2 acc :
  scanIssues start finish (p1 ++ p2) acc =
  scanIssues start finish p2 (scanIssues start finish p1 acc).
Proof.
  revert acc. induction p1 as [|i p1 IH]; intros acc; [reflexivity|].
  cbn [app scanIssues]. destruct (pull_request i); apply IH.
Qed.

Lemma scanIssues_counts start finish l :
  forall acc,
    scanIssues start finish l acc =
    mkIssueCounts
      (created acc + length (List.filter (issueCreatedIn start finish) l))
      (closed acc + length (List.filter (issueClosedIn start finish) l)).
Proof.
  induction l as [|i l IH]; intros [c d]; cbn [scanIssues List.filter length created closed].
  - f_equal; lia.
  - destruct (pull_request i) eqn:P.
    + assert (issueCreatedIn start finish i = false) as ->
        by (unfold issueCreatedIn; rewrite P; reflexivity).
      assert (issueClosedIn start finish i = false) as ->
        by (unfold issueClosedIn; rewrite P; reflexivity).
      apply IH.
    + assert (issueCreatedIn start finish i =
              inRange start finish (issue_created_at i)) as ->
        by (unfold issueCreatedIn; rewrite P; reflexivity).
      assert (issueClosedIn start finish i =
              match closed_at i with
              | Some closedAt => inRange start finish closedAt
              | None => false
              end) as ->
        by (unfold issueClosedIn; rewrite P; reflexivity).
      rewrite IH. cbn [created closed].
      destruct (inRange start finish (issue_created_at i));
        destruct (closed_at i) as [closedAt|];
        try destruct (inRange start finish closedAt);
        cbn [length]; f_equal; lia.
Qed.

Lemma scanAuthors_elem a page :
  forall l,
    a ∈ scanAuthors page l <->
    a ∈ l \/ (truthy a = true /\ exists c, c ∈ page /\ authorOf c = Some a).
Proof.
  induction page as [|commit rest IH]; intros l; cbn [scanAuthors].
  - split; [auto|]. intros [H|(_ & c & H & _)]; [exact H|inversion H].
  - fold (authorOf commit). rewrite IH. clear IH.
    assert (forall b, a ∈ setAdd b l <-> a ∈ l \/ a = b) as Add.
    { intros b. unfold setAdd. case_bool_decide as In.
      - split; [auto|]. intros [H| ->]; assumption.
      - rewrite elem_of_app, list_elem_of_singleton. reflexivity. }
    split.
    + intros [H|(Tr & c & In & Au)].
      * destruct (authorOf commit) as [b|] eqn:Au; [|auto].
        destruct (truthy b) eqn:Tb; [|auto].
        apply Add in H as [H| ->]; [auto|].
        right. split; [exact Tb|]. exists commit. split; [left|exact Au].
      * right. split; [exact Tr|]. exists c. split; [right; exact In|exact Au].
    + intros [H|(Tr & c & In & Au)].
      * left. destruct (authorOf commit) as [b|]; [|exact H].
        destruct (truthy b); [apply Add; auto|exact H].
      * apply elem_of_cons in In as [->|In].
        -- left. rewrite Au, Tr. apply Add. auto.
        -- right. split; [exact Tr|]. exists c. auto.
Qed.

Section RemoteCollectors.
Variable repository : string -> option Remote.Repository.

Local Abbreviation site := (Remote.healthy repository).
Local Hint Extern 0 (Octokit _) =>
  exact (remote_octokit repository) : typeclass_instances.

Variable config : Config.
Variable repoName : string.

Local Abbreviation commitsInRange := (commitsInRange config).
Local Abbreviation pullsRequest := (pullsRequest config repoName).

(** A request the site rejects with an error that is not retryable is
    given up at the first attempt. *)
Lemma fails_withRetry {T} (operation : Request T) name operationName e :
  Remote.payload site operation = inl e ->
  isRetryableError e = false ->
  fails (withRetry operation name operationName)
        (GitHubApiError name operationName e) [Called operation (Some e)].
Proof.
  intros P R s. rewrite withRetry_unfold.
  set (s0 := snd (checkRateLimit name s)).
  assert (exists clk, send operation (env s0) = (Rejected e, clk)) as (clk & E).
  { cbn [send remote_octokit Remote.octokit]. unfold Remote.serve. rewrite P. eauto. }
  erewrite attemptLoop_throw; [|exact E|left; exact R].
  eexists. split; [reflexivity|].
  cbn [journal afterCall repoBranchCache]. rewrite requests_app. unfold s0.
  rewrite checkRateLimit_requests. split; [reflexivity|].
  destruct (checkRateLimit_effect name s) as [-> | (ms & _ & ->)]; reflexivity.
Qed.

Lemma fails_bind {A B} (m : M Remote.Clock A) (f : A -> M Remote.Clock B) error evs :
  fails m error evs -> fails (bind m f) error evs.
Proof.
  intros H s. destruct (H s) as (s' & E & J & C).
  exists s'. rewrite (bind_throw _ _ _ E). auto.
Qed.

(** A paging loop that folds [step] over the pages of [l] folds it over the
    whole of [l], asking for every page up to the first that is not full. *)
Lemma paged_fold {X St} (l : list X) (step : list X -> St -> St)
    (request : nat -> Event)
    (body : St * nat -> M Remote.Clock (Step (St * nat) St)) :
  (forall p1 p2 acc, step (p1 ++ p2) acc = step p2 (step p1 acc)) ->
  (forall acc page,
     yields (body (acc, page))
       (fun st evs =>
          evs = [request page] /\
          st = let pg := Remote.pageOf (pageSize config) page l in
               if length pg <? pageSize config then Finish (step pg acc)
               else Continue (step pg acc, S page))) ->
  forall fuel acc page,
    1 <= page ->
    length (drop ((page - 1) * pageSize config) l) / pageSize config < fuel ->
    yields (whileTrue fuel body (acc, page))
      (fun result evs =>
         result = step (drop ((page - 1) * pageSize config) l) acc /\
         evs = map request
                 (seq page
                    (S (length (drop ((page - 1) * pageSize config) l)
                        / pageSize config)))).
Proof.
  intros App Body. pose proof (pageSize_pos config) as Pos.
  induction fuel as [|fuel IH]; intros acc page Pg Fuel; [lia|].
  cbn [whileTrue]. eapply yields_bind; [apply Body|].
  intros st evs1 [-> ->]. cbv zeta. unfold Remote.pageOf.
  set (rest := drop ((page - 1) * pageSize config) l) in *.
  destruct (Nat.ltb_spec (length (take (pageSize config) rest)) (pageSize config))
    as [Short|Full].
  - rewrite length_take in Short.
    rewrite take_ge by lia. rewrite Nat.div_small by lia.
    apply yields_ret. auto.
  - rewrite length_take in Full.
    assert (length rest / pageSize config =
            S (length (drop (pageSize config) rest) / pageSize config)) as Div.
    { rewrite length_drop.
      replace (length rest) with ((length rest - pageSize config) + 1 * pageSize config)
        at 1 by lia.
      rewrite Nat.div_add by lia. lia. }
    eapply yields_conseq.
    + apply (IH (step (take (pageSize config) rest) acc) (S page)); [lia|].
      rewrite next_page by assumption. fold rest. lia.
    + cbn beta. intros result evs2 [-> ->].
      rewrite next_page by assumption. fold rest. split.
      * rewrite <- App, take_drop. reflexivity.
      * rewrite Div. reflexivity.
Qed.

Lemma fails_tryCatch {A} (m : M Remote.Clock A) handler error evs :
  fails m error evs -> handler error = throw error ->
  fails (tryCatch m handler) error evs.
Proof.
  intros H Re s. destruct (H s) as (s' & E & J & C).
  exists s'. rewrite (tryCatch_throw _ _ _ E), Re. auto.
Qed.

Lemma fails_given {A} (branch : string) (k : string -> M Remote.Clock A) error evs :
  fails (k branch) error evs ->
  fails (targetBranch <- targetBranchOf config repoName (Some branch) ;; k targetBranch)
        error evs.
Proof. intros H s. exact (H s). Qed.

(** [safe] turns an empty-repository failure into the default value. *)
Lemma yields_safe {A} (m : M Remote.Clock A) (d : A) error evs :
  fails m error evs -> isEmptyRepoError error = true ->
  yields (safe m d) (fun a evs' => a = d /\ evs' = evs).
Proof.
  intros H Em s. destruct (H s) as (s' & E & J & C).
  exists d, s', evs. unfold safe. rewrite (tryCatch_throw _ _ _ E), Em. auto.
Qed.

(** X14. A repository the remote does not know (404) and whose branch is
    not cached costs one request: [getRepoStats] returns the all-zero record
    with the repository's name and archived flag, and no collector runs. *)
Theorem missing_repository (fuel : nat) (archived : bool) (s : State Remote.Clock) :
  repository repoName = None ->
  (forall b, repoBranchCache s !! repoName = Some b -> truthy b = false) ->
  exists s',
    getRepoStats config fuel (mkRepoInfo repoName archived) s =
      (Return (emptyStats (mkRepoInfo repoName archived)), s') /\
    requests (journal s') =
      requests (journal s) ++
      [Called (ReposGet (organization config) repoName) (Some Remote.notFound)].
Proof.
  intros Unknown Miss.
  assert (getDefaultBranch config repoName s =
          (response <- withRetry (ReposGet (organization config) repoName)
                                 repoName "fetching default branch" ;;
           updateRateLimit (headers response) ;;;
           cacheBranch repoName (default_branch (data response)) ;;;
           ret (default_branch (data response))) s) as Fetch.
  { unfold getDefaultBranch.
    destruct (repoBranchCache s !! repoName) as [b|] eqn:C; [|reflexivity].
    rewrite (Miss b eq_refl). reflexivity. }
  destruct (@fails_withRetry _ (ReposGet (organization config) repoName) repoName
              "fetching default branch" Remote.notFound) with (s := s)
    as (s' & E & J & _).
  { unfold Remote.payload, Remote.inRepo. cbn. rewrite Unknown. reflexivity. }
  { reflexivity. }
  exists s'. split; [|exact J].
  assert (getDefaultBranch config repoName s =
          (Throw (GitHubApiError repoName "fetching default branch" Remote.notFound),
           s')) as Lookup
    by (rewrite Fetch; apply bind_throw, E).
  unfold getRepoStats. cbn [name isArchived].
  erewrite bind_return; cycle 1.
  { rewrite (tryCatch_throw _ _ _ (bind_throw _ _ _ Lookup)). reflexivity. }
  reflexivity.
Qed.

Variable r : Remote.Repository.
Hypothesis hosted : repository repoName = Some r.

Lemma range_listing targetBranch page :
  Remote.history r <> [] ->
  Remote.payload site (rangeCommits config repoName targetBranch (Some page)) =
    inr (map Remote.listed (Remote.pageOf (pageSize config) page (commitsInRange r))).
Proof.
  intros N. unfold rangeCommits.
  erewrite listing_payload; [reflexivity|exact hosted|reflexivity|exact N].
Qed.

(** X10. For a repository with commits, [getCommitCount] returns the number
    of commits dated inside the range, having asked for the pages 1 to
    [n / pageSize + 1] of the listing, [n] being that number: when [n] is a
    multiple of the page size the last page asked for is empty. *)
Theorem getCommitCount_exact (targetBranch : string) (fuel : nat) :
  Remote.history r <> [] ->
  length (commitsInRange r) / pageSize config < fuel ->
  yields (getCommitCount config fuel repoName (Some targetBranch))
    (fun count evs =>
       count = length (commitsInRange r) /\
       evs = map (fun page =>
                    Called (rangeCommits config repoName targetBranch (Some page)) None)
                 (seq 1 (S (length (commitsInRange r) / pageSize config)))).
Proof.
  intros N Fuel. unfold getCommitCount. apply yields_given.
  eapply yields_conseq.
  - apply paged_fold
      with (l := commitsInRange r)
           (step := fun (pg : list Remote.Commit) count => count + length pg)
           (request := fun page =>
              Called (rangeCommits config repoName targetBranch (Some page)) None).
    + intros p1 p2 acc. rewrite length_app. lia.
    + intros count page. cbn [commitCountPage]. apply yields_tryCatch.
      eapply yields_bind; [apply yields_withRetry, range_listing, N|].
      intros response evs [D ->]. rewrite D, length_map. cbv zeta.
      destruct (_ <? _); apply yields_ret; auto.
    + lia.
    + cbn. rewrite drop_0. exact Fuel.
  - cbn. rewrite drop_0. intros count evs [-> ->]. auto.
Qed.

(** X11. For a repository with commits, [getContributors] returns, without
    duplicates, exactly the non-empty identities of the commits dated inside
    the range: the login of the commit's author when there is one, the
    e-mail address of the commit otherwise.  Paging makes no difference and
    a commit with neither contributes nobody. *)
Theorem getContributors_exact (targetBranch : string) (fuel : nat) :
  Remote.history r <> [] ->
  length (commitsInRange r) / pageSize config < fuel ->
  yields (getContributors config fuel repoName (Some targetBranch))
    (fun contributorsList _ =>
       NoDup contributorsList /\
       forall a, a ∈ contributorsList <->
                 a <> "" /\
                 exists c, c ∈ commitsInRange r /\
                           authorOf (Remote.listed c) = Some a).
Proof.
  intros N Fuel. unfold getContributors. apply yields_given.
  eapply yields_conseq.
  - apply paged_fold
      with (l := commitsInRange r)
           (step := fun (pg : list Remote.Commit) acc =>
                      scanAuthors (map Remote.listed pg) acc)
           (request := fun page =>
              Called (rangeCommits config repoName targetBranch (Some page)) None).
    + intros p1 p2 acc. rewrite map_app. apply scanAuthors_app.
    + intros acc page. cbn [contributorsPage]. apply yields_tryCatch.
      eapply yields_bind; [apply yields_withRetry, range_listing, N|].
      intros response evs [D ->]. rewrite D, length_map. cbv zeta.
      pose proof (pageSize_pos config) as Pos.
      destruct (Nat.eqb_spec (length (Remote.pageOf (pageSize config) page
                                        (commitsInRange r))) 0) as [E|_].
      * rewrite E. apply length_zero_iff_nil in E. rewrite E.
        destruct (Nat.ltb_spec 0 (pageSize config)); [|lia].
        apply yields_ret. auto.
      * destruct (_ <? _); apply yields_ret; auto.
    + lia.
    + cbn. rewrite drop_0. exact Fuel.
  - cbn. rewrite drop_0. intros result evs [-> _]. split.
    + apply scanAuthors_identities. split; constructor.
    + intros a. rewrite scanAuthors_elem. split.
      * intros [H|(Tr & c & In & Au)]; [inversion H|].
        split; [intros ->; discriminate|].
        apply list_elem_of_fmap in In as (c' & -> & In). eauto.
      * intros (Ne & c & In & Au). right. split.
        -- destruct a; [contradiction|reflexivity].
        -- exists (Remote.listed c). split; [|exact Au].
           apply list_elem_of_fmap. eauto.
Qed.

(** X12. When the remote lists the pull requests created at or after the
    start of the range before all the older ones (as a listing by creation
    date, newest first, does), [getPullRequestCount] returns the number of
    pull requests of the repository created inside the range: stopping at
    the first older one loses nothing.  It asks for the pages that hold the
    newer ones and for no page after the first older one. *)
Theorem getPullRequestCount_exact (targetBranch : string) (fuel : nat)
    (recent old : list PullItem) :
  Remote.pulls r = recent ++ old ->
  Forall (fun pr => (rangeStart config <= pr_created_at pr)%Z) recent ->
  Forall (fun pr => (pr_created_at pr < rangeStart config)%Z) old ->
  length recent / pageSize config < fuel ->
  yields (getPullRequestCount config fuel repoName (Some targetBranch))
    (fun count evs =>
       count = countInRange (rangeStart config) (rangeEnd config) (Remote.pulls r) /\
       evs = map (pullsRequest targetBranch)
                 (seq 1 (S (length recent / pageSize config)))).
Proof.
  intros L New Old Fuel. pose proof (pageSize_pos config) as Pos.
  assert (countInRange (rangeStart config) (rangeEnd config) (Remote.pulls r) =
          countInRange (rangeStart config) (rangeEnd config) recent) as Count.
  { rewrite L. unfold countInRange. rewrite List.filter_app, length_app.
    rewrite (filter_none _ (l := old)); [cbn; lia|].
    eapply Forall_impl; [exact Old|]. intros pr Lt. cbn beta in Lt.
    unfold inRange. apply andb_false_iff. left. apply Z.leb_gt. exact Lt. }
  rewrite Count. unfold getPullRequestCount. apply yields_given.
  destruct old as [|x rest].
  - rewrite app_nil_r in L. eapply yields_conseq.
    + apply paged_fold
        with (l := Remote.pulls r)
             (step := fun (pg : list PullItem) count =>
                        count + countInRange (rangeStart config) (rangeEnd config) pg)
             (request := pullsRequest targetBranch).
      * intros p1 p2 acc. unfold countInRange.
        rewrite List.filter_app, length_app. lia.
      * intros count page. eapply yields_conseq.
        { eapply pullRequestPage_yields. exact hosted. }
        cbn beta zeta. intros step evs [-> ->]. split; [reflexivity|].
        set (pg := Remote.pageOf (pageSize config) page (Remote.pulls r)).
        assert (scanPulls (rangeStart config) (rangeEnd config) pg count =
                Continue (count + countInRange (rangeStart config)
                                               (rangeEnd config) pg)) as ->.
        { rewrite <- (app_nil_r pg) at 1. rewrite scanPulls_app; [reflexivity|].
          unfold pg, Remote.pageOf. rewrite L.
          apply Forall_take, Forall_drop, New. }
        destruct (Nat.eqb_spec (length pg) 0) as [E|_]; [|reflexivity].
        rewrite E. apply length_zero_iff_nil in E. rewrite E.
        destruct (Nat.ltb_spec 0 (pageSize config)); [|lia].
        unfold countInRange. cbn. f_equal. lia.
      * lia.
      * cbn. rewrite drop_0, L. exact Fuel.
    + cbn. rewrite drop_0, L. intros count evs [-> ->]. auto.
  - eapply yields_conseq.
    + eapply pulls_early_stop with (x := x) (rest := rest) (pre := recent).
      * exact hosted.
      * apply Forall_cons in Old as [Lt _]. exact Lt.
      * lia.
      * cbn. rewrite drop_0. exact L.
      * exact New.
      * exact Fuel.
    + cbn. intros count evs [-> ->]. auto.
Qed.

(** X13. [getIssueStats] returns, over all the issues the remote lists for
    the repository, the number that were created inside the range and the
    number that were closed inside it, entries that are pull requests left
    out of both; it reads every page up to the first that is not full. *)
Theorem getIssueStats_exact (fuel : nat) :
  length (Remote.issues r) / pageSize config < fuel ->
  yields (getIssueStats config fuel repoName)
    (fun counts evs =>
       created counts =
         length (List.filter (issueCreatedIn (rangeStart config) (rangeEnd config))
                   (Remote.issues r)) /\
       closed counts =
         length (List.filter (issueClosedIn (rangeStart config) (rangeEnd config))
                   (Remote.issues r)) /\
       evs = map (fun page =>
                    Called (IssuesListForRepo (organization config) repoName
                              (rangeStart config) (pageSize config) page) None)
                 (seq 1 (S (length (Remote.issues r) / pageSize config)))).
Proof.
  intros Fuel. pose proof (pageSize_pos config) as Pos.
  unfold getIssueStats. eapply yields_conseq.
  - apply paged_fold
      with (l := Remote.issues r)
           (step := scanIssues (rangeStart config) (rangeEnd config))
           (request := fun page =>
              Called (IssuesListForRepo (organization config) repoName
                        (rangeStart config) (pageSize config) page) None).
    + intros p1 p2 acc. apply scanIssues_app.
    + intros acc page. cbn [issuesPage]. eapply yields_bind.
      * apply yields_withRetry
          with (d := Remote.pageOf (pageSize config) page (Remote.issues r)).
        unfold Remote.payload, Remote.inRepo. cbn. rewrite hosted. reflexivity.
      * intros response evs [D ->]. rewrite D. cbv zeta.
        destruct (Nat.eqb_spec (length (Remote.pageOf (pageSize config) page
                                          (Remote.issues r))) 0) as [E|_].
        -- rewrite E. apply length_zero_iff_nil in E. rewrite E.
           destruct (Nat.ltb_spec 0 (pageSize config)); [|lia].
           apply yields_ret. auto.
        -- destruct (_ <? _); apply yields_ret; auto.
    + lia.
    + cbn. rewrite drop_0. exact Fuel.
  - cbn. rewrite drop_0. intros counts evs [-> ->].
    rewrite scanIssues_counts. cbn. auto.
Qed.

(** X15. A repository that exists and has no commit at all (the remote
    answers its commit listings with 409): [getCommitCount] on its own
    throws the wrapped 409 after one request, its handler for that status
    notwithstanding; inside [getRepoStats] the commit count, the line
    figures and the contributors all come out as zero, and the collection
    returns. *)
Theorem empty_repository (targetBranch : string) (fuel : nat) (archived : bool) :
  Remote.history r = [] ->
  length (Remote.pulls r) < fuel -> length (Remote.releaseList r) < fuel ->
  fails (getCommitCount config fuel repoName (Some targetBranch))
        (GitHubApiError repoName "fetching commits" Remote.emptyRepository)
        [Called (rangeCommits config repoName targetBranch (Some 1))
                (Some Remote.emptyRepository)] /\
  yields (getRepoStats config fuel (mkRepoInfo repoName archived))
    (fun stats _ =>
       commits stats = 0 /\ linesAdded stats = 0%Z /\ linesDeleted stats = 0%Z /\
       totalLines stats = 0%Z /\ contributors stats = 0 /\
       contributorsList stats = []).
Proof.
  intros Empty FuelP FuelR.
  assert (forall p, lc_repo p = repoName ->
            Remote.payload site (ReposListCommits p) = inl Remote.emptyRepository)
    as Rejected.
  { intros p R. unfold Remote.payload, Remote.inRepo. cbn.
    rewrite R, hosted, Empty. reflexivity. }
  assert (forall b,
            fails (getCommitCount config fuel repoName (Some b))
              (GitHubApiError repoName "fetching commits" Remote.emptyRepository)
              [Called (rangeCommits config repoName b (Some 1))
                      (Some Remote.emptyRepository)]) as Commits.
  { intros b. unfold getCommitCount. apply fails_given.
    destruct fuel as [|fuel']; [lia|]. cbn [whileTrue commitCountPage].
    apply fails_bind, fails_tryCatch; [|reflexivity].
    apply fails_bind, fails_withRetry; [apply Rejected|]; reflexivity. }
  split; [apply Commits|].
  unfold getRepoStats. cbn [name isArchived].
  apply yields_bind with (Q1 := fun resolved _ => exists b, resolved = Some b).
  { apply yields_tryCatch. eapply yields_bind.
    - eapply yields_getDefaultBranch. exact hosted.
    - intros b evs _. apply yields_ret. eauto. }
  intros resolved evs0 [branch ->].
  eapply yields_bind; [eapply yields_safe; [apply Commits|reflexivity]|].
  intros n evs1 [-> _].
  apply yields_bind with (Q1 := fun lines _ => lines = zeroLines).
  { unfold getLinesOfCode. destruct (skipLineStats config).
    - apply yields_tryCatch, yields_ret. reflexivity.
    - eapply yields_conseq.
      + eapply yields_safe
          with (error := GitHubApiError repoName "finding end commit"
                           Remote.emptyRepository); [|reflexivity].
        apply fails_given.
        apply fails_tryCatch; [|reflexivity].
        apply fails_bind, fails_withRetry; [apply Rejected|]; reflexivity.
      + cbn. intros lines evs [-> _]. reflexivity. }
  intros lines evs2 ->.
  eapply yields_bind.
  { apply yields_tryCatch. unfold getPullRequestCount. apply yields_given.
    eapply pulls_finish; [exact hosted|lia|]. cbn. rewrite drop_0. exact FuelP. }
  intros prs evs3 _.
  apply yields_bind with (Q1 := fun authors _ => authors = []).
  { eapply yields_conseq.
    - eapply yields_safe
        with (error := GitHubApiError repoName "fetching contributors"
                         Remote.emptyRepository); [|reflexivity].
      unfold getContributors. apply fails_given.
      destruct fuel as [|fuel']; [lia|]. cbn [whileTrue contributorsPage].
      apply fails_bind, fails_tryCatch; [|reflexivity].
      apply fails_bind, fails_withRetry; [apply Rejected|]; reflexivity.
    - cbn. intros authors evs [-> _]. reflexivity. }
  intros authors evs4 ->.
  eapply yields_bind.
  { apply yields_tryCatch. unfold getReleaseCount.
    eapply releases_finish; [exact hosted|lia|]. cbn. rewrite drop_0. exact FuelR. }
  intros count evs5 _.
  apply yields_ret. cbn. auto 10.
Qed.

Lemma scanReleases_app start finish pre l count :
  Forall (fun release => (start <= effectiveDate release)%Z) pre ->
  scanReleases start finish (pre ++ l) count =
  scanReleases start finish l (count + releasesInRange start finish pre).
Proof.
  intros F. revert count. induction F as [|release pre G F IH]; intros count.
  - unfold releasesInRange. simpl. f_equal. lia.
  - cbn [app scanReleases]. fold (effectiveDate release).
    destruct (Z.ltb_spec (effectiveDate release) start) as [L|_]; [lia|].
    rewrite IH. f_equal. unfold releasesInRange. cbn [List.filter].
    destruct (inRange start finish (effectiveDate release)); cbn [length]; lia.
Qed.

Lemma releasePage_requests count page :
  let pg := Remote.pageOf (pageSize config) page (Remote.releaseList r) in
  yields (releasePage config repoName (count, page))
    (fun step evs =>
       evs = [Called (ReposListReleases (organization config) repoName
                        (pageSize config) page) None] /\
       step =
         (if length pg =? 0 then Finish count
          else match scanReleases (rangeStart config) (rangeEnd config) pg count with
               | Finish count => Finish count
               | Continue count =>
                   if length pg <? pageSize config then Finish count
                   else Continue (count, S page)
               end)).
Proof.
  intros pg. cbn [releasePage]. apply yields_tryCatch.
  eapply yields_bind.
  - apply yields_withRetry with (d := pg).
    unfold Remote.payload, Remote.inRepo. cbn. rewrite hosted. reflexivity.
  - intros response evs1 [D ->]. rewrite D.
    destruct (length pg =? 0); [apply yields_ret; auto|].
    destruct (scanReleases _ _ pg count); [|apply yields_ret; auto].
    destruct (length pg <? pageSize config); apply yields_ret; auto.
Qed.

Lemma releases_early_stop x rest fuel :
  (effectiveDate x < rangeStart config)%Z ->
  forall pre count page,
    1 <= page ->
    drop ((page - 1) * pageSize config) (Remote.releaseList r) = pre ++ x :: rest ->
    Forall (fun release => (rangeStart config <= effectiveDate release)%Z) pre ->
    length pre / pageSize config < fuel ->
    yields (whileTrue fuel (releasePage config repoName) (count, page))
      (fun result evs =>
         result = count + releasesInRange (rangeStart config) (rangeEnd config) pre /\
         evs = map (fun page =>
                      Called (ReposListReleases (organization config) repoName
                                (pageSize config) page) None)
                   (seq page (S (length pre / pageSize config)))).
Proof.
  intros Old. pose proof (pageSize_pos config) as Pos.
  induction fuel as [|fuel IH]; intros pre count page Pg D F Fuel; [lia|].
  cbn [whileTrue]. eapply yields_bind; [apply releasePage_requests|].
  intros step evs1 [-> ->]. unfold Remote.pageOf. rewrite D.
  destruct (Nat.lt_ge_cases (length pre) (pageSize config)) as [Short|Full].
  - rewrite take_app_ge by lia.
    replace (pageSize config - length pre) with (S (pageSize config - length pre - 1))
      by lia.
    cbn [take]. rewrite length_app. cbn [length].
    replace (length pre + S _ =? 0) with false by (symmetry; apply Nat.eqb_neq; lia).
    rewrite scanReleases_app by assumption. cbn [scanReleases].
    fold (effectiveDate x).
    assert (inRange (rangeStart config) (rangeEnd config) (effectiveDate x) = false)
      as -> by (unfold inRange; apply andb_false_iff; left; apply Z.leb_gt, Old).
    apply Z.ltb_lt in Old. rewrite Old.
    rewrite Nat.div_small by assumption.
    apply yields_ret. auto.
  - rewrite take_app_le by lia.
    assert (length (take (pageSize config) pre) = pageSize config) as Len
      by (rewrite length_take; lia).
    rewrite Len.
    replace (pageSize config =? 0) with false by (symmetry; apply Nat.eqb_neq; lia).
    rewrite <- (app_nil_r (take (pageSize config) pre)).
    rewrite scanReleases_app by (apply Forall_take; assumption).
    cbn [scanReleases]. rewrite Nat.ltb_irrefl.
    assert (length pre / pageSize config =
            S (length (drop (pageSize config) pre) / pageSize config)) as Div.
    { rewrite length_drop.
      replace (length pre) with ((length pre - pageSize config) + 1 * pageSize config)
        at 1 by lia.
      rewrite Nat.div_add by lia. lia. }
    eapply yields_conseq.
    + apply (IH (drop (pageSize config) pre)).
      * lia.
      * rewrite next_page by assumption. rewrite D.
        rewrite drop_app_le by lia. reflexivity.
      * apply Forall_drop. assumption.
      * lia.
    + cbn beta. intros result evs2 [-> ->]. split.
      * unfold releasesInRange.
        rewrite <- (take_drop (pageSize config) pre) at 3.
        rewrite List.filter_app, length_app. lia.
      * rewrite Div. reflexivity.
Qed.

(** X26. When the remote lists the releases dated at or after the start
    of the range before all the older ones, the date of a release being its
    publication date or, failing that, its creation date,
    [getReleaseCount] returns the number of releases dated inside the
    range, and asks for no page after the one with the first older
    release. *)
Theorem getReleaseCount_exact (fuel : nat) (recent old : list ReleaseItem) :
  Remote.releaseList r = recent ++ old ->
  Forall (fun release => (rangeStart config <= effectiveDate release)%Z) recent ->
  Forall (fun release => (effectiveDate release < rangeStart config)%Z) old ->
  length recent / pageSize config < fuel ->
  yields (getReleaseCount config fuel repoName)
    (fun count evs =>
       count = releasesInRange (rangeStart config) (rangeEnd config)
                 (Remote.releaseList r) /\
       evs = map (fun page =>
                    Called (ReposListReleases (organization config) repoName
                              (pageSize config) page) None)
                 (seq 1 (S (length recent / pageSize config)))).
Proof.
  intros L New Old Fuel. pose proof (pageSize_pos config) as Pos.
  assert (releasesInRange (rangeStart config) (rangeEnd config) (Remote.releaseList r) =
          releasesInRange (rangeStart config) (rangeEnd config) recent) as Count.
  { rewrite L. unfold releasesInRange. rewrite List.filter_app, length_app.
    rewrite (filter_none _ (l := old)); [cbn; lia|].
    eapply Forall_impl; [exact Old|]. intros release Lt. cbn beta in Lt.
    unfold inRange. apply andb_false_iff. left. apply Z.leb_gt. exact Lt. }
  rewrite Count. unfold getReleaseCount.
  destruct old as [|x rest].
  - rewrite app_nil_r in L. eapply yields_conseq.
    + apply paged_fold
        with (l := Remote.releaseList r)
             (step := fun (pg : list ReleaseItem) count =>
                        count + releasesInRange (rangeStart config) (rangeEnd config) pg)
             (request := fun page =>
                Called (ReposListReleases (organization config) repoName
                          (pageSize config) page) None).
      * intros p1 p2 acc. unfold releasesInRange.
        rewrite List.filter_app, length_app. lia.
      * intros count page. eapply yields_conseq; [apply releasePage_requests|].
        cbn beta zeta. intros step evs [-> ->]. split; [reflexivity|].
        set (pg := Remote.pageOf (pageSize config) page (Remote.releaseList r)).
        assert (scanReleases (rangeStart config) (rangeEnd config) pg count =
                Continue (count + releasesInRange (rangeStart config)
                                                  (rangeEnd config) pg)) as ->.
        { rewrite <- (app_nil_r pg) at 1. rewrite scanReleases_app; [reflexivity|].
          unfold pg, Remote.pageOf. rewrite L.
          apply Forall_take, Forall_drop, New. }
        destruct (Nat.eqb_spec (length pg) 0) as [E|_]; [|reflexivity].
        rewrite E. apply length_zero_iff_nil in E. rewrite E.
        destruct (Nat.ltb_spec 0 (pageSize config)); [|lia].
        unfold releasesInRange. cbn. f_equal. lia.
      * lia.
      * cbn. rewrite drop_0, L. exact Fuel.
    + cbn. rewrite drop_0, L. intros count evs [-> ->]. auto.
  - eapply yields_conseq.
    + eapply releases_early_stop with (x := x) (rest := rest) (pre := recent).
      * apply Forall_cons in Old as [Lt _]. exact Lt.
      * lia.
      * cbn. rewrite drop_0. exact L.
      * exact New.
      * exact Fuel.
    + cbn. intros count evs [-> ->]. auto.
Qed.

Lemma sumFiles_totals fs :
  forall acc,
    sumFiles fs acc =
    mkLines (added acc + added (fileTotals fs)) (deleted acc + deleted (fileTotals fs)).
Proof.
  unfold fileTotals, sumZ.
  induction fs as [|file rest IH]; intros [a d].
  - cbn [sumFiles map foldr added deleted]. f_equal; lia.
  - cbn [sumFiles]. rewrite IH. cbn [added deleted map foldr].
    f_equal; lia.
Qed.

(** X27. The main path of [getLinesOfCode].  With line statistics on, let
    [head] be the first commit the remote lists up to the end of the range
    and [base] the first it lists before the start.  When they are the same
    commit the result is [{0, 0}] after these two requests; otherwise a
    third request compares [base] with [head], and the result is the sum of
    the additions and the sum of the deletions over the files of the
    comparison (a missing figure, or a comparison without a file list,
    counting as 0). *)
Theorem getLinesOfCode_compares (targetBranch : string)
    (head base : Remote.Commit) (headRest baseRest : list Remote.Commit) :
  skipLineStats config = false ->
  List.filter (Remote.inWindow None (Some (rangeEnd config))) (Remote.history r) =
    head :: headRest ->
  List.filter (Remote.inWindow None (Some (rangeStart config - 1)%Z))
    (Remote.history r) = base :: baseRest ->
  let baseSha := sha (Remote.listed base) in
  let headSha := sha (Remote.listed head) in
  yields (getLinesOfCode config repoName (Some targetBranch))
    (fun lines evs =>
       if String.eqb baseSha headSha then
         lines = zeroLines /\
         evs = [Called (headRequest config repoName targetBranch) None;
                Called (baseRequest config repoName targetBranch) None]
       else
         lines = match files (Remote.diff r baseSha headSha) with
                 | Some fs => fileTotals fs
                 | None => zeroLines
                 end /\
         evs = [Called (headRequest config repoName targetBranch) None;
                Called (baseRequest config repoName targetBranch) None;
                Called (ReposCompareCommits (organization config) repoName
                          baseSha headSha) None]).
Proof.
  intros On Head Base baseSha headSha.
  assert (Remote.history r <> []) as Some_commit
    by (intros E; rewrite E in Head; discriminate).
  unfold getLinesOfCode. rewrite On.
  apply yields_given. apply yields_tryCatch.
  eapply yields_bind.
  { apply yields_withRetry. eapply listing_payload;
      [exact hosted|reflexivity|exact Some_commit]. }
  intros endCommitsResponse evs1 [D1 ->]. rewrite D1. clear D1.
  cbn [lc_since lc_until lc_per_page lc_page]. rewrite Head.
  cbn [default Remote.pageOf Nat.sub Nat.mul drop take map].
  eapply yields_bind.
  { apply yields_withRetry. eapply listing_payload;
      [exact hosted|reflexivity|exact Some_commit]. }
  intros baseCommitsResponse evs2 [D2 ->]. rewrite D2. clear D2.
  cbn [lc_since lc_until lc_per_page lc_page]. rewrite Base.
  cbn [default Remote.pageOf Nat.sub Nat.mul drop take map]. cbv zeta.
  fold baseSha headSha.
  destruct (String.eqb baseSha headSha); [apply yields_ret; auto|].
  eapply yields_bind.
  { apply yields_withRetry with (d := Remote.diff r baseSha headSha).
    unfold Remote.payload, Remote.inRepo. cbn. rewrite hosted. reflexivity. }
  intros compareResponse evs3 [D3 ->]. rewrite D3.
  destruct (files (Remote.diff r baseSha headSha)) as [fs|];
    apply yields_ret; [|auto].
  split; [|reflexivity]. rewrite sumFiles_totals.
  destruct (fileTotals fs) as [a d]. reflexivity.
Qed.

(** X28. Which commit [getLinesOfCode] takes for the oldest of the range.
    With line statistics on and no commit before the start of the range, the
    commit whose parent becomes the base is the last one on the first page
    of the listing of the range, which is not the oldest commit of the range
    when the range holds more commits than a page.  When that commit has a
    parent, the result is the comparison from its first parent to the newest
    commit of the range. *)
Theorem getLinesOfCode_first_page (targetBranch : string)
    (newest c : Remote.Commit) (others : list Remote.Commit)
    (parent : string) (otherParents : list string) :
  skipLineStats config = false ->
  Forall (fun c => (rangeStart config <= Remote.date c)%Z) (Remote.history r) ->
  commitsInRange r = newest :: others ->
  last (take (pageSize config) (commitsInRange r)) = Some c ->
  parents (Remote.detail c) = Some (parent :: otherParents) ->
  NoDup (map (fun c => sha (Remote.listed c)) (Remote.history r)) ->
  let headSha := sha (Remote.listed newest) in
  yields (getLinesOfCode config repoName (Some targetBranch))
    (fun lines evs =>
       lines = (if String.eqb parent headSha then zeroLines
                else match files (Remote.diff r parent headSha) with
                     | Some fs => fileTotals fs
                     | None => zeroLines
                     end) /\
       Called (ReposGetCommit (organization config) repoName
                 (sha (Remote.listed c))) None ∈ evs).
Proof.
  intros On None_before Range Last Parent Unique headSha.
  assert (c ∈ Remote.history r) as Known.
  { apply last_Some_elem_of in Last. apply elem_of_take in Last as (i & Hi & _).
    apply list_elem_of_lookup_2 in Hi. apply list_elem_of_In in Hi.
    apply List.filter_In in Hi as [I _]. apply list_elem_of_In. exact I. }
  assert (Remote.history r <> []) as Some_commit
    by (intros E; rewrite E in Known; inversion Known).
  unfold getLinesOfCode. rewrite On.
  apply yields_given. apply yields_tryCatch.
  eapply yields_bind.
  { apply yields_withRetry. eapply listing_payload;
      [exact hosted|reflexivity|exact Some_commit]. }
  intros endCommitsResponse evs1 [D1 ->]. rewrite D1. clear D1.
  cbn [lc_since lc_until lc_per_page lc_page].
  erewrite up_to_end_is_in_range by exact None_before.
  rewrite Range. cbn [default Remote.pageOf Nat.sub Nat.mul drop take map].
  eapply yields_bind.
  { apply yields_withRetry. eapply listing_payload;
      [exact hosted|reflexivity|exact Some_commit]. }
  intros baseCommitsResponse evs2 [D2 ->]. rewrite D2. clear D2.
  cbn [lc_since lc_until lc_per_page lc_page].
  rewrite filter_none.
  2:{ eapply Forall_impl; [exact None_before|]. intros c' L. cbn beta in L.
      unfold Remote.inWindow. cbn. apply Z.leb_gt. lia. }
  cbn [Remote.pageOf default Nat.sub Nat.mul drop take map]. cbv zeta.
  eapply yields_bind.
  { apply yields_withRetry. unfold rangeCommits.
    eapply listing_payload; [exact hosted|reflexivity|exact Some_commit]. }
  intros firstCommitsResponse evs3 [D3 ->]. rewrite D3. clear D3.
  cbn [lc_since lc_until lc_per_page lc_page default].
  change (List.filter _ (Remote.history r)) with (commitsInRange r).
  unfold Remote.pageOf. cbn [Nat.sub Nat.mul]. rewrite drop_0.
  rewrite (last_map Remote.listed _ Last).
  eapply yields_bind.
  { apply yields_withRetry with (d := Remote.detail c).
    unfold Remote.payload, Remote.inRepo. cbn. rewrite hosted.
    rewrite find_by_sha; [reflexivity|exact Unique|exact Known]. }
  intros commitDetail evs4 [D4 ->]. rewrite D4, Parent. clear D4.
  fold headSha.
  destruct (String.eqb parent headSha).
  { apply yields_ret. split; [reflexivity|].
    apply list_elem_of_In. cbn. tauto. }
  eapply yields_bind.
  { apply yields_withRetry with (d := Remote.diff r parent headSha).
    unfold Remote.payload, Remote.inRepo. cbn. rewrite hosted. reflexivity. }
  intros compareResponse evs5 [D5 ->]. rewrite D5.
  assert (forall evs : list Event,
            Called (ReposGetCommit (organization config) repoName
                      (sha (Remote.listed c))) None ∈
            [Called (headRequest config repoName targetBranch) None] ++
            [Called (baseRequest config repoName targetBranch) None] ++
            [Called (rangeCommits config repoName targetBranch None) None] ++
            [Called (ReposGetCommit (organization config) repoName
                       (sha (Remote.listed c))) None] ++ evs) as In.
  { intros evs. apply list_elem_of_In. cbn. tauto. }
  destruct (files (Remote.diff r parent headSha)) as [fs|]; apply yields_ret.
  - split; [|apply In]. rewrite sumFiles_totals.
    destruct (fileTotals fs) as [a d]. reflexivity.
  - split; [reflexivity|apply In].
Qed.

End RemoteCollectors.

(** ** The organisation listing *)

Lemma scanRepos_spec includeRepos excludeRepos page :
  forall repos,
    scanRepos includeRepos excludeRepos page repos =
    repos ++ map toRepoInfo (List.filter (kept includeRepos excludeRepos) page).
Proof.
  induction page as [|repo rest IH]; intros repos; cbn [scanRepos List.filter map].
  - rewrite app_nil_r. reflexivity.
  - assert ((0 <? length includeRepos) &&
            negb (bool_decide (or_name repo ∈ includeRepos)) =
            negb match includeRepos with
                 | [] => true
                 | _ => bool_decide (or_name repo ∈ includeRepos)
                 end) as ->
      by (destruct includeRepos; reflexivity).
    assert (kept includeRepos excludeRepos repo =
            match includeRepos with
            | [] => true
            | _ => bool_decide (or_name repo ∈ includeRepos)
            end && negb (bool_decide (or_name repo ∈ excludeRepos))) as ->
      by reflexivity.
    destruct (match includeRepos with [] => true | _ => _ end); cbn [negb andb];
      [|apply IH].
    destruct (bool_decide (or_name repo ∈ excludeRepos)); cbn [negb]; [apply IH|].
    rewrite IH. cbn [map]. rewrite <- app_assoc. reflexivity.
Qed.

Lemma kept_spec includeRepos excludeRepos repo :
  kept includeRepos excludeRepos repo = true <->
  (or_name repo ∉ excludeRepos) /\
  (includeRepos <> [] -> or_name repo ∈ includeRepos).
Proof.
  unfold kept. rewrite andb_true_iff, negb_true_iff, bool_decide_eq_false.
  destruct includeRepos as [|i rest]; [|rewrite bool_decide_eq_true];
    intuition congruence.
Qed.

Section OrgReposFacts.
Context {Env : Type}.
Variable config : Config.
Variables includeRepos excludeRepos : list string.
Variable listForOrg : nat -> M Env (Response (list OrgRepo)).

Local Abbreviation kept := (kept includeRepos excludeRepos).
Local Abbreviation getOrgRepos :=
  (getOrgRepos config includeRepos excludeRepos listForOrg).

(** X16. Whatever the listing answers, no repository [getOrgRepos] returns
    is on the exclude list, and when the include list is not empty every one
    of them is on it: a name on both lists is left out. *)
Theorem getOrgRepos_filters (fuel : nat) (s : State Env) :
  match fst (getOrgRepos fuel s) with
  | Return repos =>
      forall repo, repo ∈ repos ->
        (name repo ∉ excludeRepos) /\
        (includeRepos <> [] -> name repo ∈ includeRepos)
  | _ => True
  end.
Proof.
  pose (Q := fun repos : list RepoInfo =>
               forall repo, repo ∈ repos ->
                 (name repo ∉ excludeRepos) /\
                 (includeRepos <> [] -> name repo ∈ includeRepos)).
  assert (forall page repos, Q repos ->
            Q (scanRepos includeRepos excludeRepos page repos)) as Scan.
  { intros page repos H repo. rewrite scanRepos_spec, elem_of_app.
    intros [In|In]; [apply H, In|].
    apply list_elem_of_fmap in In as (listed & -> & In).
    apply list_elem_of_In, List.filter_In in In as [_ K].
    apply kept_spec in K. exact K. }
  assert (ensures (getOrgRepos fuel) Q) as E.
  { apply ensures_whileTrue with (Inv := fun st => Q (fst st)).
    - intros [repos page] Inv. cbn [fst] in Inv. cbn [orgReposPage].
      eapply ensures_bind; [apply ensures_any|]. intros response _.
      destruct (length (data response) =? 0); [apply ensures_ret, Inv|].
      destruct (length (data response) <? pageSize config);
        apply ensures_ret; cbn [fst]; apply Scan, Inv.
    - intros repo In. inversion In. }
  exact (E s).
Qed.

(** X17. When the listing serves the pages of a list of repositories,
    [getOrgRepos] returns the entries of all of them that pass the filters,
    in the order of the listing, with a missing [archived] flag read as
    [false]; it reads on until a page is not full. *)
Theorem getOrgRepos_all_pages (listing : list OrgRepo) (fuel : nat) :
  (forall page (s : State Env), exists h s',
     listForOrg page s =
       (Return (mkResponse (Remote.pageOf (pageSize config) page listing) h), s')) ->
  length listing / pageSize config < fuel ->
  forall s : State Env, exists s',
    getOrgRepos fuel s =
      (Return (map toRepoInfo (List.filter kept listing)), s').
Proof.
  intros Serves Fuel. pose proof (pageSize_pos config) as Pos.
  assert (forall fuel repos page (s : State Env),
            1 <= page ->
            length (drop ((page - 1) * pageSize config) listing) / pageSize config
              < fuel ->
            exists s',
              whileTrue fuel (orgReposPage config includeRepos excludeRepos listForOrg)
                        (repos, page) s =
              (Return (repos ++
                       map toRepoInfo
                         (List.filter kept
                            (drop ((page - 1) * pageSize config) listing))), s'))
    as Loop.
  { clear fuel Fuel. induction fuel as [|fuel IH]; intros repos page s Pg Fuel; [lia|].
    cbn [whileTrue]. destruct (Serves page s) as (h & s1 & Page).
    set (rest := drop ((page - 1) * pageSize config) listing) in *.
    assert (Remote.pageOf (pageSize config) page listing = take (pageSize config) rest)
      as PageIs by reflexivity.
    assert (orgReposPage config includeRepos excludeRepos listForOrg (repos, page) s =
            (Return
               (if length (take (pageSize config) rest) <? pageSize config
                then Finish (repos ++ map toRepoInfo
                                        (List.filter kept (take (pageSize config) rest)))
                else Continue (repos ++ map toRepoInfo
                                          (List.filter kept (take (pageSize config) rest)),
                               S page)), s1)) as Turn.
    { unfold orgReposPage. rewrite (bind_return _ _ _ Page).
      cbn [data]. rewrite PageIs, scanRepos_spec.
      destruct (Nat.eqb_spec (length (take (pageSize config) rest)) 0) as [E|_].
      - rewrite E. apply length_zero_iff_nil in E. rewrite E.
        destruct (Nat.ltb_spec 0 (pageSize config)); [|lia].
        cbn. rewrite app_nil_r. reflexivity.
      - destruct (_ <? _); reflexivity. }
    rewrite (bind_return _ _ _ Turn).
    destruct (Nat.ltb_spec (length (take (pageSize config) rest)) (pageSize config))
      as [Short|Full].
    - rewrite length_take in Short. rewrite take_ge by lia.
      exists s1. reflexivity.
    - rewrite length_take in Full.
      destruct (IH (repos ++ map toRepoInfo
                              (List.filter kept (take (pageSize config) rest)))
                   (S page) s1) as (s' & Run); [lia| |].
      + rewrite next_page by assumption. fold rest. rewrite length_drop.
        assert (length rest / pageSize config =
                S ((length rest - pageSize config) / pageSize config)) as Div.
        { replace (length rest)
            with ((length rest - pageSize config) + 1 * pageSize config) at 1 by lia.
          rewrite Nat.div_add by lia. lia. }
        lia.
      + exists s'. rewrite Run, next_page by assumption. fold rest.
        rewrite <- app_assoc, <- map_app, <- List.filter_app, take_drop.
        reflexivity. }
  intros s. destruct (Loop fuel [] 1 s) as (s' & Run); [lia| |].
  - cbn. rewrite drop_0. exact Fuel.
  - exists s'. cbn in Run. rewrite drop_0 in Run. exact Run.
Qed.

End OrgReposFacts.

(** ** Totals and per-user statistics *)

Lemma foldl_setAdd (l : list string) :
  forall u, NoDup u ->
    NoDup (foldl (fun unique x => setAdd x unique) u l) /\
    forall x, x ∈ foldl (fun unique x => setAdd x unique) u l <-> x ∈ u \/ x ∈ l.
Proof.
  induction l as [|a l IH]; intros u N; cbn [foldl].
  - split; [exact N|]. intros x. split; [auto|]. intros [H|H]; [exact H|inversion H].
  - assert (NoDup (setAdd a u) /\ forall x, x ∈ setAdd a u <-> x ∈ u \/ x = a)
      as [N' E'].
    { unfold setAdd. case_bool_decide as In.
      - split; [exact N|]. intros x. split; [auto|]. intros [H| ->]; assumption.
      - split.
        + apply NoDup_app. split; [exact N|]. split; [|apply NoDup_singleton].
          intros x Hx Hx'. apply list_elem_of_singleton in Hx'. subst. contradiction.
        + intros x. rewrite elem_of_app, list_elem_of_singleton. reflexivity. }
    destruct (IH _ N') as [N'' E'']. split; [exact N''|].
    intros x. rewrite E'', E', elem_of_cons. tauto.
Qed.

Lemma distinct_spec l :
  NoDup (distinct l) /\ forall x, x ∈ distinct l <-> x ∈ l.
Proof.
  destruct (foldl_setAdd l (u:=[])) as [N E]; [constructor|].
  split; [exact N|]. intros x. rewrite (E x). split; [|auto].
  intros [H|H]; [inversion H|exact H].
Qed.

Lemma distinct_snoc l x : distinct (l ++ [x]) = setAdd x (distinct l).
Proof. unfold distinct. rewrite foldl_app. reflexivity. Qed.

Lemma addContributors_fold repos :
  forall u,
    foldl addContributors u repos =
    foldl (fun unique x => setAdd x unique) u (allContributors repos).
Proof.
  induction repos as [|repo rest IH]; intros u; [reflexivity|].
  unfold allContributors in *. cbn [foldl map concat].
  rewrite foldl_app, IH. reflexivity.
Qed.

Lemma totals_fold repos :
  forall c a d t p r n u,
    foldl addRepo (mkTotals c a d t p 0 0 0 r n, u) repos =
    (mkTotals (c + sum_list (map commits repos))
              (a + sumZ (map linesAdded repos))
              (d + sumZ (map linesDeleted repos))
              (t + sumZ (map totalLines repos))
              (p + sum_list (map pullRequests repos))
              0 0 0
              (r + sum_list (map releases repos))
              (n + length repos),
     foldl addContributors u repos).
Proof.
  induction repos as [|repo rest IH]; intros c a d t p r n u.
  - cbn. f_equal. f_equal; lia.
  - cbn [foldl addRepo total_commits total_linesAdded total_linesDeleted
           total_totalLines total_pullRequests total_releases repoCount].
    rewrite IH. cbn [map sum_list sum_list_with sumZ foldr length id].
    fold (sumZ (map linesAdded rest)) (sumZ (map linesDeleted rest))
         (sumZ (map totalLines rest)).
    f_equal. f_equal; lia.
Qed.

Lemma calculateTotals_closed repos :
  calculateTotals repos =
  mkTotalStats repos
    (mkTotals (sum_list (map commits repos))
              (sumZ (map linesAdded repos))
              (sumZ (map linesDeleted repos))
              (sumZ (map totalLines repos))
              (sum_list (map pullRequests repos))
              (length (distinct (allContributors repos)))
              0 0
              (sum_list (map releases repos))
              (length repos)).
Proof.
  unfold calculateTotals. rewrite totals_fold, addContributors_fold. reflexivity.
Qed.

(** X18. The totals are the sums, field by field, of the commits, lines
    added, lines deleted, net lines, pull requests and releases of the
    repositories it is given, [repoCount] is their number and the
    repositories are handed back unchanged; [issuesCreated] and
    [issuesClosed] of the totals are 0 whatever the repositories report. *)
Theorem calculateTotals_sums (repos : list RepoStats) :
  let totals := ts_totals (calculateTotals repos) in
  ts_repos (calculateTotals repos) = repos /\
  total_commits totals = sum_list (map commits repos) /\
  total_linesAdded totals = sumZ (map linesAdded repos) /\
  total_linesDeleted totals = sumZ (map linesDeleted repos) /\
  total_totalLines totals = sumZ (map totalLines repos) /\
  total_pullRequests totals = sum_list (map pullRequests repos) /\
  total_releases totals = sum_list (map releases repos) /\
  repoCount totals = length repos /\
  total_issuesCreated totals = 0 /\ total_issuesClosed totals = 0.
Proof. cbv zeta. rewrite calculateTotals_closed. cbn. auto 12. Qed.

Lemma elem_of_allContributors x repos :
  x ∈ allContributors repos <->
  exists repo, repo ∈ repos /\ x ∈ contributorsList repo.
Proof.
  unfold allContributors. induction repos as [|repo rest IH]; cbn [map concat].
  - split; [intros H; inversion H|intros (repo & H & _); inversion H].
  - rewrite elem_of_app, IH. split.
    + intros [H|(repo' & In & H)]; [exists repo; split; [left|exact H]|].
      exists repo'. split; [right; exact In|exact H].
    + intros (repo' & In & H). apply elem_of_cons in In as [->|In]; [auto|].
      right. eauto.
Qed.

Lemma allContributors_length repos :
  length (allContributors repos) =
  sum_list (map (fun repo => length (contributorsList repo)) repos).
Proof.
  unfold allContributors. induction repos as [|repo rest IH]; [reflexivity|].
  cbn [map concat sum_list sum_list_with]. rewrite length_app, IH. reflexivity.
Qed.

Lemma distinct_size l : length (distinct l) = size (list_to_set l : gset string).
Proof.
  destruct (distinct_spec l) as [N E].
  rewrite <- (size_list_to_set (C:=gset string) (distinct l)) by exact N.
  f_equal. apply set_eq. intros x. rewrite !elem_of_list_to_set. apply E.
Qed.

(** X19. The [contributors] figure of the totals is the number of distinct
    identities over the contributor lists of all the repositories: somebody
    who is listed by several repositories, or several times by one, counts
    once.  So it is at most the sum of the lengths of the lists, and at
    least the length of any list that has no duplicate. *)
Theorem calculateTotals_contributors (repos : list RepoStats) :
  let n := total_contributors (ts_totals (calculateTotals repos)) in
  n = size (list_to_set (allContributors repos) : gset string) /\
  n <= sum_list (map (fun repo => length (contributorsList repo)) repos) /\
  forall repo, repo ∈ repos -> NoDup (contributorsList repo) ->
    length (contributorsList repo) <= n.
Proof.
  cbv zeta. rewrite calculateTotals_closed. cbn [ts_totals total_contributors].
  split; [apply distinct_size|]. split.
  - rewrite <- allContributors_length.
    destruct (distinct_spec (allContributors repos)) as [N E].
    apply submseteq_length, NoDup_submseteq; [exact N|].
    intros x. apply E.
  - intros repo In N. destruct (distinct_spec (allContributors repos)) as [_ E].
    apply submseteq_length, NoDup_submseteq; [exact N|].
    intros x Hx. apply E, elem_of_allContributors. eauto.
Qed.

Lemma sumZ_perm (l k : list Z) : l ≡ₚ k -> sumZ l = sumZ k.
Proof.
  unfold sumZ.
  induction 1 as [|x l k _ IH|x y l|l k m _ IH1 _ IH2]; cbn [foldr];
    [reflexivity|rewrite IH; reflexivity|lia|congruence].
Qed.

Lemma sum_list_perm (l k : list nat) : l ≡ₚ k -> sum_list l = sum_list k.
Proof.
  induction 1; simpl in *; unfold id in *; lia.
Qed.

(** X20. The totals do not depend on the order of the repositories: the
    order in which the batches were collected, or a re-ordering of the
    input, changes none of the figures. *)
Theorem calculateTotals_order (repos repos' : list RepoStats) :
  repos ≡ₚ repos' ->
  ts_totals (calculateTotals repos) = ts_totals (calculateTotals repos').
Proof.
  intros P. rewrite !calculateTotals_closed. cbn [ts_totals].
  assert (forall f : RepoStats -> nat,
            sum_list (map f repos) = sum_list (map f repos')) as N
    by (intros f; apply sum_list_perm, Permutation_map, P).
  assert (forall f : RepoStats -> Z, sumZ (map f repos) = sumZ (map f repos')) as Z
    by (intros f; apply sumZ_perm, Permutation_map, P).
  rewrite !N, !Z, (Permutation_length P).
  f_equal. rewrite !distinct_size. f_equal. apply set_eq. intros x.
  rewrite !elem_of_list_to_set, !elem_of_allContributors.
  split; intros (repo & In & H); exists repo; split; auto.
  - rewrite <- P. exact In.
  - rewrite P. exact In.
Qed.

Section TotalsOfCollected.
Context {Env : Type} `{!Octokit Env}.
Variable config : Config.
Variable fuel : nat.

(** X21. For records that [getRepoStats] returned, the totals are
    consistent with one another: the total of the net lines is the total of
    the lines added minus the total of the lines deleted, and the number of
    contributors of the totals lies between the number of contributors of
    every single repository and the sum of these numbers. *)
Theorem totals_of_collected (repos : list RepoStats) :
  Forall (fun stats => exists repo, collected config fuel repo stats) repos ->
  let totals := ts_totals (calculateTotals repos) in
  total_totalLines totals =
    (total_linesAdded totals - total_linesDeleted totals)%Z /\
  total_contributors totals <= sum_list (map contributors repos) /\
  forall stats, stats ∈ repos -> contributors stats <= total_contributors totals.
Proof.
  intros Collected. cbv zeta.
  assert (Forall (fun stats =>
                    totalLines stats = (linesAdded stats - linesDeleted stats)%Z /\
                    contributors stats = length (contributorsList stats) /\
                    NoDup (contributorsList stats)) repos) as Each.
  { eapply Forall_impl; [exact Collected|].
    intros stats (repo & s1 & s2 & Run).
    pose proof (getRepoStats_ensures config fuel repo s1) as H.
    rewrite Run in H. destruct H as (T & C & [N _] & _). auto. }
  rewrite calculateTotals_closed.
  cbn [ts_totals total_totalLines total_linesAdded total_linesDeleted
         total_contributors].
  split; [|split].
  - clear Collected. induction Each as [|stats rest (T & _) _ IH]; [reflexivity|].
    cbn [map sumZ foldr].
    fold (sumZ (map totalLines rest)) (sumZ (map linesAdded rest))
         (sumZ (map linesDeleted rest)). lia.
  - assert (map contributors repos =
            map (fun repo => length (contributorsList repo)) repos) as ->.
    { clear Collected. induction Each as [|stats rest (_ & C & _) _ IH]; [reflexivity|].
      cbn [map]. rewrite C, IH. reflexivity. }
    rewrite <- allContributors_length.
    destruct (distinct_spec (allContributors repos)) as [N E].
    apply submseteq_length, NoDup_submseteq; [exact N|].
    intros x. apply E.
  - intros stats In. rewrite Forall_forall in Each.
    destruct (Each _ In) as (_ & -> & N).
    destruct (distinct_spec (allContributors repos)) as [_ E].
    apply submseteq_length, NoDup_submseteq; [exact N|].
    intros x Hx. apply E, elem_of_allContributors. eauto.
Qed.

End TotalsOfCollected.

Lemma pushRepo_map (g : string -> UserStats) contributor repoName :
  (forall a, username (g a) = a) ->
  forall users, NoDup users ->
    pushRepo contributor repoName (map g users) =
    map (fun a =>
           if String.eqb a contributor
           then mkUserStats (username (g a)) (user_commits (g a))
                  (user_linesAdded (g a)) (user_linesDeleted (g a))
                  (user_pullRequests (g a)) (user_repos (g a) ++ [repoName])
           else g a) users.
Proof.
  intros Name. induction users as [|a users IH]; intros N; [reflexivity|].
  apply NoDup_cons in N as [Fresh N]. cbn [map pushRepo]. rewrite Name.
  destruct (String.eqb_spec a contributor) as [->|Ne].
  - f_equal. apply map_ext_in. intros b In.
    destruct (String.eqb_spec b contributor) as [->|_]; [|reflexivity].
    exfalso. apply Fresh, list_elem_of_In, In.
  - f_equal. apply IH, N.
Qed.

Lemma visits_closed vs :
  foldl visit [] vs = map (userAfter vs) (distinct (map fst vs)).
Proof.
  induction vs as [|[c rn] vs IH] using rev_ind; [reflexivity|].
  rewrite foldl_app, map_app. cbn [foldl map fst].
  rewrite distinct_snoc, IH.
  destruct (distinct_spec (map fst vs)) as [N E].
  set (U := distinct (map fst vs)) in *.
  unfold visit. cbn [fst snd].
  assert (ensureUser c (map (userAfter vs) U) = map (userAfter vs) (setAdd c U)) as ->.
  { unfold ensureUser, setAdd. rewrite map_map. cbn [userAfter username].
    rewrite map_id. case_bool_decide as In; [reflexivity|].
    rewrite map_app. cbn [map]. do 2 f_equal. unfold userAfter. f_equal.
    rewrite filter_none; [reflexivity|].
    apply Forall_forall. intros [c' rn'] Hv. cbn [fst].
    destruct (String.eqb_spec c c') as [->|]; [|reflexivity].
    exfalso. apply In, E, list_elem_of_fmap. exists (c', rn'). auto. }
  assert (NoDup (setAdd c U)) as N'.
  { unfold setAdd. case_bool_decide as In; [exact N|].
    apply NoDup_app. split; [exact N|]. split; [|apply NoDup_singleton].
    intros x Hx Hx'. apply list_elem_of_singleton in Hx'. subst. contradiction. }
  rewrite pushRepo_map by (reflexivity || exact N').
  apply map_ext. intros a. unfold userAfter. cbn [username user_commits
    user_linesAdded user_linesDeleted user_pullRequests user_repos].
  rewrite List.filter_app, map_app. cbn [List.filter fst].
  rewrite (String.eqb_sym a c).
  destruct (String.eqb c a); cbn [map snd]; [reflexivity|].
  rewrite app_nil_r. reflexivity.
Qed.

Lemma calculateUserStats_visits repos :
  calculateUserStats repos = foldl visit [] (visits repos).
Proof.
  unfold calculateUserStats, visits. generalize (@nil UserStats) as userMap.
  induction repos as [|repo rest IH]; intros userMap; [reflexivity|].
  cbn [foldl flat_map]. rewrite foldl_app, IH. f_equal.
  generalize userMap. induction (contributorsList repo) as [|c cs IHc];
    intros um; [reflexivity|].
  cbn [foldl map]. apply IHc.
Qed.

Lemma visits_users repos : map fst (visits repos) = allContributors repos.
Proof.
  unfold visits, allContributors.
  induction repos as [|repo rest IH]; [reflexivity|].
  cbn [flat_map map concat]. rewrite map_app, IH, map_map. cbn [fst].
  rewrite map_id. reflexivity.
Qed.

Lemma visits_repos user repos :
  map snd (List.filter (fun v => String.eqb user (fst v)) (visits repos)) =
  reposOf user repos.
Proof.
  unfold visits, reposOf.
  induction repos as [|repo rest IH]; [reflexivity|].
  cbn [flat_map]. rewrite List.filter_app, map_app, IH. f_equal.
  induction (contributorsList repo) as [|c cs IHc]; [reflexivity|].
  cbn [map List.filter fst]. destruct (String.eqb user c); cbn [map snd];
    rewrite IHc; reflexivity.
Qed.

(** X22. [calculateUserStats] returns one record for each distinct
    contributor over all the repositories, in the order of first
    appearance, so as many records as the [contributors] figure of
    [calculateTotals].  A user's [repos] are the names of the repositories
    that list them, in the order of the input; their commits, lines and pull
    requests are always 0. *)
Theorem calculateUserStats_users (repos : list RepoStats) :
  let users := calculateUserStats repos in
  map username users = distinct (allContributors repos) /\
  NoDup (map username users) /\
  (forall a, a ∈ map username users <-> a ∈ allContributors repos) /\
  length users = total_contributors (ts_totals (calculateTotals repos)) /\
  forall user, user ∈ users ->
    user = mkUserStats (username user) 0 0 0 0 (reposOf (username user) repos).
Proof.
  cbv zeta. rewrite calculateUserStats_visits, visits_closed, visits_users.
  assert (map username (map (userAfter (visits repos))
                            (distinct (allContributors repos))) =
          distinct (allContributors repos)) as Names.
  { rewrite map_map. cbn [userAfter username]. apply map_id. }
  destruct (distinct_spec (allContributors repos)) as [N E].
  rewrite Names. split; [reflexivity|]. split; [exact N|]. split; [exact E|]. split.
  - rewrite length_map, calculateTotals_closed. reflexivity.
  - intros user In. apply list_elem_of_fmap in In as (a & -> & _).
    unfold userAfter. cbn [username]. rewrite visits_repos. reflexivity.
Qed.

(** ** CSV fields *)

Lemma includes_char c s :
  Str.includes s (String c EmptyString) =
  match s with
  | EmptyString => false
  | String h rest => Ascii.eqb h c || Str.includes rest (String c EmptyString)
  end.
Proof.
  destruct s as [|h rest]; [reflexivity|].
  cbn [Str.includes String.prefix]. f_equal.
  destruct (ascii_dec c h) as [->|Ne].
  - rewrite Ascii.eqb_refl. destruct rest; reflexivity.
  - symmetry. apply Ascii.eqb_neq. congruence.
Qed.

Lemma append_cons c s t : (String c s ++ t)%string = String c (s ++ t).
Proof. reflexivity. Qed.

Lemma append_empty t : (EmptyString ++ t)%string = t.
Proof. reflexivity. Qed.

Lemma doubleQuotes_inj f g : doubleQuotes f = doubleQuotes g -> f = g.
Proof.
  revert g. induction f as [|c r IH]; intros [|c' r']; cbn [doubleQuotes].
  - reflexivity.
  - destruct (Ascii.eqb c' dquote); discriminate.
  - destruct (Ascii.eqb c dquote); discriminate.
  - destruct (Ascii.eqb c dquote) eqn:Q, (Ascii.eqb c' dquote) eqn:Q'; intros E.
    + apply Ascii.eqb_eq in Q, Q'. subst c c'.
      injection E as E. f_equal. apply IH, E.
    + injection E as E _. subst c'. rewrite Ascii.eqb_refl in Q'. discriminate.
    + injection E as E _. subst c. rewrite Ascii.eqb_refl in Q. discriminate.
    + injection E as -> E. f_equal. apply IH, E.
Qed.

Lemma append_last_inj s t c :
  (s ++ String c EmptyString)%string = (t ++ String c EmptyString)%string -> s = t.
Proof.
  revert t. induction s as [|a s IH]; intros [|b t];
    rewrite ?append_cons, ?append_empty; intros E.
  - reflexivity.
  - injection E as _ E. destruct t; rewrite ?append_cons, ?append_empty in E;
      discriminate.
  - injection E as _ E. destruct s; rewrite ?append_cons, ?append_empty in E;
      discriminate.
  - injection E as -> E. f_equal. apply IH, E.
Qed.

(** X23. [escapeCsvField] loses nothing: two different fields are never
    written as the same text, whatever commas, quotes and line feeds they
    hold; in particular the text of a field that is put between quotes is
    never the text of a field that is written as it is. *)
Theorem escapeCsvField_injective (f g : string) :
  f <> g -> escapeCsvField f <> escapeCsvField g.
Proof.
  intros Ne E. apply Ne. clear Ne. unfold escapeCsvField in E.
  assert (forall inner s,
            String dquote inner = s ->
            Str.includes s "," || Str.includes s (String dquote EmptyString) ||
            Str.includes s (String newline EmptyString) = true) as Opens.
  { intros inner s <-. rewrite (includes_char dquote (String dquote inner)).
    rewrite Ascii.eqb_refl. cbn [orb]. apply orb_true_iff. left.
    apply orb_true_r. }
  destruct (Str.includes f "," || Str.includes f (String dquote EmptyString) ||
            Str.includes f (String newline EmptyString)) eqn:Qf;
    destruct (Str.includes g "," || Str.includes g (String dquote EmptyString) ||
              Str.includes g (String newline EmptyString)) eqn:Qg.
  - injection E as E. apply append_last_inj in E. apply doubleQuotes_inj, E.
  - rewrite (Opens _ _ E) in Qg. discriminate.
  - symmetry in E. rewrite (Opens _ _ E) in Qf. discriminate.
  - exact E.
Qed.

(** ** The base URL *)

Lemma stripTrailingSlash_slash url : stripTrailingSlash (url ++ "/") = url.
Proof.
  induction url as [|c rest IH]; [reflexivity|].
  rewrite append_cons. cbn [stripTrailingSlash]. rewrite IH.
  destruct (rest ++ "/")%string eqn:E; [|reflexivity].
  destruct rest; discriminate.
Qed.

Lemma stripTrailingSlash_other url c :
  c <> "/"%char ->
  stripTrailingSlash (url ++ String c EmptyString) = (url ++ String c EmptyString)%string.
Proof.
  intros Ne. induction url as [|h rest IH].
  - rewrite append_empty. cbn [stripTrailingSlash].
    apply Ascii.eqb_neq in Ne. rewrite Ne. reflexivity.
  - rewrite append_cons. cbn [stripTrailingSlash]. rewrite IH.
    destruct (rest ++ String c EmptyString)%string eqn:E; [|reflexivity].
    destruct rest; discriminate.
Qed.

(** X24. With or without a slash at the end of the enterprise URL the base
    URL is the same, the URL followed by [/api/v3]; only one slash is taken
    off, so a URL that ends in two keeps one.  Without the enterprise flag
    the URL is not looked at. *)
Theorem getApiBaseUrl_trailing_slash (url : string) (c : ascii) :
  getApiBaseUrl true (url ++ "/") = (url ++ "/api/v3")%string /\
  (c <> "/"%char ->
   getApiBaseUrl true (url ++ String c EmptyString) =
   getApiBaseUrl true (url ++ String c "/")) /\
  getApiBaseUrl true "" = "/api/v3" /\
  getApiBaseUrl false url = "https://api.github.com".
Proof.
  unfold getApiBaseUrl. rewrite stripTrailingSlash_slash.
  split; [reflexivity|]. split; [|split; reflexivity].
  intros Ne. rewrite stripTrailingSlash_other by exact Ne.
  replace (url ++ String c "/")%string with ((url ++ String c EmptyString) ++ "/")%string.
  - rewrite stripTrailingSlash_slash. reflexivity.
  - induction url as [|h rest IH]; [reflexivity|].
    rewrite !append_cons, IH. reflexivity.
Qed.

(** ** Command-line arguments *)

Lemma parseFrom_wellFormed n :
  forall args options,
    length args <= n ->
    wellFormed options ->
    match Cli.parseFrom options args with
    | Cli.Options options' => wellFormed options'
    | Cli.Exit code => code = 1%Z \/ (code = 0%Z /\ "--help" ∈ args)
    end.
Proof.
  induction n as [|n IH]; intros args options Len W.
  - destruct args; [exact W|cbn in Len; lia].
  - destruct args as [|arg rest]; [exact W|]. cbn [length] in Len.
    assert (forall options' rest',
              length rest' <= n -> wellFormed options' ->
              (forall a, a ∈ rest' -> a ∈ rest) ->
              match Cli.parseFrom options' rest' with
              | Cli.Options options'' => wellFormed options''
              | Cli.Exit code =>
                  code = 1%Z \/ (code = 0%Z /\ "--help" ∈ arg :: rest)
              end) as Next.
    { intros options' rest' L W' Sub. specialize (IH rest' options' L W').
      destruct (Cli.parseFrom options' rest'); [|exact IH].
      destruct IH as [E|[E In]]; [auto|]. right. split; [exact E|].
      right. apply Sub, In. }
    assert (forall (set : option string -> Cli.CliOptions -> Cli.CliOptions),
              (forall v, wellFormed (set v options)) ->
              match
                match rest with
                | value :: rest' => Cli.parseFrom (set (Some value) options) rest'
                | [] => Cli.Options (set None options)
                end
              with
              | Cli.Options options'' => wellFormed options''
              | Cli.Exit code =>
                  code = 1%Z \/ (code = 0%Z /\ "--help" ∈ arg :: rest)
              end) as Value.
    { intros set Ok. destruct rest as [|value rest']; [apply Ok|].
      apply Next; [cbn in Len; lia|apply Ok|]. intros a In. right. exact In. }
    cbn [Cli.parseFrom].
    destruct (String.eqb arg "--config"); [apply (Value Cli.setConfigPath); intros; exact W|].
    destruct (String.eqb arg "--start"); [apply (Value Cli.setStartDate); intros; exact W|].
    destruct (String.eqb arg "--end"); [apply (Value Cli.setEndDate); intros; exact W|].
    destruct (String.eqb arg "--format").
    { destruct rest as [|format rest']; [auto|].
      case_bool_decide as Valid; [|auto].
      apply Next; [cbn in Len; lia| |intros a In; right; exact In].
      split; [exact Valid|apply W]. }
    destruct (String.eqb arg "--output" || String.eqb arg "-o");
      [apply (Value Cli.setOutputFile); intros; exact W|].
    destruct (String.eqb arg "--dry-run"); [apply Next; [lia|exact W|auto]|].
    destruct (String.eqb arg "--by-user"); [apply Next; [lia|exact W|auto]|].
    destruct (String.eqb arg "--compare").
    { destruct rest as [|start1 [|end1 [|start2 [|end2 rest4]]]]; auto.
      destruct (truthy start1) eqn:T1; cbn [andb]; [|auto].
      destruct (truthy end1) eqn:T2; cbn [andb]; [|auto].
      destruct (truthy start2) eqn:T3; cbn [andb]; [|auto].
      destruct (truthy end2) eqn:T4; cbn [andb]; [|auto].
      apply Next; [cbn in Len; lia| |intros a In; do 4 right; exact In].
      split; [apply W|]. cbn. intros ? ? ? ? [= <- <- <- <-].
      repeat split; intros ->; discriminate. }
    destruct (String.eqb_spec arg "--help") as [->|_].
    { right. split; [reflexivity|left]. }
    apply Next; [lia|exact W|auto].
Qed.

(** X25. When [parseArgs] returns, the format it returns is one of
    [table], [json], [csv] and [markdown], and a comparison, when there is
    one, has four non-empty dates.  When it ends the process instead, the
    exit code is 1, or it is 0 and [--help] is among the arguments. *)
Theorem parseArgs_wellFormed (args : list string) :
  match Cli.parseArgs args with
  | Cli.Options options => wellFormed options
  | Cli.Exit code => code = 1%Z \/ (code = 0%Z /\ "--help" ∈ args)
  end.
Proof.
  apply parseFrom_wellFormed with (n := length args); [lia|].
  split; [|discriminate]. apply (bool_decide_unpack _). vm_compute. exact I.
Qed.

(** ** The scheduler at its bounds *)

Section SchedulerBounds.
Context {Env : Type} `{!Octokit Env}.
Variable config : Config.
Variable completion : nat -> list nat.

(** X29. The bounds of [processRepos].  With no repository it returns the
    empty array at once, without a request, whatever the concurrency limit.
    With a concurrency limit of 0 and at least one repository it never
    returns: every batch is empty and the loop does not advance, however
    much fuel it is given. *)
Theorem processRepos_bounds (fuel : nat) (repos : list RepoInfo) (s : State Env) :
  (1 <= fuel ->
   forall concurrency,
     processRepos config completion fuel [] concurrency s = (Return [], s)) /\
  (repos <> [] ->
   fst (processRepos config completion fuel repos 0 s) = Unfinished).
Proof.
  split.
  - intros Fuel concurrency. destruct fuel as [|fuel]; [lia|]. reflexivity.
  - apply processRepos_stalls.
Qed.

End SchedulerBounds.

(** * Scenarios

    Concrete remotes on which the theorems above are instantiated and the
    statements that do not hold are refuted. *)
Module Scenarios.
Import Remote Fixtures.

(** C1.  The claim holds of the fallback as documented and fails on the
    code when the range holds more commits than one page of the listing.
    The listing that is to find the oldest commit of the range is read one
    page only, and its last item is taken for the oldest commit.

    First scenario: the default page size of 100 and a history of 101 commits,
    all inside the range, none before it, the oldest being the root with 10
    additions and 2 deletions on record.  The last item of the first page is
    commit 2, whose parent, the root, becomes the base of a comparison: the
    result is the difference from the root to the head, [{100, 0}], not the
    root's own [{10, 2}].

    Second scenario: two commits and one commit per page; the newest commit
    is taken for the oldest and the result is [{7, 1}]. *)
Lemma root_commit_beyond_first_page :
  (skipLineStats wide = false /\
   pageSize wide = 100 /\
   length (history long) = 101 /\
   Forall (inside wide) (history long) /\
   Forall (fun c => (date (numbered 1) <= date c)%Z) (history long) /\
   last (history long) = Some (numbered 1) /\
   parents (detail (numbered 1)) = Some [] /\
   stats (detail (numbered 1)) = Some (mkLineStats (Some 10%Z) (Some 2%Z)) /\
   fst (@getLinesOfCode _ (octokit (healthy archive)) wide "long" (Some "main")
          (fresh clk)) =
     Return (mkLines 100 0) /\
   mkLines 100 0 <> mkLines 10 2 /\
   requests (journal (snd (@getLinesOfCode _ (octokit (healthy archive)) wide "long"
                             (Some "main") (fresh clk)))) =
     [Called (ReposListCommits (mkListCommits "org" "long" "main" None (Some 300%Z) 1 None)) None;
      Called (ReposListCommits (mkListCommits "org" "long" "main" None (Some 99%Z) 1 None)) None;
      Called (ReposListCommits (mkListCommits "org" "long" "main" (Some 100%Z) (Some 300%Z) 100 None)) None;
      Called (ReposGetCommit "org" "long" (shaOf 2)) None;
      Called (ReposCompareCommits "org" "long" (shaOf 1) (shaOf 101)) None]) /\
  (skipLineStats onePerPage = false /\
   pageSize onePerPage = 1 /\
   Forall (inside onePerPage) (history alpha) /\
   last (history alpha) = Some rootCommit /\
   parents (detail rootCommit) = Some [] /\
   stats (detail rootCommit) = Some (mkLineStats (Some 10%Z) (Some 2%Z)) /\
   fst (@getLinesOfCode _ github onePerPage "alpha" (Some "main") (fresh clk)) =
     Return (mkLines 7 1) /\
   mkLines 7 1 <> mkLines 10 2 /\
   requests (journal (snd (@getLinesOfCode _ github onePerPage "alpha"
                             (Some "main") (fresh clk)))) =
     [Called (ReposListCommits (mkListCommits "org" "alpha" "main" None (Some 200%Z) 1 None)) None;
      Called (ReposListCommits (mkListCommits "org" "alpha" "main" None (Some 99%Z) 1 None)) None;
      Called (ReposListCommits (mkListCommits "org" "alpha" "main" (Some 100%Z) (Some 200%Z) 1 None)) None;
      Called (ReposGetCommit "org" "alpha" "bbb") None;
      Called (ReposCompareCommits "org" "alpha" "aaa" "bbb") None]).
Proof.
  split.
  - split; [reflexivity|]. split; [reflexivity|]. split; [reflexivity|].
    split.
    { apply Forall_forall. intros c In. apply list_elem_of_fmap in In as (k & -> & In).
      apply list_elem_of_In, in_rev, in_seq in In. unfold inside. cbn. lia. }
    split.
    { apply Forall_forall. intros c In. apply list_elem_of_fmap in In as (k & -> & In).
      apply list_elem_of_In, in_rev, in_seq in In. cbn. lia. }
    split; [vm_compute; reflexivity|].
    split; [reflexivity|]. split; [reflexivity|].
    split; [vm_compute; reflexivity|].
    split; [discriminate|]. vm_compute. reflexivity.
  - split; [reflexivity|]. split; [reflexivity|].
    split; [repeat constructor; cbn; lia|].
    repeat split; try reflexivity. discriminate.
Qed.

Lemma root_commit_fallback_witness :
  exists s',
    @getLinesOfCode _ (remote_octokit hosting) covering "alpha" (Some "main")
      (fresh clk) =
    (Return (mkLines 10 2), s').
Proof.
  apply root_commit_fallback with (r := alpha) (root := rootCommit).
  - reflexivity.
  - reflexivity.
  - repeat constructor; cbn; lia.
  - cbn. lia.
  - reflexivity.
  - right. reflexivity.
  - apply (bool_decide_unpack _). vm_compute. exact I.
Defined.

Lemma lines_empty_history_witness :
  let run := @getLinesOfCode _ github covering "ghost" (Some "main") (fresh clk) in
  (exists operationName,
     fst run = Throw (GitHubApiError "ghost" operationName notFound)) /\
  fst (@safe _ _ (@getLinesOfCode _ github covering "ghost" (Some "main")) zeroLines
         (fresh clk)) =
    Return zeroLines.
Proof.
  intros run.
  destruct (@lines_empty_history _ github covering "ghost" (Some "main") (fresh clk))
    as (evs & J & _ & Rejected & _ & _).
  assert (evs = [Called (headRequest covering "ghost" "main") (Some notFound)]) as ->.
  { change (journal (fresh clk) ++ evs) with evs in J. rewrite <- J.
    vm_compute. reflexivity. }
  destruct (Rejected (Called (headRequest covering "ghost" "main") (Some notFound))
              notFound) as (Thrown & Zero).
  - apply list_elem_of_singleton. reflexivity.
  - reflexivity.
  - left. reflexivity.
  - split; [exact Thrown|]. apply Zero. left. reflexivity.
Defined.

(** C3 as stated fails for the release collector: the listing is rejected
    with a 500, which is neither retryable nor an empty-history status, and
    [getRepoStats] returns with [releases = 0]. *)
Lemma release_failure_swallowed :
  let run := @getRepoStats _ (octokit noReleases) covering 5
               (mkRepoInfo "alpha" false) (fresh clk) in
  isRetryableError serverError = false /\
  emptyHistory serverError = false /\
  Called (ReposListReleases "org" "alpha" 100 1) (Some serverError)
    ∈ journal (snd run) /\
  exists stats, fst run = Return stats /\ releases stats = 0 /\ commits stats = 2.
Proof.
  intros run. split; [reflexivity|]. split; [reflexivity|]. split.
  - apply list_elem_of_In. vm_compute. tauto.
  - eexists. split; [vm_compute; reflexivity|]. split; reflexivity.
Qed.


Lemma idle_repository_witness :
  (forall targetBranch,
     payload (healthy hosting) (baseRequest later "alpha" targetBranch) =
     payload (healthy hosting) (headRequest later "alpha" targetBranch)) /\
  forall s, exists stats s',
    @getRepoStats _ (remote_octokit hosting) later 7 (mkRepoInfo "alpha" true)
      s = (Return stats, s') /\
    linesAdded stats = 0%Z /\ linesDeleted stats = 0%Z /\
    commits stats = 0 /\ contributors stats = 0.
Proof.
  apply idle_repository with (r := alpha).
  - reflexivity.
  - discriminate.
  - repeat constructor; unfold inside; cbn; lia.
  - cbn. lia.
  - cbn. lia.
  - cbn. lia.
Defined.

Lemma withRetry_gives_up_witness :
  (exists e1 e2 e3,
     fst (@withRetry _ (octokit down) _ fetchMeta "alpha" "fetching default branch"
            (fresh clk)) =
       Throw (GitHubApiError "alpha" "fetching default branch" e3) /\
     isRetryableError e3 = true /\
     journal (snd (@withRetry _ (octokit down) _ fetchMeta "alpha"
                     "fetching default branch" (fresh clk))) =
       [Called fetchMeta (Some e1); Slept (delayMs 1 e1);
        Called fetchMeta (Some e2); Slept (delayMs 2 e2);
        Called fetchMeta (Some e3)] /\
     calls (journal (snd (@withRetry _ (octokit down) _ fetchMeta "alpha"
                            "fetching default branch" (fresh clk)))) = 3) /\
  fst (@withRetry _ github _ (ReposGet "org" "ghost") "ghost"
         "fetching default branch" (fresh clk)) =
    Throw (GitHubApiError "ghost" "fetching default branch" notFound) /\
  journal (snd (@withRetry _ github _ (ReposGet "org" "ghost") "ghost"
                  "fetching default branch" (fresh clk))) =
    [Called (ReposGet "org" "ghost") (Some notFound)].
Proof.
  split.
  - apply (proj1 (@withRetry_gives_up _ (octokit down) _ fetchMeta "alpha"
                    "fetching default branch" (fresh clk))).
    intros e. exists unavailable. split; reflexivity.
  - destruct (proj2 (@withRetry_gives_up _ github _ (ReposGet "org" "ghost") "ghost"
                       "fetching default branch" (fresh clk)) notFound)
      as (Thrown & Journal & _).
    + reflexivity.
    + reflexivity.
    + split; [exact Thrown|exact Journal].
Defined.

Lemma retry_backoff_witness :
  @attemptLoop _ (octokit down) _ 3 1 None fetchMeta "alpha" "fetching default branch"
    (fresh clk) =
  @attemptLoop _ (octokit down) _ 2 2 (Some unavailable) fetchMeta "alpha"
    "fetching default branch"
    (@afterSleep _ (octokit down) 1000
       (afterCall fetchMeta (Some unavailable)
          (mkClock 1700000000000 4999 1700003600) (fresh clk))).
Proof.
  apply (@retry_backoff _ (octokit down) _ fetchMeta "alpha" "fetching default branch"
           2 1 None (fresh clk) unavailable (mkClock 1700000000000 4999 1700003600)).
  - reflexivity.
  - reflexivity.
  - lia.
  - unfold MAX_RETRIES. lia.
Defined.

Lemma pull_requests_early_stop_witness :
  exists s',
    @getPullRequestCount _ (remote_octokit hosting) pullWindow 3 "alpha"
      (Some "main") (fresh clk) = (Return 3, s') /\
    requests (journal s') =
      [Called (PullsList "org" "alpha" "main" 2 1) None;
       Called (PullsList "org" "alpha" "main" 2 2) None;
       Called (PullsList "org" "alpha" "main" 2 3) None].
Proof.
  apply (@pull_requests_early_stop hosting pullWindow "alpha" alpha eq_refl
           100 200 300 400 500 [Build_PullItem 50] "main" 3)%Z.
  - lia.
  - lia.
  - reflexivity.
  - reflexivity.
  - reflexivity.
  - cbn. lia.
Defined.

Lemma processRepos_order_witness :
  schedule lastFirst (length fourRepos) 2 = [1; 0; 3; 2] /\
  schedule lastFirst (length fourRepos) 2 ≡ₚ seq 0 (length fourRepos) /\
  exists runs results s',
    @collectAt _ (remote_octokit hosting) later 7 fourRepos
      (schedule lastFirst (length fourRepos) 2) (fresh clk) = (Return runs, s') /\
    @processRepos _ (remote_octokit hosting) later lastFirst 7 fourRepos 2 (fresh clk) =
      (Return results, s') /\
    map fst runs = schedule lastFirst (length fourRepos) 2 /\
    length results = length fourRepos /\
    (forall i stats, (i, stats) ∈ runs -> results !! i = Some (Some stats)) /\
    forall i repo, fourRepos !! i = Some repo ->
      exists stats,
        (i, stats) ∈ runs /\
        results !! i = Some (Some stats) /\
        @collected _ (remote_octokit hosting) later 7 repo stats /\
        rs_name stats = name repo /\ rs_isArchived stats = isArchived repo.
Proof.
  split; [reflexivity|].
  destruct (@processRepos_order _ (remote_octokit hosting) later lastFirst 7
              fourRepos 2) as (_ & _ & _ & Cover & Run).
  - lia.
  - cbn. lia.
  - assert (forall repoName isArchived,
              String.eqb repoName "ghost" = false ->
              @settles _ (remote_octokit hosting) later 7
                       (mkRepoInfo repoName isArchived)) as Hosted.
    { intros repoName isArchived Known s.
      destruct (@idle_collection hosting later repoName alpha) with (fuel := 7)
        (archived := isArchived) (s := s) as (stats & s' & _ & Run & _).
      - unfold hosting. rewrite Known. reflexivity.
      - discriminate.
      - repeat constructor; unfold inside; cbn; lia.
      - cbn. lia.
      - cbn. lia.
      - cbn. lia.
      - exists stats, s'. exact Run. }
    repeat constructor; apply Hosted; reflexivity.
  - intros i. unfold lastFirst. symmetry. apply Permutation_rev.
  - split; [exact Cover|]. apply Run.
Defined.

(** The run of that scenario, computed: the collections settle in the order
    B, A, D, C, the array reads A, B, C, D, and the run ends in the state in
    which the four collections, taken in that order, end. *)
Lemma processRepos_order_run :
  exists results runs,
    fst (@processRepos _ (remote_octokit hosting) later lastFirst 7
           fourRepos 2 (fresh clk)) = Return results /\
    map (option_map rs_name) results = [Some "A"; Some "B"; Some "C"; Some "D"] /\
    fst (@collectAt _ (remote_octokit hosting) later 7 fourRepos [1; 0; 3; 2]
           (fresh clk)) = Return runs /\
    map (fun run => (fst run, rs_name (snd run))) runs =
      [(1, "B"); (0, "A"); (3, "D"); (2, "C")] /\
    snd (@processRepos _ (remote_octokit hosting) later lastFirst 7
           fourRepos 2 (fresh clk)) =
    snd (@collectAt _ (remote_octokit hosting) later 7 fourRepos [1; 0; 3; 2]
           (fresh clk)).
Proof.
  eexists. eexists. split; [vm_compute; reflexivity|]. split; [reflexivity|].
  split; [vm_compute; reflexivity|]. split; [reflexivity|].
  vm_compute. reflexivity.
Qed.

End Scenarios.

(** * Further scenarios

    The properties above that have a precondition, each instantiated on a
    concrete remote or input. *)
Module Instances.
Import Remote Fixtures Samples.

Lemma withRetry_recovers_witness :
  fst (@withRetry _ flaky _ fetchMeta "alpha" "fetching default branch" started) =
    Return (mkResponse (Build_RepoMeta "main") (mkHeaders (Some 4000%Z) None)) /\
  journal (snd (@withRetry _ flaky _ fetchMeta "alpha" "fetching default branch"
                  started)) =
    [Called fetchMeta (Some unavailable); Slept 1000; Called fetchMeta None].
Proof.
  apply (proj1 (@withRetry_recovers _ flaky _ fetchMeta "alpha"
                  "fetching default branch" started unavailable 1 eq_refl eq_refl)
               _ 2).
  reflexivity.
Defined.

Lemma getReleaseCount_never_throws_witness :
  @releasePage _ (octokit noReleases) covering "alpha" (7, 1) (fresh clk) =
    (Return (Finish 0),
     snd (@withRetry _ (octokit noReleases) _ (ReposListReleases "org" "alpha" 100 1)
            "alpha" "fetching releases" (fresh clk))) /\
  fst (@withRetry _ (octokit noReleases) _ (ReposListReleases "org" "alpha" 100 1)
         "alpha" "fetching releases" (fresh clk)) =
    Throw (GitHubApiError "alpha" "fetching releases" serverError).
Proof.
  split; [|reflexivity].
  apply (proj2 (@getReleaseCount_never_throws _ (octokit noReleases) covering "alpha" 1)
               7 1 (fresh clk) (GitHubApiError "alpha" "fetching releases" serverError)).
  reflexivity.
Defined.

Lemma getDefaultBranch_memoizes_witness :
  let s' := snd (@getDefaultBranch _ github covering "alpha" (fresh clk)) in
  repoBranchCache s' = <["alpha" := "main"]> ∅ /\
  @getDefaultBranch _ github covering "alpha" s' = (Return "main", s').
Proof.
  intros s'.
  pose proof (@getDefaultBranch_memoizes _ github covering "alpha" (fresh clk)) as H.
  cbv zeta in H.
  assert (fst (@getDefaultBranch _ github covering "alpha" (fresh clk)) = Return "main")
    as E by (vm_compute; reflexivity).
  rewrite E in H. destruct H as [C M]. split; [exact C|].
  apply M. reflexivity.
Defined.

Lemma clearBranchCache_refetches_witness :
  let s := mkState 5000 0 (<["alpha" := ""]> ∅) clk [] in
  exists evs,
    journal (snd (@getDefaultBranch _ github covering "alpha" s)) = journal s ++ evs /\
    1 <= calls evs <= 3.
Proof.
  intros s.
  apply (proj2 (@clearBranchCache_refetches _ github covering "alpha" s)).
  apply lookup_insert_eq.
Defined.

Lemma getRepoStats_consistent_witness :
  let stats :=
    mkRepoStats "alpha" false 2 0 0 0 2 2 ["al@example.org"; "bob"] 0 0 1 in
  fst (@getRepoStats _ github skipping 5 (mkRepoInfo "alpha" false) (fresh clk)) =
    Return stats /\
  linesAdded stats = 0%Z /\ linesDeleted stats = 0%Z /\ totalLines stats = 0%Z.
Proof.
  intros stats.
  assert (fst (@getRepoStats _ github skipping 5 (mkRepoInfo "alpha" false)
                 (fresh clk)) = Return stats) as E by (vm_compute; reflexivity).
  split; [exact E|].
  pose proof (@getRepoStats_consistent _ github skipping 5 (mkRepoInfo "alpha" false)
                (fresh clk)) as H.
  rewrite E in H. destruct H as (_ & _ & _ & _ & Skip). apply Skip. reflexivity.
Defined.

Lemma getCommitCount_exact_witness :
  yields (@getCommitCount _ (remote_octokit hosting) covering 1 "alpha" (Some "main"))
    (fun count evs =>
       count = 2 /\
       evs = [Called (rangeCommits covering "alpha" "main" (Some 1)) None]).
Proof.
  eapply yields_conseq.
  - apply (@getCommitCount_exact hosting covering "alpha" alpha eq_refl "main" 1).
    + discriminate.
    + cbn. lia.
  - intros count evs [-> ->]. split; reflexivity.
Defined.

Lemma getContributors_exact_witness :
  yields (@getContributors _ (remote_octokit hosting) covering 1 "alpha" (Some "main"))
    (fun contributorsList _ =>
       NoDup contributorsList /\
       forall a, a ∈ contributorsList <->
                 a <> "" /\
                 exists c, c ∈ commitsInRange covering alpha /\
                           authorOf (listed c) = Some a).
Proof.
  apply (@getContributors_exact hosting covering "alpha" alpha eq_refl "main" 1).
  - discriminate.
  - cbn. lia.
Defined.

Lemma getPullRequestCount_exact_witness :
  yields (@getPullRequestCount _ (remote_octokit hosting) pullWindow 3 "alpha"
            (Some "main"))
    (fun count evs =>
       count = 3 /\
       evs = [Called (PullsList "org" "alpha" "main" 2 1) None;
              Called (PullsList "org" "alpha" "main" 2 2) None;
              Called (PullsList "org" "alpha" "main" 2 3) None]).
Proof.
  eapply yields_conseq.
  - apply (@getPullRequestCount_exact hosting pullWindow "alpha" alpha eq_refl "main" 3
             (map Build_PullItem [500; 400; 300; 200]%Z)
             (map Build_PullItem [100; 50]%Z)).
    + reflexivity.
    + repeat constructor; cbn; lia.
    + repeat constructor; cbn; lia.
    + cbn. lia.
  - intros count evs [-> ->]. split; reflexivity.
Defined.

Lemma getIssueStats_exact_witness :
  yields (@getIssueStats _ (remote_octokit hosting2) covering 1 "beta")
    (fun counts evs =>
       created counts = 1 /\ closed counts = 2 /\
       evs = [Called (IssuesListForRepo "org" "beta" 100 100 1) None]).
Proof.
  eapply yields_conseq.
  - apply (@getIssueStats_exact hosting2 covering "beta" beta eq_refl 1).
    cbn. lia.
  - intros counts evs (-> & -> & ->). repeat split; reflexivity.
Defined.

Lemma missing_repository_witness :
  exists s',
    @getRepoStats _ (remote_octokit hosting) covering 5 (mkRepoInfo "ghost" true)
      (fresh clk) =
      (Return (mkRepoStats "ghost" true 0 0 0 0 0 0 [] 0 0 0), s') /\
    requests (journal s') = [Called (ReposGet "org" "ghost") (Some notFound)].
Proof.
  apply (@missing_repository hosting covering "ghost" 5 true (fresh clk)).
  - reflexivity.
  - intros b E. unfold fresh in E. cbn [repoBranchCache] in E.
    rewrite lookup_empty in E. discriminate.
Defined.

Lemma empty_repository_witness :
  fails (@getCommitCount _ (remote_octokit hosting2) covering 2 "hollow" (Some "main"))
        (GitHubApiError "hollow" "fetching commits" emptyRepository)
        [Called (rangeCommits covering "hollow" "main" (Some 1))
                (Some emptyRepository)] /\
  yields (@getRepoStats _ (remote_octokit hosting2) covering 2
            (mkRepoInfo "hollow" false))
    (fun stats _ =>
       commits stats = 0 /\ linesAdded stats = 0%Z /\ linesDeleted stats = 0%Z /\
       totalLines stats = 0%Z /\ contributors stats = 0 /\
       contributorsList stats = []).
Proof.
  apply (@empty_repository hosting2 covering "hollow" hollow eq_refl "main" 2 false).
  - reflexivity.
  - cbn. lia.
  - cbn. lia.
Defined.

Lemma getReleaseCount_exact_witness :
  yields (@getReleaseCount _ (remote_octokit hosting2) covering 1 "beta")
    (fun count evs =>
       count = 2 /\ evs = [Called (ReposListReleases "org" "beta" 100 1) None]).
Proof.
  eapply yields_conseq.
  - apply (@getReleaseCount_exact hosting2 covering "beta" beta eq_refl 1
             [mkRelease (Some 190%Z) 180%Z; mkRelease None 120%Z]
             [mkRelease (Some 90%Z) 80%Z]).
    + reflexivity.
    + repeat constructor; cbn; lia.
    + repeat constructor; cbn; lia.
    + cbn. lia.
  - intros count evs [-> ->]. split; reflexivity.
Defined.

Lemma getLinesOfCode_compares_witness :
  yields (@getLinesOfCode _ (remote_octokit hosting) fromSecond "alpha" (Some "main"))
    (fun lines evs =>
       lines = mkLines 7 1 /\
       evs = [Called (headRequest fromSecond "alpha" "main") None;
              Called (baseRequest fromSecond "alpha" "main") None;
              Called (ReposCompareCommits "org" "alpha" "aaa" "bbb") None]).
Proof.
  eapply yields_conseq.
  - apply (@getLinesOfCode_compares hosting fromSecond "alpha" alpha eq_refl "main"
             secondCommit rootCommit [rootCommit] []); reflexivity.
  - cbn. intros lines evs [-> ->]. split; reflexivity.
Defined.

Lemma getLinesOfCode_first_page_witness :
  yields (@getLinesOfCode _ (remote_octokit hosting) onePerPage "alpha" (Some "main"))
    (fun lines evs =>
       lines = mkLines 7 1 /\
       Called (ReposGetCommit "org" "alpha" "bbb") None ∈ evs).
Proof.
  eapply yields_conseq.
  - apply (@getLinesOfCode_first_page hosting onePerPage "alpha" alpha eq_refl "main"
             secondCommit secondCommit [rootCommit] "aaa" []).
    + reflexivity.
    + repeat constructor; cbn; lia.
    + reflexivity.
    + reflexivity.
    + reflexivity.
    + apply (bool_decide_unpack _). vm_compute. exact I.
  - cbn. intros lines evs [-> In]. split; [reflexivity|exact In].
Defined.

Lemma getOrgRepos_filters_witness :
  (name (mkRepoInfo "d" true) ∉ ["b"]) /\
  (@nil string <> [] -> name (mkRepoInfo "d" true) ∈ @nil string).
Proof.
  pose proof (@getOrgRepos_filters unit pullWindow [] ["b"] listPages 3
                (mkState 5000 0 ∅ tt [])) as H.
  assert (fst (getOrgRepos pullWindow [] ["b"] listPages 3 (mkState 5000 0 ∅ tt [])) =
          Return [mkRepoInfo "a" false; mkRepoInfo "c" false; mkRepoInfo "d" true;
                  mkRepoInfo "e" false]) as E by (vm_compute; reflexivity).
  rewrite E in H. apply H. do 2 right. left.
Defined.

Lemma getOrgRepos_all_pages_witness :
  exists s',
    getOrgRepos pullWindow [] ["b"] listPages 3 (mkState 5000 0 ∅ tt []) =
      (Return [mkRepoInfo "a" false; mkRepoInfo "c" false; mkRepoInfo "d" true;
               mkRepoInfo "e" false], s').
Proof.
  apply (@getOrgRepos_all_pages unit pullWindow [] ["b"] listPages orgListing 3).
  - intros page s. eexists _, _. reflexivity.
  - cbn. lia.
Defined.

Lemma calculateTotals_contributors_witness :
  length (contributorsList statsA) <=
  total_contributors (ts_totals (calculateTotals [statsA; statsB])) /\
  total_contributors (ts_totals (calculateTotals [statsA; statsB])) = 3.
Proof.
  split; [|reflexivity].
  pose proof (calculateTotals_contributors [statsA; statsB]) as H. cbv zeta in H.
  destruct H as (_ & _ & H). apply H; [left|].
  apply (bool_decide_unpack _). vm_compute. exact I.
Defined.

Lemma calculateTotals_order_witness :
  ts_totals (calculateTotals [statsA; statsB]) =
  ts_totals (calculateTotals [statsB; statsA]).
Proof. apply calculateTotals_order. apply perm_swap. Defined.

Lemma totals_of_collected_witness :
  let totals := ts_totals (calculateTotals [alphaStats; betaStats]) in
  total_totalLines totals =
    (total_linesAdded totals - total_linesDeleted totals)%Z /\
  total_contributors totals <= sum_list (map contributors [alphaStats; betaStats]) /\
  forall stats, stats ∈ [alphaStats; betaStats] ->
    contributors stats <= total_contributors totals.
Proof.
  apply (@totals_of_collected _ (remote_octokit hosting2) covering 5).
  repeat constructor.
  - exists (mkRepoInfo "alpha" false), (fresh clk). eexists. vm_compute. reflexivity.
  - exists (mkRepoInfo "beta" true), (fresh clk). eexists. vm_compute. reflexivity.
Defined.

Lemma calculateUserStats_users_witness :
  mkUserStats "bob" 0 0 0 0 ["A"; "B"] =
  mkUserStats "bob" 0 0 0 0 (reposOf "bob" [statsA; statsB]) /\
  map username (calculateUserStats [statsA; statsB]) = ["ann"; "bob"; "cy"].
Proof.
  pose proof (calculateUserStats_users [statsA; statsB]) as H. cbv zeta in H.
  destruct H as (_ & _ & _ & _ & H). split; [|reflexivity].
  apply (H (mkUserStats "bob" 0 0 0 0 ["A"; "B"])).
  right. left.
Defined.

Lemma escapeCsvField_injective_witness :
  escapeCsvField "a,b" = String dquote ("a,b" ++ String dquote EmptyString) /\
  escapeCsvField (String dquote ("a,b" ++ String dquote EmptyString)) <>
  escapeCsvField "a,b".
Proof.
  split; [reflexivity|]. apply escapeCsvField_injective. discriminate.
Defined.

Lemma getApiBaseUrl_trailing_slash_witness :
  getApiBaseUrl true "https://ghe.example.com" =
  getApiBaseUrl true "https://ghe.example.com/".
Proof.
  apply (proj1 (proj2 (getApiBaseUrl_trailing_slash "https://ghe.example.co" "m"))).
  discriminate.
Defined.

Lemma processRepos_bounds_witness :
  @processRepos _ github covering lastFirst 7 [] 0 (fresh clk) =
    (Return [], fresh clk) /\
  fst (@processRepos _ github covering lastFirst 7 fourRepos 0 (fresh clk)) =
    Unfinished.
Proof.
  destruct (@processRepos_bounds _ github covering lastFirst 7 fourRepos (fresh clk))
    as [Empty Stall].
  split; [apply Empty; lia|apply Stall; discriminate].
Defined.

End Instances.
